(** * PropertyManager: the amortization and projection engine

    Shallow embedding of the numerical core of the rental-property
    analyser:

    - [analysis.py]: [calculate_monthly_cash_flow] and
      [calculate_break_even_down_payment], and the two normalizers
      [normalize_zillow_data] and [normalize_redfin_data];
    - [app.py]: [calculate_investment_projections] and the rent fill;
    - [main.py]: the rent fill and the summary counts.

    Numbers.  Python floats are idealised as exact rationals in lowest
    terms ([Qc]); [round(x, 2)] is rounding to hundredths, ties to even.
    The two places where the source leaves finite arithmetic are kept:
    a scalar division by zero raises [ZeroDivisionError], and a pandas
    column divided by a zero scalar yields [NaN] or an infinity
    ([npfloat]).  What binary floating point adds to this is not
    modelled: a power that overflows, a sum that absorbs a tiny rate, the
    residue that rounding leaves on a balance that is zero on paper, and
    the side a rounding tie falls on.  The statements whose truth would
    depend on these carry hypotheses on the ranges of the inputs
    ([power_fits], bounds on the rate and the term) or on the balances
    the run computes ([principal_fits]), or speak of the emitted cents
    within a cent.

    Tables.  A pandas [DataFrame] is a list of column labels together
    with a list of rows; looking up a label that is not among the
    columns raises [KeyError].  The raw response tables handed to the
    normalizers are kept column by column, with cells of an open type. *)

From Stdlib Require Import QArith Qcanon Qround Lqa Lia ZArith.
From Stdlib Require Import List String Bool Permutation Sorted Morphisms.
From Stdlib Require Import DecimalString.
Import ListNotations.

Local Open Scope Qc_scope.

(* ================================================================== *)
(** * Rational arithmetic *)
(* ================================================================== *)

Module Num.

(** Decimal literals of the source, e.g. [0.0125] is [dec 125 10000]. *)
Definition dec (n : Z) (d : positive) : Qc := Q2Qc (n # d).

(** A Python [int] used where a float is expected. *)
Definition of_int (z : Z) : Qc := Q2Qc (inject_Z z).

Definition Qcltb (x y : Qc) : bool :=
  if Qclt_le_dec x y then true else false.

Definition Qceqb (x y : Qc) : bool :=
  if Qc_eq_dec x y then true else false.

Fixpoint Qc_list_eqb (l1 l2 : list Qc) : bool :=
  match l1, l2 with
  | [], [] => true
  | x :: l1', y :: l2' => Qceqb x y && Qc_list_eqb l1' l2'
  | _, _ => false
  end.

(** Python's [min(a, b)]: [b] when [b < a], else [a]. *)
Definition py_min (a b : Qc) : Qc := if Qcltb b a then b else a.

(** Round to the nearest integer, ties to even. *)
Definition rint (x : Q) : Z :=
  let f := Qfloor x in
  match Qcompare (x - inject_Z f) (1 # 2) with
  | Lt => f
  | Gt => (f + 1)%Z
  | Eq => if Z.even f then f else (f + 1)%Z
  end.

(** [round(x, 2)]. *)
Definition round2 (x : Qc) : Qc :=
  Q2Qc (inject_Z (rint (this x * 100)) / 100).

End Num.

(* ================================================================== *)
(** * Python and numpy values *)
(* ================================================================== *)

Module Py.
Import Num.

(** Exceptions the modelled code can raise. *)
Inductive exn : Type :=
| KeyError (label : string)
| IndexError
| ValueError
| ZeroDivisionError.

(** A computation either raises ([inl]) or returns ([inr]). *)
Definition exc (A : Type) : Type := (exn + A)%type.

Definition ret {A : Type} (a : A) : exc A := inr a.
Definition raise {A : Type} (e : exn) : exc A := inl e.

Definition bind {A B : Type} (m : exc A) (k : A -> exc B) : exc B :=
  match m with
  | inl e => inl e
  | inr a => k a
  end.

Notation "x <- m ;; k" := (bind m (fun x => k))
  (at level 61, m at next level, right associativity).
Notation "' pat <- m ;; k" := (bind m (fun x => match x with pat => k end))
  (at level 61, pat pattern, m at next level, right associativity).

(** [x ** n] for a float [x] and an int [n]: [0.0 ** n] with [n < 0]
    raises.  The result is the exact power: CPython raises
    [OverflowError] when the power leaves the range of a double, and
    that failure is not modelled.  The statements that list the failures
    of a function or conclude that it returns assume [power_fits]. *)
Definition py_pow (x : Qc) (n : Z) : exc Qc :=
  match n with
  | Zneg p => if Qceqb x 0 then raise ZeroDivisionError
              else ret (/ (x ^ Pos.to_nat p))
  | _ => ret (x ^ Z.to_nat n)
  end.

(** Half the largest power of two a double can hold. *)
Definition float_limit : Qc := of_int (2 ^ 1023).

(** Whether [x ** n], for a base that is not negative, is zero to a
    negative power (which raises [ZeroDivisionError] in the model as in
    CPython) or stays below [float_limit], so that CPython does not
    raise [OverflowError]. *)
Definition power_fits (x : Qc) (n : Z) : bool :=
  match n with
  | Zneg p =>
      Qceqb x 0 || (Qcltb 0 x && Qcltb (/ (x ^ Pos.to_nat p)) float_limit)
  | _ => negb (Qcltb x 0) && Qcltb (x ^ Z.to_nat n) float_limit
  end.

(** Scalar [a / b]. *)
Definition py_div (a b : Qc) : exc Qc :=
  if Qceqb b 0 then raise ZeroDivisionError else ret (a / b).

(** [range(a, b)] on ints. *)
Definition py_range (a b : Z) : list Z :=
  map (fun i => (a + Z.of_nat i)%Z) (seq 0 (Z.to_nat (b - a))).

(** A cell of a float64 column. *)
Inductive npfloat : Type :=
| Fin (q : Qc)
| PInf
| NInf
| NaN.

Definition is_nan (a : npfloat) : bool :=
  match a with NaN => true | _ => false end.

Definition np_neg (a : npfloat) : npfloat :=
  match a with
  | Fin q => Fin (- q)
  | PInf => NInf
  | NInf => PInf
  | NaN => NaN
  end.

Definition np_add (a b : npfloat) : npfloat :=
  match a, b with
  | NaN, _ | _, NaN => NaN
  | Fin x, Fin y => Fin (x + y)
  | PInf, NInf | NInf, PInf => NaN
  | PInf, _ | _, PInf => PInf
  | NInf, _ | _, NInf => NInf
  end.

Definition np_sub (a b : npfloat) : npfloat := np_add a (np_neg b).

Definition np_sign_inf (x : Qc) : npfloat :=
  if Qceqb x 0 then NaN else if Qcltb 0 x then PInf else NInf.

Definition np_mul (a b : npfloat) : npfloat :=
  match a, b with
  | NaN, _ | _, NaN => NaN
  | Fin x, Fin y => Fin (x * y)
  | Fin x, PInf | PInf, Fin x => np_sign_inf x
  | Fin x, NInf | NInf, Fin x => np_sign_inf (- x)
  | PInf, PInf | NInf, NInf => PInf
  | PInf, NInf | NInf, PInf => NaN
  end.

(** A finite cell divided by a scalar: division by zero does not raise,
    it yields [NaN] for [0/0] and a signed infinity otherwise. *)
Definition np_div (a b : Qc) : npfloat :=
  if Qceqb b 0 then np_sign_inf a else Fin (a / b).

Definition np_round2 (a : npfloat) : npfloat :=
  match a with
  | Fin q => Fin (round2 q)
  | _ => a
  end.

(** IEEE comparisons: anything involving [NaN] is false. *)
Definition np_ltb (a b : npfloat) : bool :=
  match a, b with
  | NaN, _ | _, NaN => false
  | Fin x, Fin y => Qcltb x y
  | NInf, NInf | PInf, PInf => false
  | NInf, _ | _, PInf => true
  | PInf, _ | _, NInf => false
  end.

Definition np_gtb (a b : npfloat) : bool := np_ltb b a.

Definition np_leb (a b : npfloat) : bool :=
  match a, b with
  | NaN, _ | _, NaN => false
  | _, _ => negb (np_ltb b a)
  end.

(** [np.arange(start, stop, step)] for a positive step. *)
Definition np_arange (start stop step : Qc) : list Qc :=
  let n := Z.to_nat (Qceiling (this ((stop - start) / step))) in
  map (fun i => start + of_int (Z.of_nat i) * step) (seq 0 n).

End Py.

(* ================================================================== *)
(** * Data frames *)
(* ================================================================== *)

Module Frame.
Import Num Py.

(** A row of the property table.  [ID] and [Address] stand for the
    columns carried through unchanged; [Price] and [RentEstimate] are
    supplied by the listings collaborator; the other cells are written by
    the calculators.  A cell of a column that is not among the frame's
    [columns] carries no information. *)
Record Row : Type := mkRow {
  ID : string;
  Address : string;
  Price : Qc;
  RentEstimate : Qc;
  PropertyTax : npfloat;
  MonthlyMortgage : npfloat;
  MonthlyCashFlow : npfloat;
  DownPaymentPercent : npfloat;
  DownPaymentAmount : npfloat
}.

Definition set_PropertyTax (v : npfloat) (r : Row) : Row :=
  mkRow (ID r) (Address r) (Price r) (RentEstimate r) v
        (MonthlyMortgage r) (MonthlyCashFlow r)
        (DownPaymentPercent r) (DownPaymentAmount r).

Definition set_MonthlyMortgage (v : npfloat) (r : Row) : Row :=
  mkRow (ID r) (Address r) (Price r) (RentEstimate r) (PropertyTax r)
        v (MonthlyCashFlow r)
        (DownPaymentPercent r) (DownPaymentAmount r).

Definition set_MonthlyCashFlow (v : npfloat) (r : Row) : Row :=
  mkRow (ID r) (Address r) (Price r) (RentEstimate r) (PropertyTax r)
        (MonthlyMortgage r) v
        (DownPaymentPercent r) (DownPaymentAmount r).

Definition set_DownPaymentPercent (v : npfloat) (r : Row) : Row :=
  mkRow (ID r) (Address r) (Price r) (RentEstimate r) (PropertyTax r)
        (MonthlyMortgage r) (MonthlyCashFlow r)
        v (DownPaymentAmount r).

Definition set_DownPaymentAmount (v : npfloat) (r : Row) : Row :=
  mkRow (ID r) (Address r) (Price r) (RentEstimate r) (PropertyTax r)
        (MonthlyMortgage r) (MonthlyCashFlow r)
        (DownPaymentPercent r) v.

Record DataFrame : Type := mkFrame {
  columns : list string;
  rows : list Row
}.

(** [pd.DataFrame()]: no columns, no rows. *)
Definition empty_frame : DataFrame := mkFrame [] [].

Definition has_column (df : DataFrame) (label : string) : bool :=
  existsb (String.eqb label) (columns df).

(** [df[label]] used for reading: the label has to be a column. *)
Definition getitem (df : DataFrame) (label : string) : exc unit :=
  if has_column df label then ret tt else raise (KeyError label).

Definition add_label (label : string) (cols : list string) : list string :=
  if existsb (String.eqb label) cols then cols else cols ++ [label].

(** [df[label] = series], the series being computed row by row. *)
Definition assign (label : string) (f : Row -> Row) (df : DataFrame)
  : DataFrame :=
  mkFrame (add_label label (columns df)) (map f (rows df)).

(** [df[label] = values] for a Python list: the lengths have to agree. *)
Definition assign_list (label : string) (set : npfloat -> Row -> Row)
    (values : list npfloat) (df : DataFrame) : exc DataFrame :=
  if Nat.eqb (List.length values) (List.length (rows df)) then
    ret (mkFrame (add_label label (columns df))
                 (map (fun vr => set (fst vr) (snd vr))
                      (combine values (rows df))))
  else raise ValueError.

(** [pd.concat([a, b], ignore_index=True)]. *)
Definition concat (a b : DataFrame) : DataFrame :=
  mkFrame (fold_left (fun cols l => add_label l cols) (columns b) (columns a))
          (rows a ++ rows b).

(** [series.iloc[0]]. *)
Definition iloc0 {A : Type} (series : list A) : exc A :=
  match series with
  | [] => raise IndexError
  | x :: _ => ret x
  end.

(** ** Sorting

    [DataFrame.sort_values] on a single column hands the non-missing keys
    to [numpy.argsort] with the requested [kind]; the source does not
    pass one, so the default, ["quicksort"], applies.  numpy documents
    that kind as an ascending sort that need not be stable, so it is
    taken here by its contract: the result is a rearrangement of the
    input in ascending key order. *)
Class Quicksort : Type := {
  np_quicksort : (Row -> npfloat) -> list Row -> list Row;
  np_quicksort_perm : forall key l, Permutation l (np_quicksort key l);
  np_quicksort_sorted : forall key l,
    Forall (fun r => is_nan (key r) = false) l ->
    StronglySorted (fun a b => np_leb (key a) (key b) = true)
                   (np_quicksort key l)
}.

(** pandas' [nargsort] for [ascending=False], [na_position="last"]: the
    non-missing rows are reversed, sorted ascending, and reversed again;
    the rows with a missing key follow in their original order. *)
Definition sort_values_desc `{Quicksort} (key : Row -> npfloat)
    (df : DataFrame) : DataFrame :=
  let non_nans := filter (fun r => negb (is_nan (key r))) (rows df) in
  let nans := filter (fun r => is_nan (key r)) (rows df) in
  mkFrame (columns df) (rev (np_quicksort key (rev non_nans)) ++ nans).

End Frame.

(* ================================================================== *)
(** * analysis.py *)
(* ================================================================== *)

Module Analysis.
Import Num Py Frame.

Section Calculators.
Context `{QS : Quicksort}.

(** The three derived columns of one row, before sorting. *)
Definition property_tax_cell (r : Row) : npfloat :=
  np_round2 (Fin (Price r * dec 125 10000 / of_int 12)).

Definition monthly_mortgage_cell
    (loan_to_value monthly_rate pow_num pow_den : Qc) (r : Row) : npfloat :=
  np_round2 (np_div ((loan_to_value * Price r) * (monthly_rate * pow_num))
                    (pow_den - 1)).

Definition monthly_cash_flow_cell (monthly_insurance : Qc) (r : Row)
  : npfloat :=
  np_round2 (np_sub (Fin (RentEstimate r))
                    (np_add (np_add (PropertyTax r) (MonthlyMortgage r))
                            (Fin monthly_insurance))).

Definition calculate_monthly_cash_flow (df : DataFrame)
    (interest_rate : Qc) (loan_months : Z)
    (monthly_insurance down_payment_percent : Qc) : exc DataFrame :=
  let monthly_rate := interest_rate / of_int 12 in
  let loan_to_value := 1 - down_payment_percent in
  _ <- getitem df "Price" ;;
  let df := assign "PropertyTax"
              (fun r => set_PropertyTax (property_tax_cell r) r) df in
  pow_num <- py_pow (1 + monthly_rate) loan_months ;;
  pow_den <- py_pow (1 + monthly_rate) loan_months ;;
  let df := assign "MonthlyMortgage"
              (fun r => set_MonthlyMortgage
                          (monthly_mortgage_cell loan_to_value monthly_rate
                                                 pow_num pow_den r) r) df in
  _ <- getitem df "RentEstimate" ;;
  let df := assign "MonthlyCashFlow"
              (fun r => set_MonthlyCashFlow
                          (monthly_cash_flow_cell monthly_insurance r) r) df in
  ret (sort_values_desc MonthlyCashFlow df).

(** [np.arange(0.20, 1.0, 0.01)]. *)
Definition candidates : list Qc := np_arange (dec 20 100) 1 (dec 1 100).

Section BreakEven.
Variables (interest_rate : Qc) (loan_months : Z) (monthly_insurance : Qc).

(** The inner [for down_pct in np.arange(...)] with its [break]:
    the first candidate whose recomputed cash flow is positive. *)
Fixpoint scan (property_df : DataFrame) (cands : list Qc)
  : exc (option (DataFrame * Qc)) :=
  match cands with
  | [] => ret None
  | down_pct :: rest =>
      test_df <- calculate_monthly_cash_flow property_df interest_rate
                   loan_months monthly_insurance down_pct ;;
      cf <- iloc0 (map MonthlyCashFlow (rows test_df)) ;;
      if np_gtb cf (Fin 0) then ret (Some (test_df, round2 down_pct))
      else scan property_df rest
  end.

(** Body of [for idx, row in df.iterrows()]; the state is [result_df]
    and [down_payment_percentages]. *)
Definition loop_body (df : DataFrame) (acc : DataFrame * list Qc)
    (row : Row) : exc (DataFrame * list Qc) :=
  let property_df := mkFrame (columns df) [row] in
  _ <- getitem df "MonthlyCashFlow" ;;
  if np_gtb (MonthlyCashFlow row) (Fin 0) then
    ret (concat (fst acc) property_df, snd acc ++ [dec 20 100])
  else
    found <- scan property_df candidates ;;
    match found with
    | Some (test_df, pct) => ret (concat (fst acc) test_df, snd acc ++ [pct])
    | None => ret acc
    end.

Fixpoint iterrows (df : DataFrame) (todo : list Row)
    (acc : DataFrame * list Qc) : exc (DataFrame * list Qc) :=
  match todo with
  | [] => ret acc
  | row :: rest => acc' <- loop_body df acc row ;; iterrows df rest acc'
  end.

Definition calculate_break_even_down_payment (df : DataFrame)
  : exc DataFrame :=
  acc <- iterrows df (rows df) (empty_frame, []) ;;
  result_df <- assign_list "DownPaymentPercent" set_DownPaymentPercent
                 (map Fin (snd acc)) (fst acc) ;;
  _ <- getitem result_df "Price" ;;
  ret (assign "DownPaymentAmount"
         (fun r => set_DownPaymentAmount
                     (np_round2 (np_mul (DownPaymentPercent r)
                                        (Fin (Price r)))) r)
         result_df).

End BreakEven.
End Calculators.

(** ** The calculators, row by row

    What the two functions do to one row, written without frames; the
    facts below relate these to the functions above. *)

(** A row with its three derived cells filled in. *)
Definition cash_flow_row
    (loan_to_value monthly_rate pow_num pow_den monthly_insurance : Qc)
    (r : Row) : Row :=
  let r1 := set_PropertyTax (property_tax_cell r) r in
  let r2 := set_MonthlyMortgage
              (monthly_mortgage_cell loan_to_value monthly_rate
                                     pow_num pow_den r1) r1 in
  set_MonthlyCashFlow (monthly_cash_flow_cell monthly_insurance r2) r2.

Definition cash_flow_columns (cols : list string) : list string :=
  add_label "MonthlyCashFlow"
    (add_label "MonthlyMortgage" (add_label "PropertyTax" cols)).

(** A row with the two break-even cells filled in. *)
Definition with_down_payment (pct : Qc) (r : Row) : Row :=
  set_DownPaymentAmount
    (np_round2 (np_mul (Fin pct) (Fin (Price r))))
    (set_DownPaymentPercent (Fin pct) r).

(** Keep the results of a partial map. *)
Fixpoint collect {A B : Type} (f : A -> option B) (l : list A) : list B :=
  match l with
  | [] => []
  | x :: l' => match f x with
               | Some y => y :: collect f l'
               | None => collect f l'
               end
  end.

Section RowWise.
Variables (interest_rate : Qc) (loan_months : Z) (monthly_insurance : Qc).

(** [(1 + monthly_rate) ** loan_months], when it is defined. *)
Definition growth : Qc :=
  match py_pow (1 + interest_rate / of_int 12) loan_months with
  | inr p => p
  | inl _ => 0
  end.

(** The row recomputed with the cash-flow formula at a down-payment
    fraction. *)
Definition recomputed (row : Row) (down_pct : Qc) : Row :=
  cash_flow_row (1 - down_pct) (interest_rate / of_int 12) growth growth
                monthly_insurance row.

Definition positive_at (row : Row) (down_pct : Qc) : bool :=
  np_gtb (MonthlyCashFlow (recomputed row down_pct)) (Fin 0).

(** The outcome for one record: kept as it is at 20 percent, kept
    recomputed at the first candidate with a positive cash flow, or
    dropped. *)
Definition outcome_row (row : Row) : option (Row * Qc) :=
  if np_gtb (MonthlyCashFlow row) (Fin 0) then Some (row, dec 20 100)
  else
    match find (positive_at row) candidates with
    | Some f => Some (recomputed row f, round2 f)
    | None => None
    end.

Definition break_even_row (row : Row) : option Row :=
  match outcome_row row with
  | Some (r, pct) => Some (with_down_payment pct r)
  | None => None
  end.

End RowWise.

(** ** Concrete tables *)

Definition listing (id : string) (price rent : Z) : Row :=
  mkRow id "1 Main St" (of_int price) (of_int rent) NaN NaN NaN NaN NaN.

Definition listing_columns : list string :=
  ["ID"; "Address"; "Price"; "RentEstimate"]%string.

(** One listing at 500000 renting for 3000. *)
Definition one_listing : DataFrame :=
  mkFrame listing_columns [listing "1" 500000 3000].

(** Two listings at 20000: on a 12-month loan at 6 percent the first
    pays only from 21 percent down, the second pays at 20 percent. *)
Definition sample_listings : DataFrame :=
  mkFrame listing_columns [listing "1" 20000 1490; listing "2" 20000 2500].

(** The cash-flow table of one listing at 1000000 renting for 1000, as
    computed at 6.1 percent over 360 months with insurance 100 and 20
    percent down: tax 1041.67, mortgage 4847.96, cash flow -4989.63. *)
Definition costly_listing : DataFrame :=
  mkFrame (cash_flow_columns listing_columns)
    [mkRow "1" "1 Main St" (of_int 1000000) (of_int 1000)
           (Fin (dec 104167 100)) (Fin (dec 484796 100))
           (Fin (dec (-498963) 100)) NaN NaN].

End Analysis.


(* ================================================================== *)
(** * app.py: the projection simulator *)
(* ================================================================== *)

Module App.
Import Num Py.

(** The arguments of [calculate_investment_projections]. *)
Record Inputs : Type := mkInputs {
  purchase_price : Qc;
  down_payment_pct : Qc;
  interest_rate : Qc;
  loan_years : Z;
  monthly_insurance : Qc;
  annual_tax_rate : Qc;
  monthly_rent : Qc;
  vacancy_rate : Qc;
  annual_appreciation : Qc;
  annual_rent_increase : Qc;
  holding_years : Z;
  initial_repairs : Qc;
  ongoing_maintenance_pct : Qc;
  extra_payment_monthly : Qc;
  cashflow_to_principal_pct : Qc
}.

(** Variables carried from one year to the next. *)
Record YearState : Type := mkYear {
  current_property_value : Qc;
  current_monthly_rent : Qc;
  remaining_balance : Qc;
  cumulative_cash_flow : Qc;
  cumulative_extra_principal : Qc
}.

(** Variables carried from one month to the next within a year. *)
Record MonthState : Type := mkMonth {
  temp_balance : Qc;
  principal_paid : Qc;
  total_extra_principal_this_year : Qc
}.

(** The local variables of one pass through the yearly loop, unrounded. *)
Record Figures : Type := mkFigures {
  year : Z;
  year_start_balance : Qc;
  monthly_property_tax : Qc;
  monthly_maintenance : Qc;
  effective_monthly_rent : Qc;
  monthly_expenses : Qc;
  monthly_cash_flow_gross : Qc;
  months : MonthState;
  annual_cash_flow : Qc;
  monthly_cash_flow : Qc;
  equity : Qc;
  total_cash_invested_adjusted : Qc;
  total_return : Qc;
  roi_pct : Qc;
  cash_on_cash : Qc;
  selling_costs : Qc;
  net_proceeds : Qc;
  total_profit : Qc;
  after : YearState
}.

(** One emitted record (a row of the returned table). *)
Record Projection : Type := mkProjection {
  Year : Z;
  PropertyValue : Qc;
  MonthlyRent : Qc;
  MonthlyCashFlow : Qc;
  AnnualCashFlow : Qc;
  CumulativeCashFlow : Qc;
  LoanBalance : Qc;
  PrincipalPaid : Qc;
  ExtraPrincipalThisYear : Qc;
  CumulativeExtraPrincipal : Qc;
  Equity : Qc;
  CashOnCashReturn : Qc;
  TotalROI : Qc;
  NetProceedsIfSold : Qc;
  TotalProfit : Qc
}.

Section Simulator.
Variable a : Inputs.

(** Initial calculations. *)
Definition down_payment : Qc := purchase_price a * down_payment_pct a.
Definition loan_amount : Qc := purchase_price a - down_payment.
Definition monthly_rate : Qc := interest_rate a / of_int 12.
Definition total_months : Z := (loan_years a * 12)%Z.
Definition total_cash_invested : Qc := down_payment + initial_repairs a.

Definition monthly_mortgage : exc Qc :=
  if Qcltb 0 (interest_rate a) then
    pow_num <- py_pow (1 + monthly_rate) total_months ;;
    pow_den <- py_pow (1 + monthly_rate) total_months ;;
    py_div (loan_amount * (monthly_rate * pow_num)) (pow_den - 1)
  else
    py_div loan_amount (of_int total_months).

Definition initial_state : YearState :=
  mkYear (purchase_price a) (monthly_rent a) loan_amount 0 0.

Section Year.
Variable mortgage : Qc.

(** Body of [for month in range(12)]. *)
Definition month_body (gross : Qc) (s : MonthState) : MonthState :=
  if Qcltb 0 (temp_balance s) then
    let interest_payment := temp_balance s * monthly_rate in
    let principal_payment := mortgage - interest_payment in
    let extra_from_fixed := extra_payment_monthly a in
    let extra_from_cashflow :=
      if Qcltb 0 gross then gross * cashflow_to_principal_pct a else 0 in
    let total_extra := extra_from_fixed + extra_from_cashflow in
    let total_extra :=
      py_min total_extra (temp_balance s - principal_payment) in
    let new_balance := temp_balance s - (principal_payment + total_extra) in
    mkMonth (if Qcltb new_balance 0 then 0 else new_balance)
            (principal_paid s + (principal_payment + total_extra))
            (total_extra_principal_this_year s + total_extra)
  else s.

Definition run_months (gross : Qc) (n : nat) (s : MonthState) : MonthState :=
  Nat.iter n (month_body gross) s.

(** Body of [for year in range(1, holding_years + 1)], up to the record
    that is appended. *)
Definition year_body (yr : Z) (st : YearState) : Figures :=
  let year_start_balance := remaining_balance st in
  let current_property_value :=
    if (1 <? yr)%Z
    then current_property_value st * (1 + annual_appreciation a)
    else current_property_value st in
  let current_monthly_rent :=
    if (1 <? yr)%Z
    then current_monthly_rent st * (1 + annual_rent_increase a)
    else current_monthly_rent st in
  let monthly_property_tax :=
    (current_property_value * annual_tax_rate a) / of_int 12 in
  let monthly_maintenance :=
    (purchase_price a * ongoing_maintenance_pct a) / of_int 12 in
  let effective_monthly_rent := current_monthly_rent * (1 - vacancy_rate a) in
  let monthly_expenses :=
    mortgage + monthly_property_tax + monthly_insurance a
    + monthly_maintenance in
  let monthly_cash_flow_gross := effective_monthly_rent - monthly_expenses in
  let months :=
    run_months monthly_cash_flow_gross 12 (mkMonth year_start_balance 0 0) in
  let remaining_balance := temp_balance months in
  let cumulative_extra_principal :=
    cumulative_extra_principal st + total_extra_principal_this_year months in
  let annual_cash_flow :=
    (monthly_cash_flow_gross * of_int 12)
    - total_extra_principal_this_year months in
  let monthly_cash_flow := annual_cash_flow / of_int 12 in
  let equity := current_property_value - remaining_balance in
  let cumulative_cash_flow := cumulative_cash_flow st + annual_cash_flow in
  let total_cash_invested_adjusted :=
    total_cash_invested + cumulative_extra_principal in
  let total_return :=
    cumulative_cash_flow + equity - total_cash_invested_adjusted in
  let roi_pct :=
    if Qcltb 0 total_cash_invested_adjusted
    then total_return / total_cash_invested_adjusted * of_int 100
    else 0 in
  let cash_on_cash :=
    if Qcltb 0 total_cash_invested
    then annual_cash_flow / total_cash_invested * of_int 100
    else 0 in
  let selling_costs := current_property_value * dec 6 100 in
  let net_proceeds :=
    current_property_value - remaining_balance - selling_costs in
  let total_profit :=
    net_proceeds + cumulative_cash_flow - total_cash_invested_adjusted in
  mkFigures yr year_start_balance monthly_property_tax monthly_maintenance
    effective_monthly_rent monthly_expenses monthly_cash_flow_gross months
    annual_cash_flow monthly_cash_flow equity total_cash_invested_adjusted
    total_return roi_pct cash_on_cash selling_costs net_proceeds total_profit
    (mkYear current_property_value current_monthly_rent remaining_balance
            cumulative_cash_flow cumulative_extra_principal).

(** The dictionary appended to [projections]. *)
Definition emit (f : Figures) : Projection :=
  mkProjection
    (year f)
    (round2 (current_property_value (after f)))
    (round2 (current_monthly_rent (after f)))
    (round2 (monthly_cash_flow f))
    (round2 (annual_cash_flow f))
    (round2 (cumulative_cash_flow (after f)))
    (round2 (remaining_balance (after f)))
    (round2 (principal_paid (months f)))
    (round2 (total_extra_principal_this_year (months f)))
    (round2 (cumulative_extra_principal (after f)))
    (round2 (equity f))
    (round2 (cash_on_cash f))
    (round2 (roi_pct f))
    (round2 (net_proceeds f))
    (round2 (total_profit f)).

Fixpoint year_loop (years : list Z) (st : YearState)
    (projections : list Projection) : list Projection :=
  match years with
  | [] => projections
  | yr :: rest =>
      let f := year_body yr st in
      year_loop rest (after f) (projections ++ [emit f])
  end.

(** The unrounded figures behind the emitted records, year by year. *)
Fixpoint figures_from (years : list Z) (st : YearState) : list Figures :=
  match years with
  | [] => []
  | yr :: rest =>
      let f := year_body yr st in f :: figures_from rest (after f)
  end.

End Year.

Definition years : list Z := py_range 1 (holding_years a + 1).

Definition calculate_investment_projections : exc (list Projection) :=
  mortgage <- monthly_mortgage ;;
  ret (year_loop mortgage years initial_state []).

Definition figures (mortgage : Qc) : list Figures :=
  figures_from mortgage years initial_state.

(** Totals over the years simulated so far. *)
Definition extra_principal_to_date (figs : list Figures) : Qc :=
  fold_right
    (fun f acc => acc + total_extra_principal_this_year (months f)) 0 figs.

Definition cash_flow_to_date (figs : list Figures) : Qc :=
  fold_right (fun f acc => acc + annual_cash_flow f) 0 figs.

(** The working balance after [k] months of the year described by [f]. *)
Definition month_balance (mortgage : Qc) (f : Figures) (k : nat) : Qc :=
  temp_balance
    (run_months mortgage (monthly_cash_flow_gross f) k
                (mkMonth (year_start_balance f) 0 0)).

(** Whether, in each of the next [n] months in which something is still
    owed, the scheduled principal (the payment less the month's
    interest) is no more than the balance. *)
Fixpoint principal_fits_from (mortgage gross : Qc) (n : nat)
    (s : MonthState) : bool :=
  match n with
  | O => true
  | S n' =>
      (negb (Qcltb 0 (temp_balance s))
       || negb (Qcltb (temp_balance s)
                      (mortgage - temp_balance s * monthly_rate)))
      && principal_fits_from mortgage gross n' (month_body mortgage gross s)
  end.

(** The same for the twelve months of the year described by [f]. *)
Definition principal_fits (mortgage : Qc) (f : Figures) : bool :=
  principal_fits_from mortgage (monthly_cash_flow_gross f) 12
    (mkMonth (year_start_balance f) 0 0).

End Simulator.

(** The ranges the calling layer enforces on the inputs that drive the
    amortization. *)
Record valid_inputs (a : Inputs) : Prop := {
  price_nonneg : 0 <= purchase_price a;
  down_payment_range : 0 <= down_payment_pct a /\ down_payment_pct a <= 1;
  rate_nonneg : 0 <= interest_rate a;
  loan_years_pos : (0 < loan_years a)%Z;
  extra_payment_nonneg : 0 <= extra_payment_monthly a;
  cashflow_share_nonneg : 0 <= cashflow_to_principal_pct a
}.

(** ** Concrete runs *)

(** Purchase at 500000 with 20 percent down, an interest-free 30-year
    loan, insurance 150, tax 1.25 percent, rent 3000, vacancy 5 percent,
    appreciation 3 percent, rent growth 2.5 percent, ten years, no
    repairs, maintenance 1 percent, no extra principal. *)
Definition ten_year_run : Inputs :=
  mkInputs (of_int 500000) (dec 20 100) 0 30 (of_int 150) (dec 125 10000)
           (of_int 3000) (dec 5 100) (dec 3 100) (dec 25 1000) 10
           0 (dec 1 100) 0 0.

(** The same purchase let at 2000 a month and held for two years. *)
Definition low_rent_run : Inputs :=
  mkInputs (of_int 500000) (dec 20 100) 0 30 (of_int 150) (dec 125 10000)
           (of_int 2000) (dec 5 100) (dec 3 100) (dec 25 1000) 2
           0 (dec 1 100) 0 0.

(** A 126000 purchase with nothing down on an interest-free 10-year loan
    (payment 1050), rent 12000, and 9400 of extra principal a month:
    600 is still owed when the second year starts. *)
Definition early_payoff_run : Inputs :=
  mkInputs (of_int 126000) 0 0 10 (of_int 150) (dec 125 10000)
           (of_int 12000) (dec 5 100) (dec 3 100) (dec 25 1000) 3
           0 (dec 1 100) (of_int 9400) 0.

(** A 100000 purchase with half down on a 4-year loan at 12 percent,
    insurance 100, tax 1.25 percent, rent 2000, vacancy 5 percent,
    appreciation 3 percent, rent growth 2 percent, held three years,
    repairs 5000, maintenance 1 percent, with 100 a month and half of
    the positive cash flow sent to principal. *)
Definition extra_principal_run : Inputs :=
  mkInputs (of_int 100000) (dec 50 100) (dec 12 100) 4 (of_int 100)
           (dec 125 10000) (of_int 2000) (dec 5 100) (dec 3 100)
           (dec 2 100) 3 (of_int 5000) (dec 1 100) (of_int 100)
           (dec 50 100).

End App.

(* ================================================================== *)
(** * Facts about the arithmetic *)
(* ================================================================== *)

Module NumFacts.
Import Num.

(** ** From [Qc] to [Q], where [lra] works *)

Lemma this_plus (x y : Qc) : (this (x + y) == this x + this y)%Q.
Proof. apply Qred_correct. Qed.

Lemma this_mult (x y : Qc) : (this (x * y) == this x * this y)%Q.
Proof. apply Qred_correct. Qed.

Lemma this_opp (x : Qc) : (this (- x) == - this x)%Q.
Proof. apply Qred_correct. Qed.

Lemma this_Q2Qc (q : Q) : (this (Q2Qc q) == q)%Q.
Proof. apply Qred_correct. Qed.

Lemma Qc_eq_this (x y : Qc) : x = y <-> (this x == this y)%Q.
Proof. split; [intros ->; reflexivity | apply Qc_is_canon]. Qed.

(** The tactic collects, for every arithmetic subterm under [this], its
    defining equation over [Q], then hands the goal to [lra]. *)
Ltac qc_learn P :=
  let T := type of P in
  lazymatch goal with
  | _ : T |- _ => fail
  | _ => pose proof P
  end.

Ltac qc_fact :=
  match goal with
  | |- context [this (Qcplus ?x ?y)] => qc_learn (this_plus x y)
  | |- context [this (Qcmult ?x ?y)] => qc_learn (this_mult x y)
  | |- context [this (Qcopp ?x)] => qc_learn (this_opp x)
  | |- context [this (Q2Qc ?q)] => qc_learn (this_Q2Qc q)
  | _ : context [this (Qcplus ?x ?y)] |- _ => qc_learn (this_plus x y)
  | _ : context [this (Qcmult ?x ?y)] |- _ => qc_learn (this_mult x y)
  | _ : context [this (Qcopp ?x)] |- _ => qc_learn (this_opp x)
  | _ : context [this (Q2Qc ?q)] |- _ => qc_learn (this_Q2Qc q)
  end.

Ltac qc2q :=
  unfold Qcdiv, Qcminus, dec, of_int in *;
  repeat match goal with
  | H : @eq Qc _ _ |- _ => apply Qc_eq_this in H
  | H : ~ @eq Qc _ _ |- _ => rewrite Qc_eq_this in H
  | |- @eq Qc _ _ => apply Qc_is_canon
  | |- ~ @eq Qc _ _ => rewrite Qc_eq_this
  end;
  unfold Qcle, Qclt in *;
  repeat qc_fact.

Ltac qc_lra := qc2q; lra.

Lemma Qcltb_true x y : Qcltb x y = true <-> x < y.
Proof.
  unfold Qcltb. destruct (Qclt_le_dec x y) as [H|H]; split; auto.
  - discriminate.
  - intros H'. exfalso. revert H. apply Qclt_not_le, H'.
Qed.

Lemma Qcltb_false x y : Qcltb x y = false <-> y <= x.
Proof.
  unfold Qcltb. destruct (Qclt_le_dec x y) as [H|H]; split; auto.
  - discriminate.
  - intros H'. exfalso. revert H'. apply Qclt_not_le, H.
Qed.

Lemma Qceqb_true x y : Qceqb x y = true <-> x = y.
Proof.
  unfold Qceqb. destruct (Qc_eq_dec x y); split; auto; discriminate.
Qed.

Lemma py_min_glb a b c : c <= a -> c <= b -> c <= py_min a b.
Proof. unfold py_min. destruct (Qcltb b a); auto. Qed.

(** Comparisons between closed numbers, by evaluation. *)
Ltac qc_compare :=
  unfold Qcle, Qclt; vm_compute; (reflexivity || discriminate).

(** ** Rounding *)

Lemma rint_floor_bounds (x : Q) :
  (Qfloor x <= rint x <= Qfloor x + 1)%Z.
Proof.
  unfold rint. destruct (Qcompare _ _); [destruct (Z.even _)| |]; lia.
Qed.

Lemma rint_comp (x y : Q) : (x == y)%Q -> rint x = rint y.
Proof.
  intros E. unfold rint. rewrite (Qfloor_comp _ _ E).
  assert (C : Qcompare (x - inject_Z (Qfloor y)) (1 # 2)
              = Qcompare (y - inject_Z (Qfloor y)) (1 # 2))
    by (apply Qcompare_comp; lra).
  rewrite C. reflexivity.
Qed.

#[global] Instance rint_Proper : Proper (Qeq ==> eq) rint.
Proof. intros x y E. apply rint_comp, E. Qed.

Ltac qcmp H :=
  first [ apply (proj2 (Qeq_alt _ _)) in H
        | apply (proj2 (Qlt_alt _ _)) in H
        | apply (proj2 (Qgt_alt _ _)) in H ].

Lemma rint_mono (x y : Q) : (x <= y)%Q -> (rint x <= rint y)%Z.
Proof.
  intros Hxy.
  pose proof (Qfloor_resp_le _ _ Hxy) as Hf.
  pose proof (rint_floor_bounds x) as Hx.
  pose proof (rint_floor_bounds y) as Hy.
  destruct (Z.eq_dec (Qfloor x) (Qfloor y)) as [E|NE]; [|lia].
  unfold rint. rewrite E.
  destruct (Qcompare (x - inject_Z (Qfloor y)) (1 # 2)) eqn:Cx;
    destruct (Qcompare (y - inject_Z (Qfloor y)) (1 # 2)) eqn:Cy;
    try (destruct (Z.even (Qfloor y))); try lia; exfalso;
    qcmp Cx; qcmp Cy; lra.
Qed.

Lemma rint_inject_Z (z : Z) : rint (inject_Z z) = z.
Proof.
  unfold rint. rewrite Qfloor_Z.
  assert (E : (inject_Z z - inject_Z z ?= 1 # 2)%Q = Lt).
  { apply (proj1 (Qlt_alt _ _)). lra. }
  rewrite E. reflexivity.
Qed.

Lemma rint_error (x : Q) :
  (x - (1 # 2) <= inject_Z (rint x) <= x + (1 # 2))%Q.
Proof.
  pose proof (Qfloor_le x) as Hlo. pose proof (Qlt_floor x) as Hhi.
  rewrite inject_Z_plus in Hhi.
  unfold rint.
  destruct (Qcompare (x - inject_Z (Qfloor x)) (1 # 2)) eqn:C;
    qcmp C;
    [destruct (Z.even (Qfloor x))| |];
    rewrite ?inject_Z_plus; change (inject_Z 1) with 1%Q in *; lra.
Qed.

Lemma this_round2 (x : Qc) :
  (this (round2 x) == inject_Z (rint (this x * 100)) * (1 # 100))%Q.
Proof. unfold round2. rewrite this_Q2Qc. reflexivity. Qed.

Lemma round2_mono (x y : Qc) : x <= y -> round2 x <= round2 y.
Proof.
  intros H. unfold Qcle in *.
  assert (Hm : (rint (this x * 100) <= rint (this y * 100))%Z)
    by (apply rint_mono; lra).
  rewrite Zle_Qle in Hm.
  pose proof (this_round2 x). pose proof (this_round2 y). lra.
Qed.

Lemma round2_0 : round2 0 = 0.
Proof. apply Qc_is_canon. reflexivity. Qed.

Lemma round2_nonneg (x : Qc) : 0 <= x -> 0 <= round2 x.
Proof. intros H. rewrite <- round2_0. apply round2_mono, H. Qed.

Lemma round2_nonpos (x : Qc) : x <= 0 -> round2 x <= 0.
Proof. intros H. rewrite <- round2_0. apply round2_mono, H. Qed.

(** Rounding moves a number by at most half a cent. *)
Lemma round2_error (x : Qc) :
  - dec 1 200 <= round2 x - x /\ round2 x - x <= dec 1 200.
Proof.
  pose proof (this_round2 x) as E.
  pose proof (rint_error (this x * 100)) as B.
  generalize dependent (inject_Z (rint (this x * 100))). intros z E B.
  split; qc_lra.
Qed.

Lemma round2_within_a_cent (x : Qc) :
  - dec 1 100 <= round2 x - x /\ round2 x - x <= dec 1 100.
Proof. destruct (round2_error x) as [Hlo Hhi]. split; qc_lra. Qed.

Lemma hundredths_scale (z : Z) : ((z # 100) * 100 == inject_Z z)%Q.
Proof. unfold Qeq. simpl. lia. Qed.

Lemma hundredths_unscale (z : Z) : (inject_Z z * (1 # 100) == z # 100)%Q.
Proof. unfold Qeq. simpl. lia. Qed.

(** A value that already has at most two decimals is left alone. *)
Lemma round2_hundredths (z : Z) :
  round2 (Q2Qc (z # 100)) = Q2Qc (z # 100).
Proof.
  apply Qc_is_canon.
  pose proof (this_round2 (Q2Qc (z # 100))) as E.
  pose proof (this_Q2Qc (z # 100)) as E1.
  assert (E2 : (this (Q2Qc (z # 100)) * 100 == inject_Z z)%Q).
  { apply Qeq_trans with ((z # 100) * 100)%Q; [|apply hundredths_scale].
    apply Qmult_comp; [exact E1 | reflexivity]. }
  rewrite (rint_comp _ _ E2), rint_inject_Z in E.
  apply Qeq_trans with (1 := E).
  apply Qeq_trans with (1 := hundredths_unscale z).
  apply Qeq_sym, E1.
Qed.

(** Rounding a difference and subtracting two rounded values differ by
    at most one cent. *)
Lemma round2_sub_error (x y : Qc) :
  (- (1 # 100)
   <= this (round2 (x - y)) - (this (round2 x) - this (round2 y))
   <= 1 # 100)%Q.
Proof.
  pose proof (this_round2 (x - y)) as Ed.
  pose proof (this_round2 x) as Ex.
  pose proof (this_round2 y) as Ey.
  pose proof (rint_error (this (x - y) * 100)) as Bd.
  pose proof (rint_error (this x * 100)) as Bx.
  pose proof (rint_error (this y * 100)) as By.
  assert (Exy : (this (x - y) == this x - this y)%Q).
  { unfold Qcminus. pose proof (this_plus x (- y)). pose proof (this_opp y).
    lra. }
  set (zd := rint (this (x - y) * 100)) in *.
  set (zx := rint (this x * 100)) in *.
  set (zy := rint (this y * 100)) in *.
  clearbody zd zx zy.
  assert (Hz : (-1 <= zd + - zx + zy <= 1)%Z).
  { assert (Hq : (inject_Z (-2) < inject_Z (zd + - zx + zy)
                   /\ inject_Z (zd + - zx + zy) < inject_Z 2)%Q).
    { rewrite !inject_Z_plus, inject_Z_opp.
      change (inject_Z (-2)) with (-2)%Q. change (inject_Z 2) with 2%Q.
      generalize dependent (inject_Z zd). generalize dependent (inject_Z zx).
      generalize dependent (inject_Z zy). intros. split; lra. }
    rewrite <- !Zlt_Qlt in Hq. lia. }
  assert (Hq : (inject_Z (-1) <= inject_Z (zd + - zx + zy)
                /\ inject_Z (zd + - zx + zy) <= inject_Z 1)%Q)
    by (rewrite <- !Zle_Qle; exact Hz).
  rewrite !inject_Z_plus, inject_Z_opp in Hq.
  change (inject_Z (-1)) with (-1)%Q in Hq. change (inject_Z 1) with 1%Q in Hq.
  generalize dependent (inject_Z zd). generalize dependent (inject_Z zx).
  generalize dependent (inject_Z zy). intros. lra.
Qed.

(** ** Powers *)

Lemma Qcmult_nonneg (x y : Qc) : 0 <= x -> 0 <= y -> 0 <= x * y.
Proof.
  intros Hx Hy. rewrite <- (Qcmult_0_l y).
  apply Qcmult_le_compat_r; assumption.
Qed.

Lemma Qcpower_ge_1 (x : Qc) (n : nat) : 1 <= x -> 1 <= x ^ n.
Proof.
  intros Hx. induction n as [|n IH]; simpl.
  - apply Qcle_refl.
  - apply Qcle_trans with (1 * x ^ n).
    + rewrite Qcmult_1_l. exact IH.
    + apply Qcmult_le_compat_r; [exact Hx|].
      apply Qcle_trans with 1; [|exact IH]. qc_lra.
Qed.

Lemma Qcpower_gt_1 (x : Qc) (n : nat) : 1 < x -> (0 < n)%nat -> 1 < x ^ n.
Proof.
  intros Hx Hn. destruct n as [|n]; [lia|]. simpl.
  apply Qclt_le_trans with (x * 1).
  - rewrite Qcmult_1_r. exact Hx.
  - rewrite (Qcmult_comm x 1), (Qcmult_comm x (x ^ n)).
    apply Qcmult_le_compat_r.
    + apply Qcpower_ge_1, Qclt_le_weak, Hx.
    + apply Qcle_trans with 1; [qc_lra | apply Qclt_le_weak, Hx].
Qed.

Lemma Qcdiv_le_iff (x y d : Qc) : 0 < d -> (x <= y / d <-> x * d <= y).
Proof.
  intros Hd.
  assert (Hne : d <> 0) by (intros ->; revert Hd; apply Qcle_not_lt, Qcle_refl).
  assert (E : y / d * d = y) by (field; exact Hne).
  split; intros H.
  - rewrite <- E. apply Qcmult_le_compat_r; [exact H | apply Qclt_le_weak, Hd].
  - apply Qcmult_lt_0_le_reg_r with d; [exact Hd | rewrite E; exact H].
Qed.

Lemma twelfth_nonneg : 0 <= / of_int 12.
Proof. unfold Qcle. vm_compute. discriminate. Qed.

Lemma Qc_list_eqb_eq (l1 l2 : list Qc) : Qc_list_eqb l1 l2 = true -> l1 = l2.
Proof.
  revert l2. induction l1 as [|x l1 IH]; intros [|y l2] H; simpl in H;
    try discriminate; [reflexivity|].
  apply andb_true_iff in H as [Hx Hl]. apply Qceqb_true in Hx.
  rewrite Hx, (IH _ Hl). reflexivity.
Qed.

Lemma dec_pred_hundredth (z : Z) : dec z 100 - dec 1 100 = dec (z - 1) 100.
Proof.
  unfold dec. apply Qc_is_canon.
  assert (E : ((z # 100) + - (1 # 100) == (z - 1) # 100)%Q)
    by (unfold Qeq; simpl; lia).
  unfold Qcminus.
  pose proof (this_plus (Q2Qc (z # 100)) (- Q2Qc (1 # 100))) as E1.
  pose proof (this_opp (Q2Qc (1 # 100))) as E2.
  pose proof (this_Q2Qc (z # 100)) as E3.
  pose proof (this_Q2Qc (1 # 100)) as E4.
  pose proof (this_Q2Qc ((z - 1) # 100)) as E5.
  generalize dependent ((z - 1) # 100)%Q. generalize dependent (z # 100)%Q.
  intros. lra.
Qed.

Lemma of_int_pos (z : Z) : (0 < z)%Z -> 0 < of_int z.
Proof.
  intros H. unfold of_int, Qclt. pose proof (this_Q2Qc (inject_Z z)) as E.
  pose proof (this_Q2Qc 0) as E0.
  assert (Hq : (inject_Z 0 < inject_Z z)%Q) by (rewrite <- Zlt_Qlt; exact H).
  change (inject_Z 0) with 0%Q in Hq.
  generalize dependent (inject_Z z). intros q E Hq. lra.
Qed.

End NumFacts.

Module PyFacts.
Import Num NumFacts Py.

Lemma bind_inr {A B : Type} (m : exc A) (k : A -> exc B) (b : B) :
  bind m k = inr b -> exists a, m = inr a /\ k a = inr b.
Proof. destruct m as [e|a]; simpl; [discriminate | eauto]. Qed.

Lemma np_leb_trans (a b c : npfloat) :
  np_leb a b = true -> np_leb b c = true -> np_leb a c = true.
Proof.
  destruct a as [x| | |], b as [y| | |], c as [z| | |]; simpl;
    try discriminate; try reflexivity.
  rewrite !negb_true_iff, !Qcltb_false. apply Qcle_trans.
Qed.

Lemma np_leb_total (a b : npfloat) :
  is_nan a = false -> is_nan b = false ->
  np_leb a b = true \/ np_leb b a = true.
Proof.
  destruct a as [x| | |], b as [y| | |]; simpl; try discriminate; auto.
  intros _ _. rewrite !negb_true_iff, !Qcltb_false.
  destruct (Qclt_le_dec x y) as [H|H]; [left; apply Qclt_le_weak, H | auto].
Qed.

Lemma np_gtb_not_leb (a b : npfloat) :
  np_gtb a b = true -> np_leb a b = false.
Proof.
  unfold np_gtb.
  destruct a as [x| | |], b as [y| | |]; simpl; try discriminate; auto.
  intros ->. reflexivity.
Qed.

Lemma py_pow_nonneg_exponent (x : Qc) (n : Z) :
  (0 <= n)%Z -> py_pow x n = inr (x ^ Z.to_nat n).
Proof. destruct n; try lia; reflexivity. Qed.

Lemma py_pow_pos_exponent (x : Qc) (n : Z) :
  (0 < n)%Z -> py_pow x n = inr (x ^ Z.to_nat n).
Proof. intros H. apply py_pow_nonneg_exponent. lia. Qed.

End PyFacts.

(* ================================================================== *)
(** * Two sorts that meet the quicksort contract *)
(* ================================================================== *)

Module Sorts.
Import Num NumFacts Py PyFacts Frame.

Section Insertion.
Variable before : npfloat -> npfloat -> bool.
Hypothesis before_le : forall a b, before a b = true -> np_leb a b = true.
Hypothesis before_ge : forall a b,
  is_nan a = false -> is_nan b = false ->
  before a b = false -> np_leb b a = true.

Variable key : Row -> npfloat.

Fixpoint insert (x : Row) (l : list Row) : list Row :=
  match l with
  | [] => [x]
  | y :: l' => if before (key x) (key y) then x :: y :: l'
               else y :: insert x l'
  end.

Definition insertion_sort (l : list Row) : list Row :=
  fold_right insert [] l.

Lemma insert_perm x l : Permutation (x :: l) (insert x l).
Proof.
  induction l as [|y l IH]; simpl; [reflexivity|].
  destruct (before (key x) (key y)); [reflexivity|].
  rewrite perm_swap. constructor. exact IH.
Qed.

Lemma insertion_sort_perm l : Permutation l (insertion_sort l).
Proof.
  induction l as [|x l IH]; simpl; [constructor|].
  rewrite <- insert_perm. constructor. exact IH.
Qed.

Let le_key (a b : Row) : Prop := np_leb (key a) (key b) = true.
Let finite_key (r : Row) : Prop := is_nan (key r) = false.

Lemma insert_sorted x l :
  finite_key x -> Forall finite_key l ->
  StronglySorted le_key l -> StronglySorted le_key (insert x l).
Proof.
  intros Hx Hl Hs. induction Hs as [|y l Hs IH Hy]; simpl.
  - repeat constructor.
  - inversion Hl as [|? ? Hfy Hfl]; subst.
    destruct (before (key x) (key y)) eqn:E.
    + apply before_le in E. constructor; [constructor; assumption|].
      constructor; [exact E|].
      apply Forall_impl with (2 := Hy). intros z Hz.
      unfold le_key in *. eapply np_leb_trans; eassumption.
    + constructor; [apply IH, Hfl|].
      apply (Permutation_Forall (insert_perm x l)).
      constructor; [|exact Hy].
      apply before_ge; assumption.
Qed.

Lemma insertion_sort_sorted l :
  Forall finite_key l -> StronglySorted le_key (insertion_sort l).
Proof.
  induction l as [|x l IH]; simpl; intros Hl; [constructor|].
  inversion Hl; subst. apply insert_sorted; auto.
  apply (Permutation_Forall (insertion_sort_perm l)). assumption.
Qed.

End Insertion.

Lemma np_leb_false_leb a b :
  is_nan a = false -> is_nan b = false ->
  np_leb a b = false -> np_leb b a = true.
Proof.
  intros Ha Hb H. destruct (np_leb_total a b Ha Hb) as [E|E]; congruence.
Qed.

(** An insertion sort, one sort that meets the contract.  It is used to
    run the calculators on concrete tables whose sort keys are distinct,
    where every sort that meets the contract returns the same order. *)
#[local] Instance stable_sort : Quicksort := {|
  np_quicksort := insertion_sort np_leb;
  np_quicksort_perm := insertion_sort_perm np_leb;
  np_quicksort_sorted :=
    insertion_sort_sorted np_leb (fun a b H => H) np_leb_false_leb
|}.

End Sorts.

(* ================================================================== *)
(** * Properties of the cash-flow calculator *)
(* ================================================================== *)

Module AnalysisFacts.
Import Num NumFacts Py PyFacts Frame Analysis.

(** ** Lists *)

Lemma filter_partition {A : Type} (f : A -> bool) (l : list A) :
  Permutation l (filter (fun x => negb (f x)) l ++ filter f l).
Proof.
  induction l as [|x l IH]; simpl; [constructor|].
  destruct (f x); simpl.
  - apply Permutation_cons_app, IH.
  - constructor. exact IH.
Qed.

Lemma StronglySorted_snoc {A : Type} (R : A -> A -> Prop) (l : list A) x :
  StronglySorted R l -> Forall (fun y => R y x) l ->
  StronglySorted R (l ++ [x]).
Proof.
  induction 1 as [|y l Hs IH Hy]; simpl; intros Hx.
  - repeat constructor.
  - inversion Hx; subst. constructor; [apply IH; assumption|].
    apply Forall_app. split; [exact Hy | repeat constructor; assumption].
Qed.

Lemma StronglySorted_rev {A : Type} (R : A -> A -> Prop) (l : list A) :
  StronglySorted R l -> StronglySorted (fun a b => R b a) (rev l).
Proof.
  induction 1 as [|x l Hs IH Hx]; simpl; [constructor|].
  apply StronglySorted_snoc; [exact IH|].
  apply Forall_rev. exact Hx.
Qed.

Lemma StronglySorted_nth {A : Type} (R : A -> A -> Prop) (l : list A) :
  StronglySorted R l ->
  forall i j a b, (i < j)%nat ->
    nth_error l i = Some a -> nth_error l j = Some b -> R a b.
Proof.
  induction 1 as [|x l Hs IH Hx]; intros i j a b Hij Ha Hb.
  - destruct i; discriminate.
  - destruct j as [|j]; [lia|]. simpl in Hb.
    destruct i as [|i]; simpl in Ha.
    + injection Ha as <-. rewrite Forall_forall in Hx.
      apply Hx. eapply nth_error_In; eassumption.
    + apply (IH i j); [lia | assumption | assumption].
Qed.

(** ** Columns *)

Lemma has_column_add_label label l cols :
  existsb (String.eqb label) (add_label l cols)
  = existsb (String.eqb label) cols || String.eqb label l.
Proof.
  unfold add_label. destruct (existsb (String.eqb l) cols) eqn:E.
  - destruct (String.eqb label l) eqn:El; [|rewrite orb_false_r; reflexivity].
    apply String.eqb_eq in El. subst l. rewrite E. reflexivity.
  - rewrite existsb_app. simpl. rewrite orb_false_r. reflexivity.
Qed.

Lemma has_column_assign label l f df :
  has_column (assign l f df) label
  = has_column df label || String.eqb label l.
Proof. apply has_column_add_label. Qed.

Lemma getitem_inr df label u :
  getitem df label = inr u -> has_column df label = true.
Proof. unfold getitem. destruct (has_column df label); [auto | discriminate]. Qed.

Lemma getitem_has df label :
  has_column df label = true -> getitem df label = inr tt.
Proof. unfold getitem. intros ->. reflexivity. Qed.

(** ** Sorting one row, and sorting in general *)

Section Sorting.
Context `{QS : Quicksort}.
Variable key : Row -> npfloat.

Lemma np_quicksort_nil : np_quicksort key [] = [].
Proof. apply Permutation_nil, np_quicksort_perm. Qed.

Lemma np_quicksort_single r : np_quicksort key [r] = [r].
Proof. apply Permutation_length_1_inv, np_quicksort_perm. Qed.

Lemma sort_values_desc_single cols r :
  sort_values_desc key (mkFrame cols [r]) = mkFrame cols [r].
Proof.
  unfold sort_values_desc. cbn [rows columns filter].
  destruct (is_nan (key r)); cbn [negb rev app].
  - rewrite np_quicksort_nil. reflexivity.
  - rewrite np_quicksort_single. reflexivity.
Qed.

Lemma sort_values_desc_perm df :
  Permutation (rows df) (rows (sort_values_desc key df)).
Proof.
  unfold sort_values_desc. cbn [rows].
  rewrite (filter_partition (fun r => is_nan (key r)) (rows df)) at 1.
  apply Permutation_app_tail.
  rewrite <- Permutation_rev, <- np_quicksort_perm, <- Permutation_rev.
  reflexivity.
Qed.

(** Descending order: a row with a strictly greater key comes first. *)
Lemma sort_values_desc_order df i j r1 r2 :
  nth_error (rows (sort_values_desc key df)) i = Some r1 ->
  nth_error (rows (sort_values_desc key df)) j = Some r2 ->
  np_gtb (key r1) (key r2) = true ->
  (i < j)%nat.
Proof.
  unfold sort_values_desc. cbn [rows].
  set (non_nans := filter (fun r => negb (is_nan (key r))) (rows df)).
  set (nans := filter (fun r => is_nan (key r)) (rows df)).
  set (sorted := rev (np_quicksort key (rev non_nans))).
  intros H1 H2 Hgt.
  assert (Hfin : Forall (fun r => is_nan (key r) = false) (rev non_nans)).
  { apply Forall_rev. apply Forall_forall. intros r Hr.
    apply filter_In in Hr as [_ Hr]. apply negb_true_iff in Hr. exact Hr. }
  assert (Hsorted : StronglySorted
                      (fun x y => np_leb (key y) (key x) = true) sorted).
  { apply (StronglySorted_rev
             (fun x y => np_leb (key x) (key y) = true)).
    apply np_quicksort_sorted, Hfin. }
  assert (Hnan : forall k r, nth_error nans k = Some r -> key r = NaN).
  { intros k r Hr. apply nth_error_In in Hr.
    apply filter_In in Hr as [_ Hr]. destruct (key r); try discriminate.
    reflexivity. }
  assert (G1 : key r1 <> NaN /\ key r2 <> NaN).
  { unfold np_gtb in Hgt. destruct (key r1), (key r2); simpl in Hgt;
      try discriminate; split; discriminate. }
  destruct G1 as [N1 N2].
  assert (In1 : (i < List.length sorted)%nat).
  { destruct (Nat.lt_ge_cases i (List.length sorted)) as [L|L]; [exact L|].
    rewrite nth_error_app2 in H1 by exact L. apply Hnan in H1. contradiction. }
  assert (In2 : (j < List.length sorted)%nat).
  { destruct (Nat.lt_ge_cases j (List.length sorted)) as [L|L]; [exact L|].
    rewrite nth_error_app2 in H2 by exact L. apply Hnan in H2. contradiction. }
  rewrite nth_error_app1 in H1 by exact In1.
  rewrite nth_error_app1 in H2 by exact In2.
  apply np_gtb_not_leb in Hgt.
  destruct (Nat.lt_trichotomy i j) as [L|[E|L]]; [exact L| |].
  - subst j. rewrite H1 in H2. injection H2 as <-.
    destruct (np_leb_total (key r1) (key r1)) as [T|T];
      try (destruct (key r1); [reflexivity..|contradiction]);
      congruence.
  - pose proof (StronglySorted_nth _ _ Hsorted j i r2 r1 L H2 H1) as T.
    simpl in T. congruence.
Qed.

(** Rows whose key is missing come after all the others. *)
Lemma sort_values_desc_nan_last df i j r1 r2 :
  nth_error (rows (sort_values_desc key df)) i = Some r1 ->
  nth_error (rows (sort_values_desc key df)) j = Some r2 ->
  is_nan (key r1) = true -> is_nan (key r2) = false ->
  (j < i)%nat.
Proof.
  unfold sort_values_desc. cbn [rows].
  set (non_nans := filter (fun r => negb (is_nan (key r))) (rows df)).
  set (nans := filter (fun r => is_nan (key r)) (rows df)).
  set (sorted := rev (np_quicksort key (rev non_nans))).
  intros H1 H2 N1 N2.
  assert (Hsorted : forall k r, nth_error sorted k = Some r ->
                                is_nan (key r) = false).
  { intros k r Hr. apply nth_error_In in Hr. unfold sorted in Hr.
    apply in_rev in Hr.
    apply (Permutation_in _ (Permutation_sym (np_quicksort_perm key _)))
      in Hr.
    apply in_rev in Hr. apply filter_In in Hr as [_ Hr].
    apply negb_true_iff in Hr. exact Hr. }
  assert (Hnan : forall k r, nth_error nans k = Some r ->
                             is_nan (key r) = true).
  { intros k r Hr. apply nth_error_In in Hr.
    apply filter_In in Hr as [_ Hr]. exact Hr. }
  destruct (Nat.lt_ge_cases i (List.length sorted)) as [Li|Li].
  { rewrite nth_error_app1 in H1 by exact Li. apply Hsorted in H1.
    congruence. }
  destruct (Nat.lt_ge_cases j (List.length sorted)) as [Lj|Lj]; [lia|].
  rewrite nth_error_app2 in H2 by exact Lj. apply Hnan in H2. congruence.
Qed.

End Sorting.

(** ** The cash-flow calculator as a map followed by a sort *)

Section CashFlow.
Context `{QS : Quicksort}.

Lemma assign_three df lv mr pn pd ins :
  assign "MonthlyCashFlow"
    (fun r => set_MonthlyCashFlow (monthly_cash_flow_cell ins r) r)
    (assign "MonthlyMortgage"
       (fun r => set_MonthlyMortgage (monthly_mortgage_cell lv mr pn pd r) r)
       (assign "PropertyTax"
          (fun r => set_PropertyTax (property_tax_cell r) r) df))
  = mkFrame (cash_flow_columns (columns df))
            (map (cash_flow_row lv mr pn pd ins) (rows df)).
Proof.
  unfold assign, cash_flow_columns. cbn [columns rows].
  rewrite !map_map. reflexivity.
Qed.

Lemma calculate_monthly_cash_flow_inr df i n ins dp out :
  calculate_monthly_cash_flow df i n ins dp = inr out ->
  has_column df "Price" = true
  /\ has_column df "RentEstimate" = true
  /\ exists p,
      py_pow (1 + i / of_int 12) n = inr p
      /\ out = sort_values_desc MonthlyCashFlow
                 (mkFrame (cash_flow_columns (columns df))
                    (map (cash_flow_row (1 - dp) (i / of_int 12) p p ins)
                         (rows df))).
Proof.
  unfold calculate_monthly_cash_flow. intros H.
  apply bind_inr in H as (u & Hprice & H). apply getitem_inr in Hprice.
  apply bind_inr in H as (p & Hp & H).
  rewrite Hp in H. cbn [bind] in H.
  apply bind_inr in H as (u' & Hrent & H). apply getitem_inr in Hrent.
  rewrite !has_column_assign in Hrent. cbn [String.eqb Ascii.eqb Bool.eqb]
    in Hrent. rewrite !orb_false_r in Hrent.
  split; [exact Hprice|]. split; [exact Hrent|].
  exists p. split; [exact Hp|].
  unfold ret in H. injection H as <-. rewrite assign_three. reflexivity.
Qed.

Lemma calculate_monthly_cash_flow_eq df i n ins dp p :
  has_column df "Price" = true ->
  has_column df "RentEstimate" = true ->
  py_pow (1 + i / of_int 12) n = inr p ->
  calculate_monthly_cash_flow df i n ins dp
  = inr (sort_values_desc MonthlyCashFlow
           (mkFrame (cash_flow_columns (columns df))
              (map (cash_flow_row (1 - dp) (i / of_int 12) p p ins)
                   (rows df)))).
Proof.
  intros Hprice Hrent Hp. unfold calculate_monthly_cash_flow.
  rewrite (getitem_has _ _ Hprice). cbn [bind].
  rewrite Hp. cbn [bind].
  rewrite getitem_has.
  - cbn [bind]. rewrite assign_three. reflexivity.
  - rewrite !has_column_assign, Hrent. reflexivity.
Qed.

(** X29.  The output holds exactly the input records, each with its
    three derived cells, in descending order of [MonthlyCashFlow]: a
    record with a strictly greater cash flow comes before one with a
    smaller cash flow, and records whose cash flow is [NaN] come last.
    This holds for every sort that meets the contract; the order of
    records with equal cash flow is left to the sort. *)
Theorem cash_flow_output_descending df i n ins dp out :
  calculate_monthly_cash_flow df i n ins dp = inr out ->
  (exists p,
     py_pow (1 + i / of_int 12) n = inr p
     /\ Permutation
          (map (cash_flow_row (1 - dp) (i / of_int 12) p p ins) (rows df))
          (rows out))
  /\ forall k l r1 r2,
       nth_error (rows out) k = Some r1 ->
       nth_error (rows out) l = Some r2 ->
       (np_gtb (MonthlyCashFlow r1) (MonthlyCashFlow r2) = true ->
        (k < l)%nat)
       /\ (is_nan (MonthlyCashFlow r1) = false ->
           is_nan (MonthlyCashFlow r2) = true -> (k < l)%nat).
Proof.
  intros H.
  apply calculate_monthly_cash_flow_inr in H as (_ & _ & p & Hp & ->).
  split.
  - exists p. split; [exact Hp|].
    apply (sort_values_desc_perm MonthlyCashFlow
             (mkFrame _ (map _ (rows df)))).
  - intros k l r1 r2 H1 H2. split.
    + apply (sort_values_desc_order _ _ _ _ _ _ H1 H2).
    + intros N1 N2. apply (sort_values_desc_nan_last _ _ _ _ _ _ H2 H1 N2 N1).
Qed.

(** With a zero rate the numerator and the denominator of the payment
    formula are both zero, so every mortgage cell is [NaN], and with it
    every cash-flow cell. *)
Lemma zero_rate_row lv n ins r p :
  py_pow (1 + 0 / of_int 12) n = inr p ->
  MonthlyMortgage (cash_flow_row lv (0 / of_int 12) p p ins r) = NaN
  /\ MonthlyCashFlow (cash_flow_row lv (0 / of_int 12) p p ins r) = NaN.
Proof.
  intros Hp.
  assert (E1 : 1 + 0 / of_int 12 = 1) by (apply Qc_is_canon; reflexivity).
  assert (E0 : 0 / of_int 12 = 0) by (apply Qc_is_canon; reflexivity).
  rewrite E1 in Hp. rewrite E0.
  assert (Ep : p = 1).
  { destruct n as [|q|q]; simpl in Hp.
    - injection Hp as <-. reflexivity.
    - injection Hp as <-. apply Qcpower_1.
    - replace (Qceqb 1 0) with false in Hp by reflexivity.
      injection Hp as <-. rewrite Qcpower_1. apply Qc_is_canon. reflexivity. }
  subst p.
  assert (Em : forall r', monthly_mortgage_cell lv 0 1 1 r' = NaN).
  { intros r'. unfold monthly_mortgage_cell, np_div.
    replace (1 - 1) with 0 by ring.
    replace (lv * Price r' * (0 * 1)) with 0 by ring.
    reflexivity. }
  unfold cash_flow_row. cbv zeta.
  cbn [MonthlyMortgage MonthlyCashFlow set_MonthlyCashFlow
       set_MonthlyMortgage].
  rewrite Em. split; [reflexivity|].
  unfold monthly_cash_flow_cell.
  cbn [MonthlyMortgage PropertyTax RentEstimate set_MonthlyMortgage
       set_PropertyTax].
  unfold property_tax_cell. reflexivity.
Qed.

Lemma zero_rate_cash_flow_is_nan df n ins dp out :
  calculate_monthly_cash_flow df 0 n ins dp = inr out ->
  Forall (fun r => MonthlyMortgage r = NaN /\ MonthlyCashFlow r = NaN)
         (rows out).
Proof.
  intros H.
  apply calculate_monthly_cash_flow_inr in H as (_ & _ & p & Hp & ->).
  eapply Permutation_Forall;
    [apply (sort_values_desc_perm MonthlyCashFlow)|].
  cbn [rows]. apply Forall_forall. intros r Hr.
  apply in_map_iff in Hr as (r0 & <- & _).
  apply (zero_rate_row _ n); exact Hp.
Qed.

End CashFlow.

(** ** The break-even search, record by record *)

Lemma find_first {A : Type} (f : A -> bool) (l : list A) (x : A) :
  find f l = Some x ->
  exists k, nth_error l k = Some x /\ f x = true
            /\ forall j y, (j < k)%nat -> nth_error l j = Some y ->
                           f y = false.
Proof.
  induction l as [|a l IH]; simpl; [discriminate|].
  destruct (f a) eqn:E.
  - intros H. injection H as <-. exists O. split; [reflexivity|].
    split; [exact E|]. intros j y Hj. lia.
  - intros H. destruct (IH H) as (k & Hk & Hx & Hbefore).
    exists (S k). split; [exact Hk|]. split; [exact Hx|].
    intros [|j] y Hj Hy; simpl in Hy.
    + injection Hy as <-. exact E.
    + apply (Hbefore j); [lia | exact Hy].
Qed.

Lemma collect_In {A B : Type} (f : A -> option B) (l : list A) (y : B) :
  In y (collect f l) -> exists x, In x l /\ f x = Some y.
Proof.
  induction l as [|x l IH]; simpl; [contradiction|].
  destruct (f x) as [z|] eqn:E.
  - intros [<-|H]; [eauto|]. destruct (IH H) as (x' & ? & ?); eauto.
  - intros H. destruct (IH H) as (x' & ? & ?); eauto.
Qed.

Section BreakEven.
Context `{QS : Quicksort}.
Variables (interest_rate : Qc) (loan_months : Z) (monthly_insurance : Qc).

Let pow : exc Qc := py_pow (1 + interest_rate / of_int 12) loan_months.

Lemma growth_eq p : pow = inr p -> growth interest_rate loan_months = p.
Proof. unfold pow, growth. intros ->. reflexivity. Qed.

Lemma calculate_single_inr cols row f out :
  calculate_monthly_cash_flow (mkFrame cols [row]) interest_rate loan_months
    monthly_insurance f = inr out ->
  (has_column (mkFrame cols [row]) "Price" = true
   /\ has_column (mkFrame cols [row]) "RentEstimate" = true
   /\ exists p, pow = inr p)
  /\ out = mkFrame (cash_flow_columns cols)
                   [recomputed interest_rate loan_months monthly_insurance
                               row f].
Proof.
  intros H.
  apply calculate_monthly_cash_flow_inr in H as (Hp & Hr & p & Hpow & ->).
  split; [split; [exact Hp | split; [exact Hr | exists p; exact Hpow]]|].
  cbn [rows columns map]. rewrite sort_values_desc_single.
  unfold recomputed. rewrite (growth_eq p Hpow). reflexivity.
Qed.

Lemma calculate_single_eq cols row f p :
  has_column (mkFrame cols [row]) "Price" = true ->
  has_column (mkFrame cols [row]) "RentEstimate" = true ->
  pow = inr p ->
  calculate_monthly_cash_flow (mkFrame cols [row]) interest_rate loan_months
    monthly_insurance f
  = inr (mkFrame (cash_flow_columns cols)
                 [recomputed interest_rate loan_months monthly_insurance
                             row f]).
Proof.
  intros Hp Hr Hpow.
  rewrite (calculate_monthly_cash_flow_eq _ _ _ _ _ p Hp Hr Hpow).
  cbn [rows columns map]. rewrite sort_values_desc_single.
  unfold recomputed. rewrite (growth_eq p Hpow). reflexivity.
Qed.

Let found (cols : list string) (row : Row) (cands : list Qc)
  : option (DataFrame * Qc) :=
  match find (positive_at interest_rate loan_months monthly_insurance row)
             cands with
  | Some f =>
      Some (mkFrame (cash_flow_columns cols)
                    [recomputed interest_rate loan_months monthly_insurance
                                row f],
            round2 f)
  | None => None
  end.

Lemma scan_inr cols row cands res :
  scan interest_rate loan_months monthly_insurance (mkFrame cols [row]) cands
  = inr res ->
  res = found cols row cands
  /\ (cands <> [] ->
      has_column (mkFrame cols [row]) "Price" = true
      /\ has_column (mkFrame cols [row]) "RentEstimate" = true
      /\ exists p, pow = inr p).
Proof.
  revert res. induction cands as [|f cands IH]; intros res H.
  - simpl in H. injection H as <-. split; [reflexivity | congruence].
  - cbn [scan] in H. apply bind_inr in H as (test_df & Hcalc & H).
    apply calculate_single_inr in Hcalc as (Hok & ->).
    split; [|intros _; exact Hok].
    cbn [rows map iloc0 bind ret] in H.
    unfold found. cbn [find]. unfold positive_at at 1.
    destruct (np_gtb (MonthlyCashFlow
                (recomputed interest_rate loan_months monthly_insurance
                            row f)) (Fin 0)).
    + injection H as <-. reflexivity.
    + apply IH in H as [-> _]. reflexivity.
Qed.

Lemma scan_eq cols row cands p :
  has_column (mkFrame cols [row]) "Price" = true ->
  has_column (mkFrame cols [row]) "RentEstimate" = true ->
  pow = inr p ->
  scan interest_rate loan_months monthly_insurance (mkFrame cols [row]) cands
  = inr (found cols row cands).
Proof.
  intros Hp Hr Hpow. induction cands as [|f cands IH]; [reflexivity|].
  cbn [scan]. rewrite (calculate_single_eq _ _ _ p Hp Hr Hpow).
  cbn [bind rows map iloc0 ret].
  unfold found. cbn [find]. unfold positive_at at 1.
  destruct (np_gtb (MonthlyCashFlow
              (recomputed interest_rate loan_months monthly_insurance
                          row f)) (Fin 0)); [reflexivity|].
  rewrite IH. reflexivity.
Qed.

(** One pass through the loop body adds the record's outcome, if any. *)
Lemma loop_body_inr df acc row acc' :
  loop_body interest_rate loan_months monthly_insurance df acc row = inr acc' ->
  match outcome_row interest_rate loan_months monthly_insurance row with
  | Some (r, pct) =>
      rows (fst acc') = rows (fst acc) ++ [r] /\ snd acc' = snd acc ++ [pct]
  | None => acc' = acc
  end.
Proof.
  unfold loop_body, outcome_row. intros H.
  apply bind_inr in H as (u & _ & H).
  destruct (np_gtb (MonthlyCashFlow row) (Fin 0)).
  - injection H as <-. split; reflexivity.
  - apply bind_inr in H as (res & Hscan & H).
    apply scan_inr in Hscan as [-> _]. unfold found in H.
    destruct (find _ candidates) as [f|].
    + injection H as <-. split; reflexivity.
    + injection H as <-. reflexivity.
Qed.

Lemma iterrows_inr df todo acc acc' :
  iterrows interest_rate loan_months monthly_insurance df todo acc = inr acc' ->
  let kept :=
    collect (outcome_row interest_rate loan_months monthly_insurance) todo in
  rows (fst acc') = rows (fst acc) ++ map fst kept
  /\ snd acc' = snd acc ++ map snd kept.
Proof.
  revert acc. induction todo as [|row todo IH]; intros acc H; cbv zeta.
  - simpl in H. injection H as <-. simpl. rewrite !app_nil_r. split; reflexivity.
  - cbn [iterrows] in H. apply bind_inr in H as (acc1 & Hbody & H).
    apply loop_body_inr in Hbody. apply IH in H. cbv zeta in H.
    destruct H as [Hr Hs]. cbn [collect].
    destruct (outcome_row interest_rate loan_months monthly_insurance row)
      as [[r pct]|].
    + destruct Hbody as [Br Bs]. rewrite Hr, Hs, Br, Bs.
      cbn [map fst snd]. rewrite <- !app_assoc. split; reflexivity.
    + subst acc1. split; assumption.
Qed.

(** The rows of the result, in input order. *)
Lemma break_even_rows df out :
  calculate_break_even_down_payment interest_rate loan_months
    monthly_insurance df = inr out ->
  rows out
  = collect (break_even_row interest_rate loan_months monthly_insurance)
            (rows df).
Proof.
  unfold calculate_break_even_down_payment. intros H.
  apply bind_inr in H as (acc & Hit & H).
  apply iterrows_inr in Hit. cbv zeta in Hit. destruct Hit as [Hr Hs].
  cbn [empty_frame rows fst snd app] in Hr, Hs.
  apply bind_inr in H as (result_df & Hassign & H).
  apply bind_inr in H as (u & _ & H). injection H as <-.
  unfold assign_list in Hassign.
  destruct (Nat.eqb _ _); [|discriminate]. injection Hassign as <-.
  unfold assign. cbn [rows]. rewrite Hr, Hs, map_map.
  generalize (rows df). intros l.
  unfold break_even_row.
  induction l as [|row l IH]; cbn [collect map combine]; [reflexivity|].
  destruct (outcome_row interest_rate loan_months monthly_insurance row)
    as [[r pct]|]; cbn [map combine fst snd]; [|exact IH].
  rewrite IH. reflexivity.
Qed.

Lemma candidates_enum :
  candidates = map (fun k => dec (20 + Z.of_nat k) 100) (seq 0 80).
Proof. apply Qc_list_eqb_eq. vm_compute. reflexivity. Qed.

Lemma candidates_nth k :
  (k < 80)%nat -> nth_error candidates k = Some (dec (20 + Z.of_nat k) 100).
Proof.
  intros Hk. rewrite candidates_enum, nth_error_map.
  rewrite (nth_error_nth' _ O) by (rewrite length_seq; exact Hk).
  rewrite seq_nth by exact Hk. reflexivity.
Qed.

Lemma candidates_nth_inv k f :
  nth_error candidates k = Some f ->
  (k < 80)%nat /\ f = dec (20 + Z.of_nat k) 100.
Proof.
  intros H.
  assert (Hk : (k < 80)%nat).
  { assert (L : List.length candidates = 80%nat)
      by (rewrite candidates_enum, length_map, length_seq; reflexivity).
    rewrite <- L. apply nth_error_Some. congruence. }
  split; [exact Hk|]. rewrite (candidates_nth k Hk) in H. congruence.
Qed.

Lemma round2_candidate k :
  round2 (dec (20 + Z.of_nat k) 100) = dec (20 + Z.of_nat k) 100.
Proof. apply round2_hundredths. Qed.

(** C4.  The candidates are 0.20, 0.21, ..., 0.99.  A record whose
    cash flow is already positive is reported at exactly 0.20, unchanged.
    Any other record is reported at the first candidate, in increasing
    order, whose recomputed cash flow is positive, or dropped when there
    is none; every earlier candidate gives a non-positive cash flow, in
    particular the reported fraction minus 0.01 whenever the cash flow at
    20 percent is not positive. *)
Theorem break_even_reports_first_positive_fraction df out :
  calculate_break_even_down_payment interest_rate loan_months
    monthly_insurance df = inr out ->
  let reported :=
    break_even_row interest_rate loan_months monthly_insurance in
  let again := recomputed interest_rate loan_months monthly_insurance in
  let positive := positive_at interest_rate loan_months monthly_insurance in
  rows out = collect reported (rows df)
  /\ candidates = map (fun k => dec (20 + Z.of_nat k) 100) (seq 0 80)
  /\ forall row, In row (rows df) ->
       (np_gtb (MonthlyCashFlow row) (Fin 0) = true ->
        reported row = Some (with_down_payment (dec 20 100) row))
       /\ (np_gtb (MonthlyCashFlow row) (Fin 0) = false ->
           (reported row = None
            /\ forall f, In f candidates -> positive row f = false)
           \/ exists k,
                (k < 80)%nat /\
                let f := dec (20 + Z.of_nat k) 100 in
                reported row = Some (with_down_payment f (again row f))
                /\ positive row f = true
                /\ (forall j, (j < k)%nat ->
                      positive row (dec (20 + Z.of_nat j) 100) = false)
                /\ ((0 < k)%nat -> positive row (f - dec 1 100) = false)
                /\ (positive row (dec 20 100) = false -> (0 < k)%nat)).
Proof.
  intros H reported again positive.
  split; [apply (break_even_rows _ _ H)|].
  split; [apply candidates_enum|].
  intros row _. unfold reported, break_even_row, outcome_row.
  split; intros Hgt; rewrite Hgt; [reflexivity|].
  fold positive.
  destruct (find (positive row) candidates) as [f|] eqn:Ef.
  - right. apply find_first in Ef as (k & Hk & Hpos & Hbefore).
    apply candidates_nth_inv in Hk as [Hk ->].
    exists k. split; [exact Hk|]. cbv zeta.
    rewrite round2_candidate. fold again.
    split; [reflexivity|]. split; [exact Hpos|].
    assert (Hall : forall j, (j < k)%nat ->
                     positive row (dec (20 + Z.of_nat j) 100) = false).
    { intros j Hj. apply (Hbefore j); [exact Hj|].
      apply candidates_nth. lia. }
    split; [exact Hall|]. split.
    + intros Hk0. rewrite dec_pred_hundredth.
      replace (20 + Z.of_nat k - 1)%Z with (20 + Z.of_nat (k - 1))%Z by lia.
      apply Hall. lia.
    + intros H20. destruct k as [|k]; [|lia].
      change (dec (20 + Z.of_nat 0) 100) with (dec 20 100) in Hpos.
      congruence.
  - left. split; [reflexivity|]. intros f Hf.
    apply (find_none _ _ Ef f Hf).
Qed.

(** C10.  Every record of the result has a strictly positive
    [MonthlyCashFlow].  It is either an input record whose cash flow was
    already positive, carried over with only the two down-payment cells
    added, or an input record recomputed at a candidate fraction whose
    cash flow is positive. *)
Theorem break_even_output_is_positive df out :
  calculate_break_even_down_payment interest_rate loan_months
    monthly_insurance df = inr out ->
  forall r, In r (rows out) ->
    np_gtb (MonthlyCashFlow r) (Fin 0) = true
    /\ exists row, In row (rows df) /\
        ((np_gtb (MonthlyCashFlow row) (Fin 0) = true
          /\ r = with_down_payment (dec 20 100) row
          /\ MonthlyCashFlow r = MonthlyCashFlow row
          /\ MonthlyMortgage r = MonthlyMortgage row
          /\ PropertyTax r = PropertyTax row)
         \/ (np_gtb (MonthlyCashFlow row) (Fin 0) = false
             /\ exists f, In f candidates
                 /\ r = with_down_payment (round2 f)
                          (recomputed interest_rate loan_months
                                      monthly_insurance row f)
                 /\ positive_at interest_rate loan_months monthly_insurance
                                row f = true)).
Proof.
  intros H r Hr. rewrite (break_even_rows _ _ H) in Hr.
  apply collect_In in Hr as (row & Hrow & Hout).
  unfold break_even_row, outcome_row in Hout.
  destruct (np_gtb (MonthlyCashFlow row) (Fin 0)) eqn:Hgt.
  - injection Hout as <-. split; [exact Hgt|].
    exists row. split; [exact Hrow|]. left.
    repeat split; reflexivity || exact Hgt.
  - destruct (find _ candidates) as [f|] eqn:Ef; [|discriminate].
    injection Hout as <-. apply find_some in Ef as [Hin Hpos].
    split; [exact Hpos|].
    exists row. split; [exact Hrow|]. right.
    split; [exact Hgt|]. exists f. repeat split; assumption.
Qed.

(** ** When nothing is kept *)

Lemma iterrows_all_dropped df todo acc p :
  has_column df "MonthlyCashFlow" = true ->
  has_column df "Price" = true ->
  has_column df "RentEstimate" = true ->
  pow = inr p ->
  (forall row, In row todo ->
     outcome_row interest_rate loan_months monthly_insurance row = None) ->
  iterrows interest_rate loan_months monthly_insurance df todo acc = inr acc.
Proof.
  intros Hm Hp Hr Hpow. induction todo as [|row todo IH]; intros Hall;
    [reflexivity|].
  cbn [iterrows]. unfold loop_body.
  rewrite (getitem_has _ _ Hm). cbn [bind].
  pose proof (Hall row (or_introl eq_refl)) as Hrow.
  unfold outcome_row in Hrow.
  destruct (np_gtb (MonthlyCashFlow row) (Fin 0)); [discriminate|].
  rewrite (scan_eq _ _ _ p Hp Hr Hpow). cbn [bind]. unfold found.
  destruct (find _ candidates); [discriminate|]. cbn [bind ret].
  apply IH. intros r Hin. apply Hall. right. exact Hin.
Qed.

(** If every record is dropped, or there is none, the result frame is
    still the column-less [pd.DataFrame()], and reading its ["Price"]
    column raises. *)
Lemma all_dropped_raises df p :
  has_column df "MonthlyCashFlow" = true ->
  has_column df "Price" = true ->
  has_column df "RentEstimate" = true ->
  pow = inr p ->
  (forall row, In row (rows df) ->
     outcome_row interest_rate loan_months monthly_insurance row = None) ->
  calculate_break_even_down_payment interest_rate loan_months
    monthly_insurance df = inl (KeyError "Price").
Proof.
  intros Hm Hp Hr Hpow Hall. unfold calculate_break_even_down_payment.
  rewrite (iterrows_all_dropped _ _ _ p Hm Hp Hr Hpow Hall).
  reflexivity.
Qed.

(** A record whose rent does not cover tax and insurance has no positive
    candidate, whatever the loan. *)
Lemma never_positive row f :
  0 <= interest_rate -> (0 <= loan_months)%Z ->
  0 <= Price row -> f <= 1 ->
  RentEstimate row
  <= round2 (Price row * dec 125 10000 / of_int 12) + monthly_insurance ->
  positive_at interest_rate loan_months monthly_insurance row f = false.
Proof.
  intros Hrate Hn Hprice Hf Hrent.
  set (mr := interest_rate / of_int 12).
  set (g := growth interest_rate loan_months).
  set (tax := round2 (Price row * dec 125 10000 / of_int 12)) in *.
  set (num := (1 - f) * Price row * (mr * g)).
  assert (E : MonthlyCashFlow
                (recomputed interest_rate loan_months monthly_insurance
                            row f)
              = np_round2
                  (np_sub (Fin (RentEstimate row))
                     (np_add (np_add (Fin tax)
                                     (np_round2 (np_div num (g - 1))))
                             (Fin monthly_insurance)))) by reflexivity.
  unfold positive_at. rewrite E. clear E.
  assert (Hmr : 0 <= mr)
    by (apply Qcmult_nonneg; [exact Hrate | apply twelfth_nonneg]).
  assert (Hg : 1 <= g).
  { unfold g, growth. fold mr. rewrite (py_pow_nonneg_exponent _ _ Hn).
    apply Qcpower_ge_1. clearbody mr. qc_lra. }
  assert (Hnum : 0 <= num).
  { apply Qcmult_nonneg; [apply Qcmult_nonneg; [qc_lra | exact Hprice]|].
    apply Qcmult_nonneg; [exact Hmr|].
    apply Qcle_trans with 1; [qc_lra | exact Hg]. }
  clearbody num g tax mr.
  unfold np_div. destruct (Qceqb (g - 1) 0) eqn:Ez.
  - unfold np_sign_inf. destruct (Qceqb num 0) eqn:En; [reflexivity|].
    destruct (Qcltb 0 num) eqn:Epos; [reflexivity|].
    apply Qcltb_false in Epos.
    assert (E0 : num = 0) by (apply Qcle_antisym; assumption).
    apply Qceqb_true in E0. congruence.
  - cbn [np_round2 np_add np_sub np_neg np_gtb np_ltb].
    apply Qcltb_false. apply round2_nonpos.
    assert (Hq : 0 <= round2 (num / (g - 1))).
    { apply round2_nonneg. apply Qcdiv_le_iff.
      - assert (g - 1 <> 0).
        { intros C. rewrite C in Ez.
          rewrite (proj2 (Qceqb_true 0 0) eq_refl) in Ez. discriminate. }
        qc_lra.
      - rewrite Qcmult_0_l. exact Hnum. }
    generalize dependent (round2 (num / (g - 1))). intros m Hm.
    qc_lra.
Qed.

Lemma candidates_at_most_one f : In f candidates -> f <= 1.
Proof.
  rewrite candidates_enum. intros H.
  apply in_map_iff in H as (k & <- & Hk). apply in_seq in Hk.
  unfold dec, Qcle.
  assert (B : ((20 + Z.of_nat k) # 100 <= 1)%Q)
    by (unfold Qle; cbn [Qnum Qden]; lia).
  set (q := ((20 + Z.of_nat k) # 100)%Q) in *.
  pose proof (this_Q2Qc q) as E.
  change (this 1) with 1%Q.
  clearbody q. set (x := this (Q2Qc q)) in *. clearbody x. lra.
Qed.

Lemma find_all_false {A : Type} (f : A -> bool) (l : list A) :
  (forall x, In x l -> f x = false) -> find f l = None.
Proof.
  induction l as [|x l IH]; intros H; simpl; [reflexivity|].
  rewrite (H x (or_introl eq_refl)). apply IH.
  intros y Hy. apply H. right. exact Hy.
Qed.

End BreakEven.

(** ** Concrete tables *)

(** C1.  The one record of [costly_listing] rents for less than its tax
    and insurance, so the search exhausts its range and nothing is kept.
    The function then raises [KeyError] on the ["Price"] column of its
    still column-less result instead of returning an empty table. *)
Theorem all_records_dropped_raises_KeyError (QS : Quicksort) :
  calculate_break_even_down_payment (dec 61 1000) 360 (of_int 100)
    costly_listing
  = inl (KeyError "Price").
Proof.
  apply (all_dropped_raises _ _ _ _
           ((1 + dec 61 1000 / of_int 12) ^ Z.to_nat 360));
    try reflexivity.
  assert (E : np_gtb (Fin (dec (-498963) 100)) (Fin 0) = false)
    by (vm_compute; reflexivity).
  intros row [<-|[]]. unfold outcome_row. cbn [MonthlyCashFlow].
  rewrite E, find_all_false; [reflexivity|].
  intros f Hf. apply never_positive.
  - qc_compare.
  - lia.
  - qc_compare.
  - apply candidates_at_most_one, Hf.
  - qc_compare.
Qed.

(** C2.  At a zero interest rate the calculator has no straight-line
    branch: the payment formula is evaluated as it stands, 0/0, and the
    mortgage and cash-flow cells are [NaN], whereas the straight-line
    payment for this listing would be 1111.11. *)
Theorem zero_rate_mortgage_is_nan (QS : Quicksort) :
  exists out r,
    calculate_monthly_cash_flow one_listing 0 360 (of_int 100) (dec 20 100)
    = inr out
    /\ rows out = [r]
    /\ Price r = of_int 500000
    /\ MonthlyMortgage r = NaN
    /\ MonthlyCashFlow r = NaN
    /\ np_round2 (Fin (Price r * (1 - dec 20 100) / of_int 360))
       = Fin (dec 111111 100).
Proof.
  set (p := (1 + 0 / of_int 12) ^ Z.to_nat 360).
  assert (Hp : py_pow (1 + 0 / of_int 12) 360 = inr p)
    by (apply py_pow_nonneg_exponent; lia).
  set (r := cash_flow_row (1 - dec 20 100) (0 / of_int 12) p p (of_int 100)
                          (listing "1" 500000 3000)).
  exists (mkFrame (cash_flow_columns listing_columns) [r]), r. split.
  { rewrite (calculate_monthly_cash_flow_eq _ _ _ _ _ p);
      [|reflexivity|reflexivity|exact Hp].
    unfold one_listing. cbn [rows columns map].
    rewrite sort_values_desc_single. reflexivity. }
  cbn [rows]. split; [reflexivity|]. split; [reflexivity|].
  destruct (zero_rate_row (1 - dec 20 100) 360 (of_int 100)
                          (listing "1" 500000 3000) p Hp) as [Em Ec].
  split; [exact Em|]. split; [exact Ec|].
  change (Price r) with (of_int 500000).
  cbn [np_round2]. f_equal; apply Qc_is_canon; vm_compute; reflexivity.
Qed.

(** ** The theorems at concrete tables *)

(** The cash-flow table of the sample listings at 6 percent over 12
    months, insurance 100, 20 percent down, and its break-even table. *)
Definition sample_cash_flows : DataFrame :=
  Eval vm_compute in
    match calculate_monthly_cash_flow (QS := Sorts.stable_sort)
            sample_listings (dec 6 100) 12 (of_int 100) (dec 20 100) with
    | inr d => d
    | inl _ => empty_frame
    end.

Definition sample_break_even : DataFrame :=
  Eval vm_compute in
    match calculate_break_even_down_payment (QS := Sorts.stable_sort)
            (dec 6 100) 12 (of_int 100) sample_cash_flows with
    | inr d => d
    | inl _ => empty_frame
    end.

Lemma sample_cash_flows_run :
  calculate_monthly_cash_flow (QS := Sorts.stable_sort) sample_listings
    (dec 6 100) 12 (of_int 100) (dec 20 100) = inr sample_cash_flows.
Proof. vm_compute. reflexivity. Defined.

Lemma sample_break_even_run :
  calculate_break_even_down_payment (QS := Sorts.stable_sort)
    (dec 6 100) 12 (of_int 100) sample_cash_flows = inr sample_break_even.
Proof. vm_compute. reflexivity. Defined.

Lemma cash_flow_output_descending_witness :
  calculate_monthly_cash_flow (QS := Sorts.stable_sort) sample_listings
    (dec 6 100) 12 (of_int 100) (dec 20 100) = inr sample_cash_flows
  /\ map ID (rows sample_listings) = ["1"; "2"]%string
  /\ map ID (rows sample_cash_flows) = ["2"; "1"]%string
  /\ forall k l r1 r2,
       nth_error (rows sample_cash_flows) k = Some r1 ->
       nth_error (rows sample_cash_flows) l = Some r2 ->
       (np_gtb (MonthlyCashFlow r1) (MonthlyCashFlow r2) = true ->
        (k < l)%nat)
       /\ (is_nan (MonthlyCashFlow r1) = false ->
           is_nan (MonthlyCashFlow r2) = true -> (k < l)%nat).
Proof.
  split; [exact sample_cash_flows_run|].
  split; [reflexivity|]. split; [reflexivity|].
  exact (proj2 (@cash_flow_output_descending Sorts.stable_sort
                  sample_listings (dec 6 100) 12 (of_int 100) (dec 20 100)
                  sample_cash_flows sample_cash_flows_run)).
Defined.

Lemma break_even_reports_first_positive_fraction_witness :
  calculate_break_even_down_payment (QS := Sorts.stable_sort)
    (dec 6 100) 12 (of_int 100) sample_cash_flows = inr sample_break_even
  /\ map ID (rows sample_break_even) = ["2"; "1"]%string
  /\ map DownPaymentPercent (rows sample_break_even)
     = [Fin (dec 20 100); Fin (dec 21 100)]
  /\ rows sample_break_even
     = collect (break_even_row (dec 6 100) 12 (of_int 100))
               (rows sample_cash_flows).
Proof.
  split; [exact sample_break_even_run|].
  split; [reflexivity|].
  split; [vm_compute; repeat f_equal; apply Qc_is_canon; reflexivity|].
  exact (proj1 (@break_even_reports_first_positive_fraction
                  Sorts.stable_sort (dec 6 100) 12 (of_int 100)
                  sample_cash_flows sample_break_even sample_break_even_run)).
Defined.

Lemma break_even_output_is_positive_witness :
  calculate_break_even_down_payment (QS := Sorts.stable_sort)
    (dec 6 100) 12 (of_int 100) sample_cash_flows = inr sample_break_even
  /\ forall r, In r (rows sample_break_even) ->
       np_gtb (MonthlyCashFlow r) (Fin 0) = true.
Proof.
  split; [exact sample_break_even_run|]. intros r Hr.
  exact (proj1 (@break_even_output_is_positive Sorts.stable_sort
                  (dec 6 100) 12 (of_int 100)
                  sample_cash_flows sample_break_even sample_break_even_run
                  r Hr)).
Defined.

End AnalysisFacts.

(* ================================================================== *)
(** * Properties of the projection simulator *)
(* ================================================================== *)

Module AppFacts.
Import Num NumFacts Py PyFacts App.

#[local] Arguments year_body : simpl never.
#[local] Arguments month_body : simpl never.
#[local] Arguments run_months : simpl never.
#[local] Arguments emit : simpl never.
#[local] Arguments round2 : simpl never.

(** ** The shape of a run *)

Lemma year_loop_emit a M ys st acc :
  year_loop a M ys st acc = acc ++ map (emit) (figures_from a M ys st).
Proof.
  revert st acc. induction ys as [|y ys IH]; intros st acc;
    cbn [year_loop figures_from map].
  - symmetry. apply app_nil_r.
  - rewrite IH, <- app_assoc. reflexivity.
Qed.

Lemma projections_are_emitted a projs :
  calculate_investment_projections a = inr projs ->
  exists M, monthly_mortgage a = inr M /\ projs = map emit (figures a M).
Proof.
  unfold calculate_investment_projections. intros H.
  apply bind_inr in H as (M & HM & H). exists M. split; [exact HM|].
  unfold ret in H. injection H as <-. apply year_loop_emit.
Qed.

Lemma seq_nth_error (m k n i : nat) :
  nth_error (seq k m) n = Some i -> i = (k + n)%nat.
Proof.
  revert k n. induction m as [|m IH]; intros k n H; simpl in H.
  - destruct n; discriminate.
  - destruct n as [|n]; simpl in H.
    + injection H as <-. lia.
    + apply IH in H. lia.
Qed.

Lemma py_range_nth (lo hi : Z) (n : nat) y :
  nth_error (py_range lo hi) n = Some y -> y = (lo + Z.of_nat n)%Z.
Proof.
  unfold py_range. intros H. rewrite nth_error_map in H.
  destruct (nth_error (seq 0 (Z.to_nat (hi - lo))) n) as [i|] eqn:E;
    [|discriminate].
  simpl in H. injection H as <-. apply seq_nth_error in E. subst i.
  reflexivity.
Qed.

Lemma figures_from_head a M ys st f :
  nth_error (figures_from a M ys st) 0 = Some f ->
  exists y, nth_error ys 0 = Some y /\ f = year_body a M y st.
Proof.
  destruct ys as [|y ys]; cbn [figures_from nth_error]; [discriminate|].
  intros H. injection H as <-. eauto.
Qed.

Lemma figures_from_step a M ys st n f f' :
  nth_error (figures_from a M ys st) n = Some f ->
  nth_error (figures_from a M ys st) (S n) = Some f' ->
  exists y, nth_error ys (S n) = Some y /\ f' = year_body a M y (after f).
Proof.
  revert ys st. induction n as [|n IH]; intros ys st Hf Hf';
    destruct ys as [|y ys]; try discriminate;
    cbn [figures_from nth_error] in Hf, Hf'.
  - injection Hf as <-. apply figures_from_head in Hf'. exact Hf'.
  - apply (IH ys _ Hf Hf').
Qed.

(** The first figures come from the initial state with [year = 1]; the
    figures of year [n + 2] come from the state left by year [n + 1]. *)
Lemma figures_first a M f :
  nth_error (figures a M) 0 = Some f ->
  f = year_body a M 1 (initial_state a).
Proof.
  unfold figures. intros H.
  apply figures_from_head in H as (y & Hy & ->).
  unfold years in Hy. apply py_range_nth in Hy. subst y. reflexivity.
Qed.

Lemma figures_next a M n f f' :
  nth_error (figures a M) n = Some f ->
  nth_error (figures a M) (S n) = Some f' ->
  f' = year_body a M (Z.of_nat n + 2) (after f).
Proof.
  unfold figures. intros H H'.
  destruct (figures_from_step _ _ _ _ _ _ _ H H') as (y & Hy & ->).
  unfold years in Hy. apply py_range_nth in Hy. subst y. f_equal. lia.
Qed.

Lemma figures_length a M :
  List.length (figures a M) = Z.to_nat (holding_years a).
Proof.
  unfold figures, years, py_range.
  generalize (initial_state a).
  replace (holding_years a + 1 - 1)%Z with (holding_years a) by lia.
  generalize (Z.to_nat (holding_years a)) as m. generalize 0%nat as k.
  intros k m. revert k. induction m as [|m IH]; intros k st;
    cbn [seq map figures_from List.length].
  - reflexivity.
  - rewrite IH. reflexivity.
Qed.

Lemma nth_error_map_inv {A B : Type} (h : A -> B) (l : list A) n y :
  nth_error (map h l) n = Some y ->
  exists x, nth_error l n = Some x /\ y = h x.
Proof.
  revert n. induction l as [|x l IH]; intros [|n] H; try discriminate.
  - injection H as <-. exists x. split; reflexivity.
  - apply (IH n H).
Qed.

Lemma figures_prev a M n f :
  nth_error (figures a M) (S n) = Some f ->
  exists f0, nth_error (figures a M) n = Some f0.
Proof.
  intros H. destruct (nth_error (figures a M) n) as [f0|] eqn:E; [eauto|].
  apply nth_error_None in E.
  assert (nth_error (figures a M) (S n) = None)
    by (apply nth_error_None; lia).
  congruence.
Qed.

Lemma later_year_compounds (n : nat) : (1 <? Z.of_nat n + 2)%Z = true.
Proof. apply Z.ltb_lt. lia. Qed.

(** ** Appreciation and rent growth *)

Lemma figures_year a M n f :
  nth_error (figures a M) n = Some f -> year f = (Z.of_nat n + 1)%Z.
Proof.
  destruct n as [|n]; intros H.
  - apply figures_first in H. subst f. reflexivity.
  - destruct (figures_prev _ _ _ _ H) as (f0 & H0).
    rewrite (figures_next _ _ _ _ _ H0 H).
    change (year (year_body a M (Z.of_nat n + 2) (after f0)))
      with (Z.of_nat n + 2)%Z. lia.
Qed.

Lemma figures_value a M n f :
  nth_error (figures a M) n = Some f ->
  current_property_value (after f)
  = purchase_price a * (1 + annual_appreciation a) ^ n.
Proof.
  revert f. induction n as [|n IH]; intros f H.
  - apply figures_first in H. subst f.
    change (current_property_value
              (after (year_body a M 1 (initial_state a))))
      with (purchase_price a).
    simpl. ring.
  - destruct (figures_prev _ _ _ _ H) as (f0 & H0).
    rewrite (figures_next _ _ _ _ _ H0 H).
    change (current_property_value
              (after (year_body a M (Z.of_nat n + 2) (after f0))))
      with (if (1 <? Z.of_nat n + 2)%Z
            then current_property_value (after f0)
                 * (1 + annual_appreciation a)
            else current_property_value (after f0)).
    rewrite later_year_compounds, (IH _ H0). simpl. ring.
Qed.

Lemma figures_rent a M n f :
  nth_error (figures a M) n = Some f ->
  current_monthly_rent (after f)
  = monthly_rent a * (1 + annual_rent_increase a) ^ n.
Proof.
  revert f. induction n as [|n IH]; intros f H.
  - apply figures_first in H. subst f.
    change (current_monthly_rent
              (after (year_body a M 1 (initial_state a))))
      with (monthly_rent a).
    simpl. ring.
  - destruct (figures_prev _ _ _ _ H) as (f0 & H0).
    rewrite (figures_next _ _ _ _ _ H0 H).
    change (current_monthly_rent
              (after (year_body a M (Z.of_nat n + 2) (after f0))))
      with (if (1 <? Z.of_nat n + 2)%Z
            then current_monthly_rent (after f0)
                 * (1 + annual_rent_increase a)
            else current_monthly_rent (after f0)).
    rewrite later_year_compounds, (IH _ H0). simpl. ring.
Qed.

(** Every figure of a run is [year_body] applied to some state. *)
Lemma figures_body a M n f :
  nth_error (figures a M) n = Some f ->
  exists st, f = year_body a M (year f) st
             /\ (n = O -> st = initial_state a)
             /\ (forall m f0, n = S m ->
                   nth_error (figures a M) m = Some f0 -> st = after f0).
Proof.
  destruct n as [|n]; intros H.
  - exists (initial_state a). apply figures_first in H.
    split; [subst f; reflexivity|]. split; [reflexivity | discriminate].
  - destruct (figures_prev _ _ _ _ H) as (f0 & H0).
    exists (after f0). split.
    + rewrite (figures_next _ _ _ _ _ H0 H) at 1.
      rewrite (figures_next _ _ _ _ _ H0 H) at 1. reflexivity.
    + split; [discriminate|]. intros m f1 E H1. injection E as <-.
      congruence.
Qed.

(** ** The yearly bookkeeping, read off [year_body] *)

Ltac year_fields :=
  cbv zeta; unfold year_body; cbv zeta;
  cbn [year year_start_balance monthly_property_tax monthly_maintenance
       effective_monthly_rent monthly_expenses monthly_cash_flow_gross
       months annual_cash_flow monthly_cash_flow equity
       total_cash_invested_adjusted total_return roi_pct cash_on_cash
       selling_costs net_proceeds total_profit after
       current_property_value current_monthly_rent remaining_balance
       cumulative_cash_flow cumulative_extra_principal];
  repeat split; reflexivity.

Lemma year_body_equity a M y st :
  let f := year_body a M y st in
  equity f = current_property_value (after f) - remaining_balance (after f).
Proof. year_fields. Qed.

Lemma year_body_cumulative a M y st :
  let f := year_body a M y st in
  cumulative_cash_flow (after f)
  = cumulative_cash_flow st + annual_cash_flow f
  /\ cumulative_extra_principal (after f)
    = cumulative_extra_principal st
      + total_extra_principal_this_year (months f).
Proof. year_fields. Qed.

Lemma year_body_returns a M y st :
  let f := year_body a M y st in
  total_cash_invested_adjusted f
  = total_cash_invested a + cumulative_extra_principal (after f)
  /\ cash_on_cash f
    = (if Qcltb 0 (total_cash_invested a)
       then annual_cash_flow f / total_cash_invested a * of_int 100
       else 0)
  /\ roi_pct f
    = (if Qcltb 0 (total_cash_invested_adjusted f)
       then (cumulative_cash_flow (after f) + equity f
             - total_cash_invested_adjusted f)
            / total_cash_invested_adjusted f * of_int 100
       else 0).
Proof. year_fields. Qed.

Lemma year_body_cash_flow a M y st :
  let f := year_body a M y st in
  monthly_property_tax f
  = current_property_value (after f) * annual_tax_rate a / of_int 12
  /\ monthly_maintenance f
    = purchase_price a * ongoing_maintenance_pct a / of_int 12
  /\ effective_monthly_rent f
    = current_monthly_rent (after f) * (1 - vacancy_rate a)
  /\ monthly_cash_flow_gross f
    = effective_monthly_rent f
      - (M + monthly_property_tax f + monthly_insurance a
         + monthly_maintenance f)
  /\ annual_cash_flow f
    = monthly_cash_flow_gross f * of_int 12
      - total_extra_principal_this_year (months f).
Proof. year_fields. Qed.

Lemma year_body_months a M y st :
  let f := year_body a M y st in
  year_start_balance f = remaining_balance st
  /\ months f = run_months a M (monthly_cash_flow_gross f) 12
                           (mkMonth (remaining_balance st) 0 0)
  /\ remaining_balance (after f) = temp_balance (months f).
Proof. year_fields. Qed.

Lemma firstn_snoc {A : Type} (l : list A) n x :
  nth_error l n = Some x -> firstn (S n) l = firstn n l ++ [x].
Proof.
  revert n. induction l as [|y l IH]; intros [|n] H; try discriminate.
  - simpl in H. injection H as <-. reflexivity.
  - simpl in H. change (y :: firstn (S n) l = y :: (firstn n l ++ [x])).
    f_equal. apply IH, H.
Qed.

Lemma extra_principal_to_date_snoc figs f :
  extra_principal_to_date (figs ++ [f])
  = extra_principal_to_date figs
    + total_extra_principal_this_year (months f).
Proof.
  unfold extra_principal_to_date.
  induction figs as [|g figs IH]; cbn [app fold_right].
  - ring.
  - rewrite IH. ring.
Qed.

Lemma cash_flow_to_date_snoc figs f :
  cash_flow_to_date (figs ++ [f]) = cash_flow_to_date figs + annual_cash_flow f.
Proof.
  unfold cash_flow_to_date.
  induction figs as [|g figs IH]; cbn [app fold_right].
  - ring.
  - rewrite IH. ring.
Qed.

(** The running totals are the sums of the yearly amounts. *)
Lemma figures_cumulative a M n f :
  nth_error (figures a M) n = Some f ->
  cumulative_cash_flow (after f)
  = cash_flow_to_date (firstn (S n) (figures a M))
  /\ cumulative_extra_principal (after f)
    = extra_principal_to_date (firstn (S n) (figures a M)).
Proof.
  revert f. induction n as [|n IH]; intros f H.
  - rewrite (firstn_snoc _ _ _ H). cbn [firstn app].
    apply figures_first in H. subst f.
    destruct (year_body_cumulative a M 1 (initial_state a)) as [E1 E2].
    cbv zeta in E1, E2. rewrite E1, E2.
    unfold cash_flow_to_date, extra_principal_to_date. cbn [fold_right].
    split; reflexivity.
  - destruct (figures_prev _ _ _ _ H) as (f0 & H0).
    rewrite (firstn_snoc _ _ _ H).
    rewrite cash_flow_to_date_snoc, extra_principal_to_date_snoc.
    destruct (IH _ H0) as [I1 I2]. rewrite <- I1, <- I2.
    rewrite (figures_next _ _ _ _ _ H0 H).
    apply year_body_cumulative.
Qed.

(** ** Amortization, month by month *)

Section Amortization.
Variables (a : Inputs) (M : Qc).
Hypothesis rate_ok : 0 <= monthly_rate a.
Hypothesis mortgage_ok : loan_amount a * monthly_rate a <= M.
Hypothesis extra_ok : 0 <= extra_payment_monthly a.
Hypothesis share_ok : 0 <= cashflow_to_principal_pct a.

Lemma month_body_balance gross s :
  0 <= temp_balance s -> temp_balance s <= loan_amount a ->
  0 <= temp_balance (month_body a M gross s)
  /\ temp_balance (month_body a M gross s) <= temp_balance s.
Proof.
  intros H0 HL. unfold month_body.
  destruct (Qcltb 0 (temp_balance s)) eqn:Epos;
    [|split; [assumption | apply Qcle_refl]].
  cbv zeta. cbn [temp_balance].
  set (B := temp_balance s) in *.
  set (pp := M - B * monthly_rate a).
  set (e := extra_payment_monthly a
            + (if Qcltb 0 gross
               then gross * cashflow_to_principal_pct a else 0)).
  set (te := py_min e (B - pp)).
  assert (Hpp : 0 <= pp).
  { assert (B * monthly_rate a <= loan_amount a * monthly_rate a)
      by (apply Qcmult_le_compat_r; assumption).
    subst pp. clearbody B. qc_lra. }
  assert (Hee : 0 <= e).
  { assert (0 <= (if Qcltb 0 gross
                  then gross * cashflow_to_principal_pct a else 0)).
    { destruct (Qcltb 0 gross) eqn:G; [|apply Qcle_refl].
      apply Qcltb_true in G.
      apply Qcmult_nonneg; [apply Qclt_le_weak, G | exact share_ok]. }
    subst e. qc_lra. }
  assert (Hte : - pp <= te).
  { apply py_min_glb; clearbody e pp B; qc_lra. }
  clearbody te e pp B.
  destruct (Qcltb (B - (pp + te)) 0) eqn:Eneg.
  - split; [apply Qcle_refl | exact H0].
  - apply Qcltb_false in Eneg. split; [exact Eneg | qc_lra].
Qed.

Lemma month_body_paid_off gross s :
  temp_balance s = 0 -> month_body a M gross s = s.
Proof.
  intros E. unfold month_body. rewrite E.
  replace (Qcltb 0 0) with false; [reflexivity|].
  symmetry. apply Qcltb_false, Qcle_refl.
Qed.

Lemma run_months_S gross n s :
  run_months a M gross (S n) s
  = month_body a M gross (run_months a M gross n s).
Proof. reflexivity. Qed.

Lemma run_months_balance gross n s :
  0 <= temp_balance s -> temp_balance s <= loan_amount a ->
  0 <= temp_balance (run_months a M gross n s)
  /\ temp_balance (run_months a M gross n s) <= temp_balance s.
Proof.
  intros H0 HL. induction n as [|n [IH0 IH1]].
  - split; [exact H0 | apply Qcle_refl].
  - rewrite run_months_S.
    destruct (month_body_balance gross (run_months a M gross n s))
      as [S0 S1]; [exact IH0 | eapply Qcle_trans; eassumption |].
    split; [exact S0 | eapply Qcle_trans; eassumption].
Qed.

(** From one month to the next the working balance does not grow and
    stays non-negative. *)
Lemma run_months_step gross n s :
  0 <= temp_balance s -> temp_balance s <= loan_amount a ->
  0 <= temp_balance (run_months a M gross (S n) s)
  /\ temp_balance (run_months a M gross (S n) s)
     <= temp_balance (run_months a M gross n s).
Proof.
  intros H0 HL. rewrite run_months_S.
  destruct (run_months_balance gross n s H0 HL) as [R0 R1].
  apply month_body_balance; [exact R0 | eapply Qcle_trans; eassumption].
Qed.

Lemma run_months_paid_off gross n s :
  temp_balance s = 0 -> run_months a M gross n s = s.
Proof.
  intros E. induction n as [|n IH]; [reflexivity|].
  rewrite run_months_S, IH. apply month_body_paid_off, E.
Qed.

Lemma year_body_balance y st :
  0 <= remaining_balance st -> remaining_balance st <= loan_amount a ->
  0 <= remaining_balance (after (year_body a M y st))
  /\ remaining_balance (after (year_body a M y st)) <= remaining_balance st.
Proof.
  intros H0 HL.
  destruct (year_body_months a M y st) as (_ & Em & Eb). cbv zeta in Em, Eb.
  rewrite Eb, Em.
  apply (run_months_balance _ 12 (mkMonth (remaining_balance st) 0 0));
    assumption.
Qed.

Lemma year_body_paid_off y st :
  remaining_balance st = 0 ->
  months (year_body a M y st) = mkMonth 0 0 0
  /\ remaining_balance (after (year_body a M y st)) = 0.
Proof.
  intros E.
  destruct (year_body_months a M y st) as (_ & Em & Eb). cbv zeta in Em, Eb.
  rewrite Eb, Em, E.
  rewrite run_months_paid_off by reflexivity. split; reflexivity.
Qed.

Lemma figures_balance n f :
  0 <= loan_amount a ->
  nth_error (figures a M) n = Some f ->
  (0 <= year_start_balance f /\ year_start_balance f <= loan_amount a)
  /\ (0 <= remaining_balance (after f)
      /\ remaining_balance (after f) <= year_start_balance f).
Proof.
  intros HL0. revert f. induction n as [|n IH]; intros f H.
  - apply figures_first in H. subst f.
    destruct (year_body_months a M 1 (initial_state a)) as (Es & _).
    cbv zeta in Es. rewrite Es.
    change (remaining_balance (initial_state a)) with (loan_amount a).
    split; [split; [exact HL0 | apply Qcle_refl]|].
    apply (year_body_balance 1 (initial_state a));
      [exact HL0 | apply Qcle_refl].
  - destruct (figures_prev _ _ _ _ H) as (f0 & H0).
    destruct (IH _ H0) as ((A0 & A1) & (B0 & B1)).
    rewrite (figures_next _ _ _ _ _ H0 H).
    destruct (year_body_months a M (Z.of_nat n + 2) (after f0)) as (Es & _).
    cbv zeta in Es. rewrite Es.
    assert (HL : remaining_balance (after f0) <= loan_amount a)
      by (eapply Qcle_trans; eassumption).
    split; [split; assumption|].
    apply year_body_balance; assumption.
Qed.

(** After the loan is paid off nothing more is paid in any later year. *)
Lemma figures_paid_off n m f g :
  nth_error (figures a M) n = Some f ->
  remaining_balance (after f) = 0 ->
  nth_error (figures a M) (n + S m) = Some g ->
  months g = mkMonth 0 0 0 /\ remaining_balance (after g) = 0.
Proof.
  intros Hf E0. revert g. induction m as [|m IH]; intros g Hg.
  - replace (n + 1)%nat with (S n) in Hg by lia.
    rewrite (figures_next _ _ _ _ _ Hf Hg).
    apply year_body_paid_off, E0.
  - replace (n + S (S m))%nat with (S (n + S m)) in Hg by lia.
    destruct (figures_prev _ _ _ _ Hg) as (g0 & Hg0).
    destruct (IH _ Hg0) as (_ & E).
    rewrite (figures_next _ _ _ _ _ Hg0 Hg).
    apply year_body_paid_off, E.
Qed.

End Amortization.

(** ** The fixed payment covers the first month's interest *)

Lemma monthly_rate_nonneg a : 0 <= interest_rate a -> 0 <= monthly_rate a.
Proof.
  intros H. unfold monthly_rate, Qcdiv.
  apply Qcmult_nonneg; [exact H | apply twelfth_nonneg].
Qed.

Lemma monthly_rate_pos a : 0 < interest_rate a -> 0 < monthly_rate a.
Proof.
  intros H. unfold monthly_rate, Qcdiv.
  rewrite <- (Qcmult_0_l (/ of_int 12)).
  apply Qcmult_lt_compat_r; [|exact H].
  unfold Qclt. vm_compute. reflexivity.
Qed.

Lemma loan_amount_nonneg a :
  0 <= purchase_price a -> down_payment_pct a <= 1 -> 0 <= loan_amount a.
Proof.
  intros Hp Hd.
  assert (E : loan_amount a = purchase_price a * (1 - down_payment_pct a))
    by (unfold loan_amount, down_payment; ring).
  rewrite E. apply Qcmult_nonneg; [exact Hp | qc_lra].
Qed.

Lemma py_div_inr (x y q : Qc) :
  py_div x y = inr q -> y <> 0 /\ q = x / y.
Proof.
  unfold py_div. destruct (Qceqb y 0) eqn:E; [discriminate|].
  intros H. injection H as <-. split; [|reflexivity].
  intros ->. rewrite (proj2 (Qceqb_true 0 0) eq_refl) in E. discriminate.
Qed.

Lemma mortgage_covers_interest a M :
  valid_inputs a -> monthly_mortgage a = inr M ->
  loan_amount a * monthly_rate a <= M.
Proof.
  intros [Hp [Hd0 Hd1] Hr Hy He Hs] HM.
  pose proof (loan_amount_nonneg a Hp Hd1) as HL.
  assert (Hn : (0 < total_months a)%Z) by (unfold total_months; lia).
  unfold monthly_mortgage in HM.
  destruct (Qcltb 0 (interest_rate a)) eqn:Epos.
  - apply Qcltb_true in Epos. pose proof (monthly_rate_pos a Epos) as Hmr.
    rewrite (py_pow_pos_exponent _ _ Hn) in HM. cbn [bind] in HM.
    apply py_div_inr in HM as [_ ->].
    set (p := (1 + monthly_rate a) ^ Z.to_nat (total_months a)).
    assert (Hp1 : 1 < p).
    { apply Qcpower_gt_1; [qc_lra | lia]. }
    apply Qcdiv_le_iff; [qc_lra|].
    assert (HX : 0 <= loan_amount a * monthly_rate a)
      by (apply Qcmult_nonneg; [exact HL | apply Qclt_le_weak, Hmr]).
    replace (loan_amount a * (monthly_rate a * p))
      with (loan_amount a * monthly_rate a * (p - 1)
            + loan_amount a * monthly_rate a) by ring.
    clearbody p. generalize dependent (loan_amount a * monthly_rate a).
    intros X HX. generalize (X * (p - 1)). intros Y. qc_lra.
  - apply Qcltb_false in Epos.
    assert (E0 : interest_rate a = 0) by (apply Qcle_antisym; assumption).
    apply py_div_inr in HM as [_ ->].
    assert (Er : monthly_rate a = 0)
      by (unfold monthly_rate; rewrite E0; unfold Qcdiv; ring).
    rewrite Er, Qcmult_0_r.
    apply Qcdiv_le_iff; [apply of_int_pos, Hn|].
    rewrite Qcmult_0_l. exact HL.
Qed.

(** ** Extra principal outside the payoff month *)

Section ExtraSign.
Variables (a : Inputs) (M : Qc).
Hypothesis extra_ok : 0 <= extra_payment_monthly a.
Hypothesis share_ok : 0 <= cashflow_to_principal_pct a.

Lemma month_body_extra_grows gross s :
  (0 < temp_balance s ->
   M - temp_balance s * monthly_rate a <= temp_balance s) ->
  total_extra_principal_this_year s
  <= total_extra_principal_this_year (month_body a M gross s).
Proof.
  intros Hfit. unfold month_body.
  destruct (Qcltb 0 (temp_balance s)) eqn:Epos; [|apply Qcle_refl].
  apply Qcltb_true in Epos. specialize (Hfit Epos).
  cbv zeta. cbn [total_extra_principal_this_year].
  set (B := temp_balance s) in *.
  set (pp := M - B * monthly_rate a) in *.
  set (e := extra_payment_monthly a
            + (if Qcltb 0 gross
               then gross * cashflow_to_principal_pct a else 0)).
  assert (Hee : 0 <= e).
  { assert (0 <= (if Qcltb 0 gross
                  then gross * cashflow_to_principal_pct a else 0)).
    { destruct (Qcltb 0 gross) eqn:G; [|apply Qcle_refl].
      apply Qcltb_true in G.
      apply Qcmult_nonneg; [apply Qclt_le_weak, G | exact share_ok]. }
    subst e. qc_lra. }
  assert (Hte : 0 <= py_min e (B - pp))
    by (apply py_min_glb; [exact Hee | clearbody pp B; qc_lra]).
  set (te := py_min e (B - pp)) in *.
  set (t := total_extra_principal_this_year s).
  clearbody te t. qc_lra.
Qed.

Lemma run_months_shift gross n s :
  run_months a M gross (S n) s
  = run_months a M gross n (month_body a M gross s).
Proof. unfold run_months. apply Nat.iter_succ_r. Qed.

Lemma principal_fits_from_S gross n s :
  principal_fits_from a M gross (S n) s = true ->
  (0 < temp_balance s ->
   M - temp_balance s * monthly_rate a <= temp_balance s)
  /\ principal_fits_from a M gross n (month_body a M gross s) = true.
Proof.
  cbn [principal_fits_from]. intros H.
  apply andb_true_iff in H as [H Hrest]. split; [|exact Hrest].
  intros Hpos. apply orb_true_iff in H as [H|H];
    apply negb_true_iff in H; apply Qcltb_false in H.
  - exfalso. revert Hpos. apply Qcle_not_lt, H.
  - exact H.
Qed.

Lemma run_months_extra_grows gross n s :
  principal_fits_from a M gross n s = true ->
  total_extra_principal_this_year s
  <= total_extra_principal_this_year (run_months a M gross n s).
Proof.
  revert s. induction n as [|n IH]; intros s Hfit; [apply Qcle_refl|].
  apply principal_fits_from_S in Hfit as [Hnow Hrest].
  rewrite run_months_shift.
  apply Qcle_trans
    with (total_extra_principal_this_year (month_body a M gross s)).
  - apply month_body_extra_grows, Hnow.
  - apply IH, Hrest.
Qed.

(** [principal_fits] read month by month. *)
Lemma principal_fits_from_months gross n s k :
  principal_fits_from a M gross n s = true -> (k < n)%nat ->
  0 < temp_balance (run_months a M gross k s) ->
  M - temp_balance (run_months a M gross k s) * monthly_rate a
  <= temp_balance (run_months a M gross k s).
Proof.
  revert s k. induction n as [|n IH]; intros s k Hfit Hk; [lia|].
  apply principal_fits_from_S in Hfit as [Hnow Hrest].
  destruct k as [|k]; [exact Hnow|].
  rewrite run_months_shift. apply IH; [exact Hrest | lia].
Qed.

Lemma principal_fits_months f k :
  principal_fits a M f = true -> (k < 12)%nat ->
  0 < month_balance a M f k ->
  M - month_balance a M f k * monthly_rate a <= month_balance a M f k.
Proof. apply principal_fits_from_months. Qed.

Lemma year_extra_nonneg n f :
  nth_error (figures a M) n = Some f ->
  principal_fits a M f = true ->
  0 <= total_extra_principal_this_year (months f).
Proof.
  intros Hf Hfit.
  destruct (figures_body _ _ _ _ Hf) as (st & Ef & _).
  destruct (year_body_months a M (year f) st) as (Es & Em & _).
  cbv zeta in Es, Em. rewrite <- Ef in Es, Em.
  rewrite Em, <- Es.
  apply (run_months_extra_grows (monthly_cash_flow_gross f) 12
           (mkMonth (year_start_balance f) 0 0)).
  exact Hfit.
Qed.

End ExtraSign.

Lemma figures_exist a M n :
  (Z.of_nat n < holding_years a)%Z ->
  exists f, nth_error (figures a M) n = Some f.
Proof.
  intros Hn. destruct (nth_error (figures a M) n) as [f|] eqn:E; [eauto|].
  apply nth_error_None in E. rewrite figures_length in E. lia.
Qed.

Lemma compound_step (v x : Qc) (n : nat) : v * x ^ S n = v * x ^ n * x.
Proof. cbn [Qcpower]. ring.  Qed.

(** ** The claims about the simulator *)

(** C7.  One record is produced for each year of the holding period.
    Year 1 uses the purchase price and the initial rent; every later
    year multiplies the value and the rent of the year before once by
    their annual factors, before the year's monthly figures are formed.
    So the value of year [n + 1] is
    [purchase_price * (1 + annual_appreciation) ^ n], the rent
    [monthly_rent * (1 + annual_rent_increase) ^ n], that year's tax and
    effective rent are computed from these compounded values, and the
    record reports the two rounded to cents, within a cent of the closed
    forms. *)
Theorem value_and_rent_compound_yearly a projs :
  calculate_investment_projections a = inr projs ->
  exists M,
    monthly_mortgage a = inr M /\ projs = map emit (figures a M)
    /\ List.length projs = Z.to_nat (holding_years a)
    /\ (forall n, (Z.of_nat n < holding_years a)%Z ->
          exists f, nth_error (figures a M) n = Some f)
    /\ (forall f, nth_error (figures a M) 0 = Some f ->
          current_property_value (after f) = purchase_price a
          /\ current_monthly_rent (after f) = monthly_rent a)
    /\ (forall n f g,
          nth_error (figures a M) n = Some f ->
          nth_error (figures a M) (S n) = Some g ->
          current_property_value (after g)
          = current_property_value (after f) * (1 + annual_appreciation a)
          /\ current_monthly_rent (after g)
             = current_monthly_rent (after f) * (1 + annual_rent_increase a))
    /\ forall n f, nth_error (figures a M) n = Some f ->
      let value := purchase_price a * (1 + annual_appreciation a) ^ n in
      let rent := monthly_rent a * (1 + annual_rent_increase a) ^ n in
      year f = (Z.of_nat n + 1)%Z
      /\ current_property_value (after f) = value
      /\ current_monthly_rent (after f) = rent
      /\ monthly_property_tax f = value * annual_tax_rate a / of_int 12
      /\ effective_monthly_rent f = rent * (1 - vacancy_rate a)
      /\ monthly_cash_flow_gross f
         = effective_monthly_rent f
           - (M + monthly_property_tax f + monthly_insurance a
              + monthly_maintenance f)
      /\ PropertyValue (emit f) = round2 (current_property_value (after f))
      /\ MonthlyRent (emit f) = round2 (current_monthly_rent (after f))
      /\ - dec 1 100 <= PropertyValue (emit f) - value
      /\ PropertyValue (emit f) - value <= dec 1 100
      /\ - dec 1 100 <= MonthlyRent (emit f) - rent
      /\ MonthlyRent (emit f) - rent <= dec 1 100.
Proof.
  intros H. destruct (projections_are_emitted _ _ H) as (M & HM & ->).
  exists M. split; [exact HM|]. split; [reflexivity|].
  split; [rewrite length_map; apply figures_length|].
  split; [intros n; apply figures_exist|].
  split.
  { intros f Hf. rewrite (figures_value _ _ _ _ Hf), (figures_rent _ _ _ _ Hf).
    cbn [Qcpower]. split; ring. }
  split.
  { intros n f g Hf Hg.
    rewrite (figures_value _ _ _ _ Hf), (figures_value _ _ _ _ Hg).
    rewrite (figures_rent _ _ _ _ Hf), (figures_rent _ _ _ _ Hg).
    split; apply compound_step. }
  intros n f Hf value rent.
  pose proof (figures_value _ _ _ _ Hf) as Ev. fold value in Ev.
  pose proof (figures_rent _ _ _ _ Hf) as Er. fold rent in Er.
  destruct (figures_body _ _ _ _ Hf) as (st & Ef & _).
  destruct (year_body_cash_flow a M (year f) st) as (T1 & _ & T3 & T4 & _).
  cbv zeta in T1, T3, T4. rewrite <- Ef in T1, T3, T4.
  split; [apply (figures_year _ _ _ _ Hf)|].
  split; [exact Ev|]. split; [exact Er|].
  split; [rewrite T1, Ev; reflexivity|].
  split; [rewrite T3, Er; reflexivity|].
  split; [exact T4|].
  change (PropertyValue (emit f))
    with (round2 (current_property_value (after f))).
  change (MonthlyRent (emit f))
    with (round2 (current_monthly_rent (after f))).
  split; [reflexivity|]. split; [reflexivity|]. rewrite Ev, Er.
  destruct (round2_within_a_cent value) as [V1 V2].
  destruct (round2_within_a_cent rent) as [R1 R2].
  repeat split; assumption.
Qed.

(** C9, as amended.  The equity the simulator computes is exactly the
    current property value minus the remaining balance; the emitted
    [Equity] is that difference rounded to cents, next to a [PropertyValue]
    and a [LoanBalance] that are rounded separately, so the emitted equity
    is within one cent of the difference of the two emitted figures. *)
Theorem equity_is_rounded_difference a projs :
  calculate_investment_projections a = inr projs ->
  exists M,
    monthly_mortgage a = inr M /\ projs = map emit (figures a M) /\
    forall f, In f (figures a M) ->
      let value := current_property_value (after f) in
      let balance := remaining_balance (after f) in
      equity f = value - balance
      /\ Equity (emit f) = round2 (value - balance)
      /\ PropertyValue (emit f) = round2 value
      /\ LoanBalance (emit f) = round2 balance
      /\ Equity (emit f) - (PropertyValue (emit f) - LoanBalance (emit f))
         <= dec 1 100
      /\ - dec 1 100
         <= Equity (emit f) - (PropertyValue (emit f) - LoanBalance (emit f)).
Proof.
  intros H. destruct (projections_are_emitted _ _ H) as (M & HM & ->).
  exists M. split; [exact HM|]. split; [reflexivity|].
  intros f Hin value balance.
  apply In_nth_error in Hin as (n & Hf).
  destruct (figures_body _ _ _ _ Hf) as (st & Ef & _).
  pose proof (year_body_equity a M (year f) st) as E.
  cbv zeta in E. rewrite <- Ef in E. fold value balance in E.
  split; [exact E|].
  unfold emit. cbn [Equity PropertyValue LoanBalance].
  fold value balance. rewrite E.
  split; [reflexivity|]. split; [reflexivity|]. split; [reflexivity|].
  pose proof (round2_sub_error value balance) as B.
  clearbody value balance.
  generalize dependent (round2 (value - balance)).
  generalize dependent (round2 value). generalize dependent (round2 balance).
  intros rb rv rd B. split; qc_lra.
Qed.

(** C8.  One record is produced for each year of the holding period.
    Cash-on-cash return divides the year's cash flow by the down payment
    plus the initial repairs; total ROI divides cumulative cash flow plus
    equity minus cash invested by cash invested, where cash invested adds
    every year's extra principal to date.  Both are percentages, emitted
    rounded; a denominator that is not positive yields 0 instead. *)
Theorem return_metrics a projs :
  calculate_investment_projections a = inr projs ->
  exists M,
    monthly_mortgage a = inr M /\ projs = map emit (figures a M)
    /\ List.length projs = Z.to_nat (holding_years a)
    /\ (forall n, (Z.of_nat n < holding_years a)%Z ->
          exists f, nth_error (figures a M) n = Some f)
    /\ forall n f, nth_error (figures a M) n = Some f ->
      let invested := down_payment a + initial_repairs a in
      let extra := extra_principal_to_date (firstn (S n) (figures a M)) in
      let cash := cash_flow_to_date (firstn (S n) (figures a M)) in
      total_cash_invested_adjusted f = invested + extra
      /\ cumulative_cash_flow (after f) = cash
      /\ (0 < invested ->
          cash_on_cash f = annual_cash_flow f / invested * of_int 100)
      /\ (0 < invested + extra ->
          roi_pct f
          = (cash + equity f - (invested + extra)) / (invested + extra)
            * of_int 100)
      /\ (invested <= 0 -> cash_on_cash f = 0)
      /\ (invested + extra <= 0 -> roi_pct f = 0)
      /\ CashOnCashReturn (emit f) = round2 (cash_on_cash f)
      /\ TotalROI (emit f) = round2 (roi_pct f).
Proof.
  intros H. destruct (projections_are_emitted _ _ H) as (M & HM & ->).
  exists M. split; [exact HM|]. split; [reflexivity|].
  split; [rewrite length_map; apply figures_length|].
  split; [intros n; apply figures_exist|].
  intros n f Hf invested extra cash.
  destruct (figures_cumulative _ _ _ _ Hf) as [Ec Ee].
  fold cash in Ec. fold extra in Ee.
  destruct (figures_body _ _ _ _ Hf) as (st & Ef & _).
  destruct (year_body_returns a M (year f) st) as (R1 & R2 & R3).
  cbv zeta in R1, R2, R3. rewrite <- Ef in R1, R2, R3.
  change (total_cash_invested a) with invested in R1, R2.
  rewrite Ee in R1. rewrite R1, Ec in R3.
  split; [exact R1|]. split; [exact Ec|].
  split; [|split; [|split; [|split; [|split; reflexivity]]]].
  - intros Hpos. apply Qcltb_true in Hpos. rewrite Hpos in R2. exact R2.
  - intros Hpos. apply Qcltb_true in Hpos. rewrite Hpos in R3. exact R3.
  - intros Hle. apply Qcltb_false in Hle. rewrite Hle in R2. exact R2.
  - intros Hle. apply Qcltb_false in Hle. rewrite Hle in R3. exact R3.
Qed.

(** C3, as amended.  Each running total grows by exactly that year's
    amount.  Cumulative cash flow grows by the year's annual cash flow:
    it does not decrease over a year whose annual cash flow is
    non-negative, and it does not increase over a year that loses money.
    Cumulative extra principal grows by the year's extra principal: with
    a non-negative fixed extra payment and a non-negative share of the
    cash flow, a year's extra principal is non-negative, and the
    cumulative extra principal does not decrease over it, whenever the
    scheduled principal fits in the balance in each of its months in
    which something is owed.  The month that pays off a balance smaller
    than its scheduled principal is left out. *)
Theorem cumulative_totals_follow_yearly_amounts a projs :
  calculate_investment_projections a = inr projs ->
  exists M,
    monthly_mortgage a = inr M /\ projs = map emit (figures a M)
    /\ List.length projs = Z.to_nat (holding_years a)
    /\ (forall n f g,
          nth_error (figures a M) n = Some f ->
          nth_error (figures a M) (S n) = Some g ->
          cumulative_cash_flow (after g)
          = cumulative_cash_flow (after f) + annual_cash_flow g
          /\ cumulative_extra_principal (after g)
             = cumulative_extra_principal (after f)
               + total_extra_principal_this_year (months g)
          /\ (0 <= annual_cash_flow g ->
              CumulativeCashFlow (emit f) <= CumulativeCashFlow (emit g))
          /\ (annual_cash_flow g <= 0 ->
              CumulativeCashFlow (emit g) <= CumulativeCashFlow (emit f)))
    /\ (0 <= extra_payment_monthly a -> 0 <= cashflow_to_principal_pct a ->
        (forall n g, nth_error (figures a M) n = Some g ->
           principal_fits a M g = true ->
           0 <= total_extra_principal_this_year (months g)
           /\ 0 <= ExtraPrincipalThisYear (emit g))
        /\ (forall n f g,
              nth_error (figures a M) n = Some f ->
              nth_error (figures a M) (S n) = Some g ->
              principal_fits a M g = true ->
              cumulative_extra_principal (after f)
              <= cumulative_extra_principal (after g)
              /\ CumulativeExtraPrincipal (emit f)
                 <= CumulativeExtraPrincipal (emit g))).
Proof.
  intros H. destruct (projections_are_emitted _ _ H) as (M & HM & ->).
  exists M. split; [exact HM|]. split; [reflexivity|].
  split; [rewrite length_map; apply figures_length|].
  assert (Hstep : forall n f g,
            nth_error (figures a M) n = Some f ->
            nth_error (figures a M) (S n) = Some g ->
            cumulative_cash_flow (after g)
            = cumulative_cash_flow (after f) + annual_cash_flow g
            /\ cumulative_extra_principal (after g)
               = cumulative_extra_principal (after f)
                 + total_extra_principal_this_year (months g)).
  { intros n f g Hf Hg.
    pose proof (figures_next _ _ _ _ _ Hf Hg) as Eg.
    destruct (year_body_cumulative a M (Z.of_nat n + 2) (after f)) as [E1 E2].
    cbv zeta in E1, E2. rewrite <- Eg in E1, E2. split; assumption. }
  split.
  { intros n f g Hf Hg. destruct (Hstep n f g Hf Hg) as [E1 E2].
    split; [exact E1|]. split; [exact E2|].
    change (CumulativeCashFlow (emit f))
      with (round2 (cumulative_cash_flow (after f))).
    change (CumulativeCashFlow (emit g))
      with (round2 (cumulative_cash_flow (after g))).
    rewrite E1.
    split; intros Hsign; apply round2_mono;
      generalize dependent (cumulative_cash_flow (after f));
      generalize dependent (annual_cash_flow g);
      intros; qc_lra. }
  intros He Hs. split.
  { intros n g Hg Hfit.
    pose proof (year_extra_nonneg a M He Hs n g Hg Hfit) as Hx.
    split; [exact Hx|].
    change (ExtraPrincipalThisYear (emit g))
      with (round2 (total_extra_principal_this_year (months g))).
    apply round2_nonneg, Hx. }
  intros n f g Hf Hg Hfit.
  destruct (Hstep n f g Hf Hg) as [_ E2].
  pose proof (year_extra_nonneg a M He Hs (S n) g Hg Hfit) as Hx.
  assert (Hle : cumulative_extra_principal (after f)
                <= cumulative_extra_principal (after g)).
  { rewrite E2.
    generalize dependent (cumulative_extra_principal (after f)).
    generalize dependent (total_extra_principal_this_year (months g)).
    intros; qc_lra. }
  split; [exact Hle|].
  change (CumulativeExtraPrincipal (emit f))
    with (round2 (cumulative_extra_principal (after f))).
  change (CumulativeExtraPrincipal (emit g))
    with (round2 (cumulative_extra_principal (after g))).
  apply round2_mono, Hle.
Qed.

(** C6.  Within the ranges the calling layer enforces, the working
    balance never rises from one month to the next and never goes below
    zero; the balance carried to the next year is the one left by the
    twelfth month, so the yearly balances and the emitted [LoanBalance]
    are non-increasing and non-negative too.  A month that starts with a
    zero balance changes nothing, and once a year ends with a zero balance
    every later year pays no principal and no extra principal. *)
Theorem loan_balance_never_rises a projs :
  valid_inputs a ->
  calculate_investment_projections a = inr projs ->
  exists M,
    monthly_mortgage a = inr M /\ projs = map emit (figures a M) /\
    (forall gross s, temp_balance s = 0 -> month_body a M gross s = s) /\
    forall n f, nth_error (figures a M) n = Some f ->
      month_balance a M f 0 = year_start_balance f
      /\ month_balance a M f 12 = remaining_balance (after f)
      /\ (forall k, (k < 12)%nat ->
            0 <= month_balance a M f (S k)
            /\ month_balance a M f (S k) <= month_balance a M f k)
      /\ year_start_balance f <= loan_amount a
      /\ 0 <= remaining_balance (after f)
      /\ remaining_balance (after f) <= year_start_balance f
      /\ 0 <= LoanBalance (emit f)
      /\ (forall g, nth_error (figures a M) (S n) = Some g ->
            year_start_balance g = remaining_balance (after f)
            /\ LoanBalance (emit g) <= LoanBalance (emit f))
      /\ (remaining_balance (after f) = 0 ->
          forall m g, nth_error (figures a M) (n + S m) = Some g ->
            principal_paid (months g) = 0
            /\ total_extra_principal_this_year (months g) = 0
            /\ remaining_balance (after g) = 0
            /\ PrincipalPaid (emit g) = 0
            /\ ExtraPrincipalThisYear (emit g) = 0
            /\ LoanBalance (emit g) = 0).
Proof.
  intros V H. destruct (projections_are_emitted _ _ H) as (M & HM & ->).
  exists M. split; [exact HM|]. split; [reflexivity|].
  pose proof (mortgage_covers_interest a M V HM) as Hcov.
  destruct V as [Hp [Hd0 Hd1] Hr Hy He Hs].
  pose proof (monthly_rate_nonneg a Hr) as Hmr.
  pose proof (loan_amount_nonneg a Hp Hd1) as HL.
  split; [intros gross s; apply month_body_paid_off|].
  intros n f Hf.
  destruct (figures_balance a M Hmr Hcov He Hs n f HL Hf)
    as ((S0 & S1) & (B0 & B1)).
  destruct (figures_body _ _ _ _ Hf) as (st & Ef & _).
  destruct (year_body_months a M (year f) st) as (Es & Em & Eb).
  cbv zeta in Es, Em, Eb. rewrite <- Ef in Es, Em, Eb.
  split; [reflexivity|].
  split.
  { unfold month_balance. rewrite Eb, Em, Es. reflexivity. }
  split.
  { intros k _. unfold month_balance.
    apply (run_months_step a M Hmr Hcov He Hs); assumption. }
  split; [exact S1|]. split; [exact B0|]. split; [exact B1|].
  split.
  { unfold emit. cbn [LoanBalance]. apply round2_nonneg, B0. }
  split.
  { intros g Hg.
    destruct (figures_balance a M Hmr Hcov He Hs (S n) g HL Hg)
      as (_ & (_ & G1)).
    rewrite (figures_next _ _ _ _ _ Hf Hg) in G1 |- *.
    destruct (year_body_months a M (Z.of_nat n + 2) (after f)) as (Gs & _).
    cbv zeta in Gs. split; [exact Gs|].
    unfold emit. cbn [LoanBalance]. apply round2_mono.
    rewrite Gs in G1. exact G1. }
  intros E0 m g Hg.
  destruct (figures_paid_off a M n m f g Hf E0 Hg) as (Em0 & Eb0).
  unfold emit. cbn [PrincipalPaid ExtraPrincipalThisYear LoanBalance].
  rewrite Em0, Eb0. cbn [principal_paid total_extra_principal_this_year].
  rewrite round2_0. repeat split; reflexivity.
Qed.

(** ** Concrete runs *)

Lemma ten_year_run_valid : valid_inputs ten_year_run.
Proof. constructor; try split; try qc_compare; reflexivity. Qed.

Lemma low_rent_run_valid : valid_inputs low_rent_run.
Proof. constructor; try split; try qc_compare; reflexivity. Qed.

Lemma early_payoff_run_valid : valid_inputs early_payoff_run.
Proof. constructor; try split; try qc_compare; reflexivity. Qed.

(** C3, counterexample.  With the rent at 2000 every year loses money,
    so the cumulative cash flow of year 2 is below that of year 1; no
    extra principal is involved. *)
Lemma cumulative_cash_flow_can_decrease :
  exists projs p q,
    valid_inputs low_rent_run
    /\ calculate_investment_projections low_rent_run = inr projs
    /\ nth_error projs 0 = Some p /\ nth_error projs 1 = Some q
    /\ ExtraPrincipalThisYear p = 0 /\ ExtraPrincipalThisYear q = 0
    /\ CumulativeCashFlow q < CumulativeCashFlow p.
Proof.
  eexists. eexists. eexists.
  split; [exact low_rent_run_valid|].
  split; [vm_compute; reflexivity|].
  split; [vm_compute; reflexivity|].
  split; [vm_compute; reflexivity|].
  split; [apply Qc_is_canon; vm_compute; reflexivity|].
  split; [apply Qc_is_canon; vm_compute; reflexivity|].
  qc_compare.
Qed.

(** The balance clamp in the payoff month: 600 is owed, the scheduled
    principal is 1050, so the "extra" principal of that month is -450 and
    the cumulative extra principal falls from 112800 to 112350. *)
Lemma extra_principal_negative_in_payoff_month :
  exists projs p q,
    valid_inputs early_payoff_run
    /\ calculate_investment_projections early_payoff_run = inr projs
    /\ nth_error projs 0 = Some p /\ nth_error projs 1 = Some q
    /\ CumulativeExtraPrincipal p = of_int 112800
    /\ ExtraPrincipalThisYear q = of_int (-450)
    /\ CumulativeExtraPrincipal q = of_int 112350.
Proof.
  eexists. eexists. eexists.
  split; [exact early_payoff_run_valid|].
  split; [vm_compute; reflexivity|].
  split; [vm_compute; reflexivity|].
  split; [vm_compute; reflexivity|].
  repeat split; apply Qc_is_canon; vm_compute; reflexivity.
Qed.

(** C9, counterexample.  In year 10 of the ten-year run the emitted
    equity is 385719.93 while the emitted property value minus the emitted
    loan balance is 652386.59 - 266666.67 = 385719.92; nor is the emitted
    equity the unrounded difference. *)
Lemma emitted_equity_off_by_a_cent :
  exists projs p M f,
    valid_inputs ten_year_run
    /\ calculate_investment_projections ten_year_run = inr projs
    /\ nth_error projs 9 = Some p
    /\ monthly_mortgage ten_year_run = inr M
    /\ nth_error (figures ten_year_run M) 9 = Some f
    /\ p = emit f
    /\ Equity p = dec 38571993 100
    /\ PropertyValue p - LoanBalance p = dec 38571992 100
    /\ Equity p <> PropertyValue p - LoanBalance p
    /\ Equity p
       <> current_property_value (after f) - remaining_balance (after f).
Proof.
  eexists. eexists. eexists. eexists.
  split; [exact ten_year_run_valid|].
  split; [vm_compute; reflexivity|].
  split; [vm_compute; reflexivity|].
  split; [vm_compute; reflexivity|].
  split; [vm_compute; reflexivity|].
  split; [vm_compute; reflexivity|].
  split; [apply Qc_is_canon; vm_compute; reflexivity|].
  split; [apply Qc_is_canon; vm_compute; reflexivity|].
  split; intros E; apply (f_equal this) in E; vm_compute in E; discriminate.
Qed.

(** ** The theorems at the ten-year run *)

Definition ten_year_projections : list Projection :=
  Eval vm_compute in
    match calculate_investment_projections ten_year_run with
    | inr l => l
    | inl _ => []
    end.

Lemma ten_year_projections_run :
  calculate_investment_projections ten_year_run = inr ten_year_projections.
Proof. vm_compute. reflexivity. Defined.

Lemma loan_balance_never_rises_witness :
  valid_inputs ten_year_run
  /\ calculate_investment_projections ten_year_run = inr ten_year_projections
  /\ forall n p q,
       nth_error ten_year_projections n = Some p ->
       nth_error ten_year_projections (S n) = Some q ->
       0 <= LoanBalance q /\ LoanBalance q <= LoanBalance p.
Proof.
  split; [exact ten_year_run_valid|].
  split; [exact ten_year_projections_run|]. intros n p q Hp Hq.
  destruct (loan_balance_never_rises ten_year_run ten_year_projections
              ten_year_run_valid ten_year_projections_run)
    as (M & _ & E & _ & Hall).
  rewrite E in Hp, Hq.
  apply nth_error_map_inv in Hp as (f & Ef & ->).
  apply nth_error_map_inv in Hq as (g & Eg & ->).
  destruct (Hall n f Ef) as (_ & _ & _ & _ & _ & _ & _ & Hnext & _).
  destruct (Hall (S n) g Eg) as (_ & _ & _ & _ & _ & _ & Hpos & _).
  split; [exact Hpos | apply (Hnext g Eg)].
Defined.

Lemma equity_is_rounded_difference_witness :
  calculate_investment_projections ten_year_run = inr ten_year_projections
  /\ forall p, In p ten_year_projections ->
       Equity p - (PropertyValue p - LoanBalance p) <= dec 1 100
       /\ - dec 1 100 <= Equity p - (PropertyValue p - LoanBalance p).
Proof.
  split; [exact ten_year_projections_run|]. intros p Hp.
  destruct (equity_is_rounded_difference ten_year_run ten_year_projections
              ten_year_projections_run) as (M & _ & E & Hall).
  rewrite E in Hp. apply in_map_iff in Hp as (f & <- & Hf).
  destruct (Hall f Hf) as (_ & _ & _ & _ & Hhi & Hlo).
  split; [exact Hhi | exact Hlo].
Defined.

(** ** The theorems at the run with extra principal *)

Definition extra_principal_projections : list Projection :=
  Eval vm_compute in
    match calculate_investment_projections extra_principal_run with
    | inr l => l
    | inl _ => []
    end.

Lemma extra_principal_projections_run :
  calculate_investment_projections extra_principal_run
  = inr extra_principal_projections.
Proof. vm_compute. reflexivity. Defined.

Definition extra_principal_mortgage : Qc :=
  Eval vm_compute in
    match monthly_mortgage extra_principal_run with
    | inr m => m
    | inl _ => 0
    end.

Lemma extra_principal_mortgage_run :
  monthly_mortgage extra_principal_run = inr extra_principal_mortgage.
Proof. vm_compute. reflexivity. Defined.

(** In each of the three years the scheduled principal fits in the
    balance every month, the cash flow left after the extra principal is
    not negative, and cash has been invested. *)
Lemma extra_principal_run_years f :
  In f (figures extra_principal_run extra_principal_mortgage) ->
  principal_fits extra_principal_run extra_principal_mortgage f = true
  /\ 0 <= annual_cash_flow f
  /\ 0 < total_cash_invested_adjusted f.
Proof.
  assert (H : forallb
                (fun f =>
                   principal_fits extra_principal_run
                     extra_principal_mortgage f
                   && negb (Qcltb (annual_cash_flow f) 0)
                   && Qcltb 0 (total_cash_invested_adjusted f))
                (figures extra_principal_run extra_principal_mortgage)
              = true) by (vm_compute; reflexivity).
  rewrite forallb_forall in H. intros Hin. specialize (H f Hin).
  apply andb_true_iff in H as [H H3]. apply andb_true_iff in H as [H1 H2].
  split; [exact H1|]. split.
  - apply negb_true_iff in H2. apply Qcltb_false in H2. exact H2.
  - apply Qcltb_true in H3. exact H3.
Qed.

Lemma extra_principal_run_pays :
  0 <= extra_payment_monthly extra_principal_run
  /\ 0 <= cashflow_to_principal_pct extra_principal_run.
Proof. split; qc_compare. Qed.

Lemma value_and_rent_compound_yearly_witness :
  calculate_investment_projections extra_principal_run
  = inr extra_principal_projections
  /\ map Year extra_principal_projections = [1; 2; 3]%Z
  /\ map PropertyValue extra_principal_projections
     = [of_int 100000; of_int 103000; of_int 106090]
  /\ map MonthlyRent extra_principal_projections
     = [of_int 2000; of_int 2040; dec 208080 100]
  /\ forall n, (n < 3)%nat ->
       exists p,
         nth_error extra_principal_projections n = Some p
         /\ Year p = (Z.of_nat n + 1)%Z
         /\ - dec 1 100
            <= PropertyValue p - of_int 100000 * (1 + dec 3 100) ^ n
         /\ PropertyValue p - of_int 100000 * (1 + dec 3 100) ^ n
            <= dec 1 100
         /\ - dec 1 100
            <= MonthlyRent p - of_int 2000 * (1 + dec 2 100) ^ n
         /\ MonthlyRent p - of_int 2000 * (1 + dec 2 100) ^ n
            <= dec 1 100.
Proof.
  split; [exact extra_principal_projections_run|].
  split; [reflexivity|].
  split; [apply Qc_list_eqb_eq; vm_compute; reflexivity|].
  split; [apply Qc_list_eqb_eq; vm_compute; reflexivity|].
  intros n Hn.
  destruct (value_and_rent_compound_yearly extra_principal_run
              extra_principal_projections extra_principal_projections_run)
    as (M & _ & E & _ & Hex & _ & _ & Hall).
  destruct (Hex n) as (f & Hf);
    [change (holding_years extra_principal_run) with 3%Z; lia|].
  exists (emit f). split.
  { rewrite E. apply map_nth_error, Hf. }
  destruct (Hall n f Hf)
    as (Hy & _ & _ & _ & _ & _ & _ & _ & V1 & V2 & R1 & R2).
  split; [exact Hy|].
  split; [exact V1|]. split; [exact V2|]. split; [exact R1 | exact R2].
Defined.

Lemma return_metrics_witness :
  calculate_investment_projections extra_principal_run
  = inr extra_principal_projections
  /\ down_payment extra_principal_run + initial_repairs extra_principal_run
     = of_int 55000
  /\ map ExtraPrincipalThisYear extra_principal_projections
     = [dec 297485 100; dec 318410 100; dec 339735 100]
  /\ map CashOnCashReturn extra_principal_projections
     = [dec 105 100; dec 143 100; dec 181 100]
  /\ map TotalROI extra_principal_projections
     = [dec 1052 100; dec 3620 100; dec 6265 100]
  /\ exists M,
       monthly_mortgage extra_principal_run = inr M
       /\ forall n, (n < 3)%nat ->
            exists f p,
              let figs := firstn (S n) (figures extra_principal_run M) in
              let invested := of_int 55000 + extra_principal_to_date figs in
              nth_error (figures extra_principal_run M) n = Some f
              /\ nth_error extra_principal_projections n = Some p
              /\ p = emit f
              /\ total_cash_invested_adjusted f = invested
              /\ CashOnCashReturn p
                 = round2 (annual_cash_flow f / of_int 55000 * of_int 100)
              /\ TotalROI p
                 = round2 ((cash_flow_to_date figs + equity f - invested)
                           / invested * of_int 100).
Proof.
  split; [exact extra_principal_projections_run|].
  assert (Einv : down_payment extra_principal_run
                 + initial_repairs extra_principal_run = of_int 55000)
    by (apply Qc_is_canon; vm_compute; reflexivity).
  split; [exact Einv|].
  split; [apply Qc_list_eqb_eq; vm_compute; reflexivity|].
  split; [apply Qc_list_eqb_eq; vm_compute; reflexivity|].
  split; [apply Qc_list_eqb_eq; vm_compute; reflexivity|].
  destruct (return_metrics extra_principal_run
              extra_principal_projections extra_principal_projections_run)
    as (M & HM & E & _ & Hex & Hall).
  exists M. split; [exact HM|]. intros n Hn.
  destruct (Hex n) as (f & Hf);
    [change (holding_years extra_principal_run) with 3%Z; lia|].
  exists f, (emit f). cbv zeta.
  split; [exact Hf|].
  split; [rewrite E; apply map_nth_error, Hf|].
  split; [reflexivity|].
  destruct (Hall n f Hf) as (Ha & _ & Hcoc & Hroi & _ & _ & Ec & Er).
  cbv zeta in Ha, Hcoc, Hroi. rewrite Einv in Ha, Hcoc, Hroi.
  split; [exact Ha|].
  assert (HM' := HM). rewrite extra_principal_mortgage_run in HM'.
  injection HM' as HM'. 
  assert (Hin : In f (figures extra_principal_run extra_principal_mortgage)).
  { rewrite HM'. eapply nth_error_In, Hf. }
  destruct (extra_principal_run_years f Hin) as (_ & _ & Hpos).
  rewrite Ha in Hpos.
  split.
  - rewrite Ec, Hcoc; [reflexivity | qc_compare].
  - rewrite Er, Hroi; [reflexivity | exact Hpos].
Defined.

Lemma cumulative_totals_follow_yearly_amounts_witness :
  calculate_investment_projections extra_principal_run
  = inr extra_principal_projections
  /\ 0 <= extra_payment_monthly extra_principal_run
  /\ 0 <= cashflow_to_principal_pct extra_principal_run
  /\ map CumulativeCashFlow extra_principal_projections
     = [dec 57485 100; dec 135895 100; dec 235630 100]
  /\ map CumulativeExtraPrincipal extra_principal_projections
     = [dec 297485 100; dec 615895 100; dec 955630 100]
  /\ (forall n p, nth_error extra_principal_projections n = Some p ->
        0 <= ExtraPrincipalThisYear p)
  /\ forall n p q,
       nth_error extra_principal_projections n = Some p ->
       nth_error extra_principal_projections (S n) = Some q ->
       CumulativeCashFlow p <= CumulativeCashFlow q
       /\ CumulativeExtraPrincipal p <= CumulativeExtraPrincipal q.
Proof.
  split; [exact extra_principal_projections_run|].
  destruct extra_principal_run_pays as [He Hs].
  split; [exact He|]. split; [exact Hs|].
  split; [apply Qc_list_eqb_eq; vm_compute; reflexivity|].
  split; [apply Qc_list_eqb_eq; vm_compute; reflexivity|].
  destruct (cumulative_totals_follow_yearly_amounts extra_principal_run
              extra_principal_projections extra_principal_projections_run)
    as (M & HM & E & _ & Hcash & Hextra).
  destruct (Hextra He Hs) as [Hyear Hcum].
  assert (HM' := HM). rewrite extra_principal_mortgage_run in HM'.
  injection HM' as HM'.
  split.
  - intros n p Hp. rewrite E in Hp.
    apply nth_error_map_inv in Hp as (f & Hf & ->).
    assert (Hin : In f (figures extra_principal_run
                          extra_principal_mortgage))
      by (rewrite HM'; eapply nth_error_In, Hf).
    destruct (extra_principal_run_years f Hin) as (Hfit & _).
    rewrite HM' in Hfit. apply (Hyear n f Hf Hfit).
  - intros n p q Hp Hq. rewrite E in Hp, Hq.
    apply nth_error_map_inv in Hp as (f & Hf & ->).
    apply nth_error_map_inv in Hq as (g & Hg & ->).
    assert (Hin : In g (figures extra_principal_run
                          extra_principal_mortgage))
      by (rewrite HM'; eapply nth_error_In, Hg).
    destruct (extra_principal_run_years g Hin) as (Hfit & Hann & _).
    rewrite HM' in Hfit. split.
    + apply (Hcash n f g Hf Hg), Hann.
    + apply (Hcum n f g Hf Hg Hfit).
Defined.

End AppFacts.

(* ================================================================== *)
(** * More about the projection simulator *)
(* ================================================================== *)

Module AppMore.
Import Num NumFacts Py PyFacts App AppFacts.

#[local] Arguments year_body : simpl never.
#[local] Arguments month_body : simpl never.
#[local] Arguments run_months : simpl never.
#[local] Arguments emit : simpl never.
#[local] Arguments round2 : simpl never.

(** ** When the simulator returns *)

Lemma monthly_mortgage_defined a :
  valid_inputs a -> exists M, monthly_mortgage a = inr M.
Proof.
  intros [Hp [Hd0 Hd1] Hr Hy He Hs].
  assert (Hn : (0 < total_months a)%Z) by (unfold total_months; lia).
  unfold monthly_mortgage.
  destruct (Qcltb 0 (interest_rate a)) eqn:Epos.
  - apply Qcltb_true in Epos. pose proof (monthly_rate_pos a Epos) as Hmr.
    rewrite (py_pow_pos_exponent _ _ Hn). cbn [bind].
    set (p := (1 + monthly_rate a) ^ Z.to_nat (total_months a)).
    assert (Hp1 : 1 < p) by (apply Qcpower_gt_1; [qc_lra | lia]).
    unfold py_div. destruct (Qceqb (p - 1) 0) eqn:E; [|eauto].
    apply Qceqb_true in E. clearbody p. exfalso. qc_lra.
  - unfold py_div. destruct (Qceqb (of_int (total_months a)) 0) eqn:E; [|eauto].
    apply Qceqb_true in E. pose proof (of_int_pos _ Hn) as Hpos.
    rewrite E in Hpos. exfalso. revert Hpos. apply Qcle_not_lt, Qcle_refl.
Qed.

(** X2.  A loan term of zero years makes the payment formula divide by zero,
    at a positive rate as well as at rate zero. *)
Theorem zero_loan_years_raise a :
  loan_years a = 0%Z ->
  calculate_investment_projections a = inl ZeroDivisionError.
Proof.
  intros E. unfold calculate_investment_projections, monthly_mortgage,
    total_months. rewrite E. cbn [Z.mul].
  destruct (Qcltb 0 (interest_rate a)).
  - cbn [py_pow Z.to_nat Qcpower bind ret]. unfold py_div.
    replace (Qceqb (1 - 1) 0) with true by reflexivity. reflexivity.
  - unfold py_div. replace (Qceqb (of_int 0) 0) with true by reflexivity.
    reflexivity.
Qed.

(** X3.  One record per year, numbered 1, 2, ... in order; none when the
    holding period is not positive. *)
Theorem one_record_per_year a projs :
  calculate_investment_projections a = inr projs ->
  List.length projs = Z.to_nat (holding_years a)
  /\ forall n p, nth_error projs n = Some p -> Year p = (Z.of_nat n + 1)%Z.
Proof.
  intros H. destruct (projections_are_emitted _ _ H) as (M & _ & ->).
  split.
  - rewrite length_map. apply figures_length.
  - intros n p Hp. apply nth_error_map_inv in Hp as (f & Hf & ->).
    apply (figures_year _ _ _ _ Hf).
Qed.

(** ** Principal accounting *)

Lemma py_min_upper x y : py_min x y <= y.
Proof.
  unfold py_min. destruct (Qcltb y x) eqn:E; [apply Qcle_refl|].
  apply Qcltb_false in E. exact E.
Qed.

Lemma py_min_lower x y : py_min x y <= x.
Proof.
  unfold py_min. destruct (Qcltb y x) eqn:E; [|apply Qcle_refl].
  apply Qcltb_true in E. apply Qclt_le_weak, E.
Qed.

(** A month moves the same amount from the balance to the principal
    paid: the extra payment is capped at what is owed after the regular
    payment, so the balance is never driven below zero. *)
Lemma month_body_conserves a M gross s :
  temp_balance (month_body a M gross s) + principal_paid (month_body a M gross s)
  = temp_balance s + principal_paid s.
Proof.
  unfold month_body.
  destruct (Qcltb 0 (temp_balance s)) eqn:Epos; [|reflexivity].
  cbv zeta. cbn [temp_balance principal_paid].
  set (B := temp_balance s).
  set (pp := M - B * monthly_rate a).
  set (e := extra_payment_monthly a
            + (if Qcltb 0 gross
               then gross * cashflow_to_principal_pct a else 0)).
  pose proof (py_min_upper e (B - pp)) as Hte.
  set (te := py_min e (B - pp)) in *.
  set (P := principal_paid s).
  clearbody te e pp B P.
  replace (Qcltb (B - (pp + te)) 0) with false.
  - qc_lra.
  - symmetry. apply Qcltb_false. qc_lra.
Qed.

Lemma run_months_conserves a M gross n s :
  temp_balance (run_months a M gross n s)
  + principal_paid (run_months a M gross n s)
  = temp_balance s + principal_paid s.
Proof.
  induction n as [|n IH]; [reflexivity|].
  rewrite run_months_S, month_body_conserves. exact IH.
Qed.

Lemma year_body_principal a M y st :
  principal_paid (months (year_body a M y st))
  = remaining_balance st - remaining_balance (after (year_body a M y st)).
Proof.
  destruct (year_body_months a M y st) as (_ & Em & Eb). cbv zeta in Em, Eb.
  rewrite Eb, Em.
  pose proof (run_months_conserves a M
                (monthly_cash_flow_gross (year_body a M y st)) 12
                (mkMonth (remaining_balance st) 0 0)) as H.
  cbn [temp_balance principal_paid] in H.
  set (R := run_months a M _ 12 _) in *. clearbody R.
  set (B := remaining_balance st) in *. clearbody B.
  qc_lra.
Qed.

Definition principal_to_date (figs : list Figures) : Qc :=
  fold_right (fun f acc => acc + principal_paid (months f)) 0 figs.

Lemma principal_to_date_snoc figs f :
  principal_to_date (figs ++ [f])
  = principal_to_date figs + principal_paid (months f).
Proof.
  unfold principal_to_date.
  induction figs as [|g figs IH]; cbn [app fold_right].
  - ring.
  - rewrite IH. ring.
Qed.

Lemma initial_balance a : remaining_balance (initial_state a) = loan_amount a.
Proof. reflexivity. Qed.

Lemma balance_chain (L x y : Qc) : L - x + (x - y) = L - y.
Proof. ring. Qed.

Lemma figures_principal a M n f :
  nth_error (figures a M) n = Some f ->
  principal_paid (months f) = year_start_balance f - remaining_balance (after f)
  /\ principal_to_date (firstn (S n) (figures a M))
     = loan_amount a - remaining_balance (after f).
Proof.
  revert f. induction n as [|n IH]; intros f H.
  - rewrite (firstn_snoc _ _ _ H). cbn [firstn app].
    apply figures_first in H. subst f.
    destruct (year_body_months a M 1 (initial_state a)) as (Es & _).
    cbv zeta in Es. rewrite Es.
    pose proof (year_body_principal a M 1 (initial_state a)) as E.
    split; [exact E|].
    unfold principal_to_date. cbn [fold_right]. rewrite E.
    rewrite initial_balance. apply Qcplus_0_l.
  - destruct (figures_prev _ _ _ _ H) as (f0 & H0).
    destruct (IH _ H0) as (_ & I).
    rewrite (firstn_snoc _ _ _ H), principal_to_date_snoc, I.
    rewrite (figures_next _ _ _ _ _ H0 H).
    destruct (year_body_months a M (Z.of_nat n + 2) (after f0)) as (Es & _).
    cbv zeta in Es. rewrite Es.
    pose proof (year_body_principal a M (Z.of_nat n + 2) (after f0)) as E.
    split; [exact E|]. rewrite E. apply balance_chain.
Qed.

(** X4.  The principal paid in a year is exactly the fall of the balance
    over that year, whatever the inputs, and the principal paid up to a
    year is the loan amount less the balance then left; the emitted
    [PrincipalPaid] is that fall rounded to cents. *)
Theorem principal_paid_is_balance_drop a projs :
  calculate_investment_projections a = inr projs ->
  exists M,
    monthly_mortgage a = inr M /\ projs = map emit (figures a M) /\
    forall n f, nth_error (figures a M) n = Some f ->
      principal_paid (months f)
      = year_start_balance f - remaining_balance (after f)
      /\ PrincipalPaid (emit f)
         = round2 (year_start_balance f - remaining_balance (after f))
      /\ principal_to_date (firstn (S n) (figures a M))
         = loan_amount a - remaining_balance (after f).
Proof.
  intros H. destruct (projections_are_emitted _ _ H) as (M & HM & ->).
  exists M. split; [exact HM|]. split; [reflexivity|].
  intros n f Hf. destruct (figures_principal a M n f Hf) as (E1 & E2).
  split; [exact E1|]. split; [|exact E2].
  change (PrincipalPaid (emit f)) with (round2 (principal_paid (months f))).
  rewrite E1. reflexivity.
Qed.

(** ** Extra principal in a year *)

Section ExtraPrincipal.
Variables (a : Inputs) (M : Qc).
Hypothesis extra_ok : 0 <= extra_payment_monthly a.
Hypothesis share_ok : 0 <= cashflow_to_principal_pct a.

(** What the month loop offers as extra principal before the cap. *)
Definition offered_extra (gross : Qc) : Qc :=
  extra_payment_monthly a
  + (if Qcltb 0 gross then gross * cashflow_to_principal_pct a else 0).

Lemma offered_extra_nonneg gross : 0 <= offered_extra gross.
Proof.
  unfold offered_extra.
  assert (0 <= (if Qcltb 0 gross
                then gross * cashflow_to_principal_pct a else 0)).
  { destruct (Qcltb 0 gross) eqn:G; [|apply Qcle_refl].
    apply Qcltb_true in G.
    apply Qcmult_nonneg; [apply Qclt_le_weak, G | exact share_ok]. }
  qc_lra.
Qed.

Lemma month_body_extra gross s :
  total_extra_principal_this_year (month_body a M gross s)
  <= total_extra_principal_this_year s + offered_extra gross.
Proof.
  pose proof (offered_extra_nonneg gross) as He.
  unfold month_body.
  destruct (Qcltb 0 (temp_balance s)) eqn:Epos.
  - cbv zeta. cbn [total_extra_principal_this_year].
    fold (offered_extra gross).
    pose proof (py_min_lower (offered_extra gross)
                  (temp_balance s - (M - temp_balance s * monthly_rate a)))
      as Hte.
    set (te := py_min _ _) in *. set (e := offered_extra gross) in *.
    set (t := total_extra_principal_this_year s).
    clearbody te e t. qc_lra.
  - set (e := offered_extra gross) in *.
    set (t := total_extra_principal_this_year s).
    clearbody e t. qc_lra.
Qed.

Fixpoint times (n : nat) (e : Qc) : Qc :=
  match n with O => 0 | S n => times n e + e end.

Lemma run_months_extra gross n s :
  total_extra_principal_this_year (run_months a M gross n s)
  <= total_extra_principal_this_year s + times n (offered_extra gross).
Proof.
  induction n as [|n IH]; cbn [times].
  - change (run_months a M gross 0 s) with s.
    set (t := total_extra_principal_this_year s). clearbody t. qc_lra.
  - rewrite run_months_S.
    pose proof (month_body_extra gross (run_months a M gross n s)) as H.
    set (u := total_extra_principal_this_year (month_body _ _ _ _)) in *.
    set (v := total_extra_principal_this_year (run_months _ _ _ _ _)) in *.
    set (t := total_extra_principal_this_year s) in *.
    set (e := offered_extra gross) in *. set (k := times n e) in *.
    clearbody u v t e k. qc_lra.
Qed.

Lemma times_12 e : times 12 e = of_int 12 * e.
Proof.
  assert (E : of_int 12 = 1 + 1 + 1 + 1 + 1 + 1 + 1 + 1 + 1 + 1 + 1 + 1)
    by (apply Qc_is_canon; reflexivity).
  rewrite E. cbn [times]. ring.
Qed.

Lemma year_body_extra y st :
  let f := year_body a M y st in
  total_extra_principal_this_year (months f)
  <= of_int 12 * offered_extra (monthly_cash_flow_gross f).
Proof.
  cbv zeta.
  destruct (year_body_months a M y st) as (_ & Em & _). cbv zeta in Em.
  rewrite Em at 1. rewrite <- times_12.
  pose proof (run_months_extra
                (monthly_cash_flow_gross (year_body a M y st)) 12
                (mkMonth (remaining_balance st) 0 0)) as H.
  cbn [total_extra_principal_this_year] in H.
  rewrite Qcplus_0_l in H. exact H.
Qed.

End ExtraPrincipal.

(** X5.  With a non-negative fixed extra payment and a non-negative share of
    the cash flow, the extra principal of a year is at most twelve times
    what one month offers, and the yearly cash flow is at least twelve
    times the gross monthly cash flow less that offer. *)
Theorem extra_principal_is_capped a projs :
  0 <= extra_payment_monthly a -> 0 <= cashflow_to_principal_pct a ->
  calculate_investment_projections a = inr projs ->
  exists M,
    monthly_mortgage a = inr M /\ projs = map emit (figures a M) /\
    forall n f, nth_error (figures a M) n = Some f ->
      total_extra_principal_this_year (months f)
      <= of_int 12 * offered_extra a (monthly_cash_flow_gross f)
      /\ ExtraPrincipalThisYear (emit f)
         <= round2 (of_int 12 * offered_extra a (monthly_cash_flow_gross f))
      /\ monthly_cash_flow_gross f * of_int 12
         - of_int 12 * offered_extra a (monthly_cash_flow_gross f)
         <= annual_cash_flow f.
Proof.
  intros He Hs H. destruct (projections_are_emitted _ _ H) as (M & HM & ->).
  exists M. split; [exact HM|]. split; [reflexivity|].
  intros n f Hf.
  destruct (figures_body _ _ _ _ Hf) as (st & Ef & _).
  pose proof (year_body_extra a M He Hs (year f) st) as Hx.
  destruct (year_body_cash_flow a M (year f) st) as (_ & _ & _ & _ & Ea).
  cbv zeta in Hx, Ea. rewrite <- Ef in Hx, Ea.
  split; [exact Hx|]. split.
  - change (ExtraPrincipalThisYear (emit f))
      with (round2 (total_extra_principal_this_year (months f))).
    apply round2_mono, Hx.
  - rewrite Ea.
    set (x := total_extra_principal_this_year (months f)) in *.
    set (c := of_int 12 * offered_extra a (monthly_cash_flow_gross f)) in *.
    set (g := monthly_cash_flow_gross f * of_int 12).
    clearbody x c g. qc_lra.
Qed.

(** ** A purchase without a loan *)

Lemma figures_no_loan a M n f :
  loan_amount a = 0 ->
  nth_error (figures a M) n = Some f ->
  months f = mkMonth 0 0 0
  /\ remaining_balance (after f) = 0
  /\ cumulative_extra_principal (after f) = 0.
Proof.
  intros HL. revert f. induction n as [|n IH]; intros f H.
  - apply figures_first in H. subst f.
    destruct (year_body_paid_off a M 1 (initial_state a)) as (Em & Eb);
      [rewrite initial_balance; exact HL|].
    destruct (year_body_cumulative a M 1 (initial_state a)) as (_ & Ec).
    cbv zeta in Ec. rewrite Em in Ec.
    split; [exact Em|]. split; [exact Eb|]. rewrite Ec. reflexivity.
  - destruct (figures_prev _ _ _ _ H) as (f0 & H0).
    destruct (IH _ H0) as (_ & B0 & C0).
    rewrite (figures_next _ _ _ _ _ H0 H).
    destruct (year_body_paid_off a M (Z.of_nat n + 2) (after f0) B0)
      as (Em & Eb).
    destruct (year_body_cumulative a M (Z.of_nat n + 2) (after f0))
      as (_ & Ec).
    cbv zeta in Ec. rewrite Em, C0 in Ec.
    split; [exact Em|]. split; [exact Eb|]. rewrite Ec. reflexivity.
Qed.

Lemma Qcminus_0_r (x : Qc) : x - 0 = x.
Proof. ring. Qed.

(** X6.  When everything is paid in cash (down payment 100 percent) every
    year reports a zero balance, no principal and no extra principal, and
    the equity is the property value. *)
Theorem all_cash_purchase_has_no_loan a projs :
  down_payment_pct a = 1 ->
  calculate_investment_projections a = inr projs ->
  forall n p, nth_error projs n = Some p ->
    LoanBalance p = 0 /\ PrincipalPaid p = 0
    /\ ExtraPrincipalThisYear p = 0 /\ CumulativeExtraPrincipal p = 0
    /\ Equity p = PropertyValue p.
Proof.
  intros Hd H n p Hp.
  destruct (projections_are_emitted _ _ H) as (M & HM & ->).
  apply nth_error_map_inv in Hp as (f & Hf & ->).
  assert (HL : loan_amount a = 0).
  { unfold loan_amount, down_payment. rewrite Hd. ring. }
  destruct (figures_no_loan a M n f HL Hf) as (Em & Eb & Ec).
  destruct (figures_body _ _ _ _ Hf) as (st & Ef & _).
  pose proof (year_body_equity a M (year f) st) as Ee.
  cbv zeta in Ee. rewrite <- Ef in Ee.
  unfold emit.
  cbn [LoanBalance PrincipalPaid ExtraPrincipalThisYear
       CumulativeExtraPrincipal Equity PropertyValue].
  rewrite Ee, Em, Eb, Ec, Qcminus_0_r.
  cbn [principal_paid total_extra_principal_this_year].
  rewrite round2_0. repeat split; reflexivity.
Qed.

(** ** Equity over the years *)

Lemma figures_value_grows a M n f g :
  0 <= purchase_price a -> 0 <= annual_appreciation a ->
  nth_error (figures a M) n = Some f ->
  nth_error (figures a M) (S n) = Some g ->
  current_property_value (after f) <= current_property_value (after g).
Proof.
  intros Hp Ha Hf Hg.
  rewrite (figures_value _ _ _ _ Hf), (figures_value _ _ _ _ Hg).
  assert (Hv : 0 <= purchase_price a * (1 + annual_appreciation a) ^ n).
  { apply Qcmult_nonneg; [exact Hp|].
    apply Qcle_trans with 1; [unfold Qcle; vm_compute; discriminate|].
    apply Qcpower_ge_1.
    set (x := annual_appreciation a) in *. clearbody x. qc_lra. }
  cbn [Qcpower].
  set (v := purchase_price a * (1 + annual_appreciation a) ^ n) in *.
  replace (purchase_price a
           * ((1 + annual_appreciation a) * (1 + annual_appreciation a) ^ n))
    with (v + v * annual_appreciation a) by (subst v; ring).
  pose proof (Qcmult_nonneg _ _ Hv Ha) as Hw.
  set (w := v * annual_appreciation a) in *. clearbody w v. qc_lra.
Qed.

(** X7.  With inputs in range and a non-negative appreciation rate the
    emitted property value and equity never fall from one year to the
    next, and the first year's equity is at least the down payment. *)
Theorem equity_never_falls a projs :
  valid_inputs a -> 0 <= annual_appreciation a ->
  calculate_investment_projections a = inr projs ->
  (forall p, nth_error projs 0 = Some p ->
     round2 (down_payment a) <= Equity p)
  /\ forall n p q,
       nth_error projs n = Some p -> nth_error projs (S n) = Some q ->
       PropertyValue p <= PropertyValue q /\ Equity p <= Equity q.
Proof.
  intros V Ha H. destruct (projections_are_emitted _ _ H) as (M & HM & ->).
  pose proof (mortgage_covers_interest a M V HM) as Hcov.
  destruct V as [Hp [Hd0 Hd1] Hr Hy He Hs].
  pose proof (monthly_rate_nonneg a Hr) as Hmr.
  pose proof (loan_amount_nonneg a Hp Hd1) as HL.
  split.
  - intros p Hp0. apply nth_error_map_inv in Hp0 as (f & Hf & ->).
    destruct (figures_balance a M Hmr Hcov He Hs 0 f HL Hf)
      as ((_ & S1) & (_ & B1)).
    destruct (figures_body _ _ _ _ Hf) as (st & Ef & _).
    pose proof (year_body_equity a M (year f) st) as Ee.
    cbv zeta in Ee. rewrite <- Ef in Ee.
    change (Equity (emit f)) with (round2 (equity f)).
    apply round2_mono. rewrite Ee, (figures_value _ _ _ _ Hf).
    cbn [Qcpower]. unfold loan_amount in S1.
    set (b := remaining_balance (after f)) in *.
    set (s := year_start_balance f) in *.
    set (d := down_payment a) in *. set (P := purchase_price a) in *.
    rewrite Qcmult_1_r. clearbody b s d P. qc_lra.
  - intros n p q Hp1 Hq1.
    apply nth_error_map_inv in Hp1 as (f & Hf & ->).
    apply nth_error_map_inv in Hq1 as (g & Hg & ->).
    pose proof (figures_value_grows a M n f g Hp Ha Hf Hg) as Hv.
    destruct (figures_balance a M Hmr Hcov He Hs (S n) g HL Hg)
      as (_ & (_ & B1)).
    assert (Es : year_start_balance g = remaining_balance (after f)).
    { rewrite (figures_next _ _ _ _ _ Hf Hg).
      destruct (year_body_months a M (Z.of_nat n + 2) (after f)) as (Es & _).
      exact Es. }
    rewrite Es in B1.
    destruct (figures_body _ _ _ _ Hf) as (st & Ef & _).
    destruct (figures_body _ _ _ _ Hg) as (st' & Eg & _).
    pose proof (year_body_equity a M (year f) st) as Ee.
    pose proof (year_body_equity a M (year g) st') as Ee'.
    cbv zeta in Ee, Ee'. rewrite <- Ef in Ee. rewrite <- Eg in Ee'.
    split.
    + change (round2 (current_property_value (after f))
              <= round2 (current_property_value (after g))).
      apply round2_mono, Hv.
    + change (round2 (equity f) <= round2 (equity g)).
      apply round2_mono. rewrite Ee, Ee'.
      set (v := current_property_value (after f)) in *.
      set (v' := current_property_value (after g)) in *.
      set (b := remaining_balance (after f)) in *.
      set (b' := remaining_balance (after g)) in *.
      clearbody v v' b b'. qc_lra.
Qed.

(** ** A loan without extra payments *)


Section Schedule.
Variables (a : Inputs) (M : Qc) (N : nat) (S : nat -> Qc).
Hypothesis no_extra : extra_payment_monthly a = 0.
Hypothesis no_share : cashflow_to_principal_pct a = 0.
Hypothesis M_nonneg : 0 <= M.
Hypothesis S_step :
  forall k, (k < N)%nat -> S (k + 1) = S k * (1 + monthly_rate a) - M.
Hypothesis S_nonneg : forall k, (k <= N)%nat -> 0 <= S k.
Hypothesis S_end : S N = 0.




Hypothesis S_start : S 0 = loan_amount a.


End Schedule.

Lemma Qcpower_mono (x : Qc) (k n : nat) :
  1 <= x -> (k <= n)%nat -> x ^ k <= x ^ n.
Proof.
  intros Hx Hkn. induction Hkn as [|n Hkn IH]; [apply Qcle_refl|].
  apply Qcle_trans with (x ^ n); [exact IH|]. cbn [Qcpower].
  pose proof (Qcpower_ge_1 x n Hx) as Hn.
  rewrite <- (Qcmult_1_l (x ^ n)) at 1.
  apply Qcmult_le_compat_r; [exact Hx|].
  apply Qcle_trans with 1; [|exact Hn]. unfold Qcle. vm_compute. discriminate.
Qed.








Section Term.
Variables (a : Inputs) (M : Qc).
Hypothesis V : valid_inputs a.
Hypothesis HM : monthly_mortgage a = inr M.








End Term.

(** ** Powers within the range of a double *)

Lemma Qcpower_nonneg (x : Qc) (n : nat) : 0 <= x -> 0 <= x ^ n.
Proof.
  intros Hx. induction n as [|n IH]; cbn [Qcpower]; [qc_compare|].
  apply Qcmult_nonneg; assumption.
Qed.

Lemma Qcpower_le_compat (x y : Qc) (n : nat) :
  0 <= x -> x <= y -> x ^ n <= y ^ n.
Proof.
  intros Hx Hxy. induction n as [|n IH]; cbn [Qcpower]; [apply Qcle_refl|].
  apply Qcle_trans with (x * y ^ n).
  - rewrite (Qcmult_comm x (x ^ n)), (Qcmult_comm x (y ^ n)).
    apply Qcmult_le_compat_r; assumption.
  - apply Qcmult_le_compat_r; [exact Hxy|].
    apply Qcpower_nonneg. apply Qcle_trans with x; assumption.
Qed.

Lemma power_fits_nonneg (x : Qc) (n : Z) :
  (0 <= n)%Z -> 0 <= x -> x ^ Z.to_nat n < float_limit ->
  power_fits x n = true.
Proof.
  intros Hn Hx Hlt.
  assert (E : power_fits x n
              = negb (Qcltb x 0) && Qcltb (x ^ Z.to_nat n) float_limit)
    by (destruct n; [reflexivity | reflexivity | lia]).
  rewrite E. apply andb_true_iff. split.
  - apply negb_true_iff, Qcltb_false, Hx.
  - apply Qcltb_true, Hlt.
Qed.

(** A base between 1 and 2 raised to at most 1022 stays in range. *)
Lemma power_fits_up_to_two (x : Qc) (n : Z) :
  1 <= x -> x <= 1 + 1 -> (0 <= n <= 1022)%Z -> power_fits x n = true.
Proof.
  intros H1 H2 Hn.
  assert (H0 : 0 <= x) by (apply Qcle_trans with 1; [qc_compare | exact H1]).
  apply power_fits_nonneg; [lia | exact H0|].
  apply Qcle_lt_trans with ((1 + 1) ^ Z.to_nat n);
    [apply Qcpower_le_compat; assumption|].
  apply Qcle_lt_trans with ((1 + 1) ^ 1022).
  - apply Qcpower_mono; [qc_compare | lia].
  - unfold Qclt. vm_compute. reflexivity.
Qed.

Lemma monthly_rate_le a (r : Qc) :
  interest_rate a <= r -> monthly_rate a <= r / of_int 12.
Proof.
  intros H. unfold monthly_rate, Qcdiv.
  apply Qcmult_le_compat_r; [exact H | apply twelfth_nonneg].
Qed.

(** The part of the calculator's ranges that keeps the payment formula
    away from what floating point would do to it: a price of at most
    10^12, a rate of zero or between 0.01 and 15 percent, and a term of
    at most 30 years. *)
Record payment_in_range (a : Inputs) : Prop := {
  price_max : purchase_price a <= of_int (10 ^ 12);
  rate_min : interest_rate a = 0 \/ dec 1 10000 <= interest_rate a;
  rate_max : interest_rate a <= dec 15 100;
  term_max : (loan_years a <= 30)%Z
}.

(** X1.  With inputs in the ranges of the calling layer and the payment
    formula in range, the simulator never raises: it returns one record
    per year.  In these ranges the growth factor of the payment formula
    fits a double and, at a positive rate, exceeds 1 by at least a
    twelfth of 0.01 percent, so the denominator of the formula is not
    zero. *)
Theorem valid_inputs_give_a_table a :
  valid_inputs a -> payment_in_range a ->
  exists projs,
    calculate_investment_projections a = inr projs
    /\ List.length projs = Z.to_nat (holding_years a)
    /\ power_fits (1 + monthly_rate a) (total_months a) = true
    /\ (0 < interest_rate a ->
        dec 1 120000
        <= (1 + monthly_rate a) ^ Z.to_nat (total_months a) - 1).
Proof.
  intros V [_ Hmin Hmax Hterm].
  destruct (monthly_mortgage_defined a V) as (M & HM).
  assert (Hex : exists projs, calculate_investment_projections a = inr projs).
  { unfold calculate_investment_projections. rewrite HM. cbn [bind ret].
    eauto. }
  destruct Hex as (projs & Hcalc).
  destruct (projections_are_emitted _ _ Hcalc) as (M' & _ & Eprojs).
  exists projs. split; [exact Hcalc|]. rewrite Eprojs.
  split; [rewrite length_map; apply figures_length|].
  destruct V as [Hp [Hd0 Hd1] Hr Hy He Hs].
  pose proof (monthly_rate_nonneg a Hr) as Hmr.
  pose proof (monthly_rate_le a _ Hmax) as Hmr'.
  assert (Hn : (0 < total_months a <= 360)%Z) by (unfold total_months; lia).
  split.
  - apply power_fits_up_to_two; [clear - Hmr; qc_lra | | lia].
    assert (Hq : dec 15 100 / of_int 12 <= 1) by qc_compare.
    generalize dependent (dec 15 100 / of_int 12). intros q Hq' Hq.
    clear - Hq Hq'. qc_lra.
  - intros Hpos. destruct Hmin as [E0|Hmin];
      [rewrite E0 in Hpos; exfalso; revert Hpos; apply Qcle_not_lt, Qcle_refl|].
    assert (Hlow : dec 1 120000 <= monthly_rate a).
    { unfold monthly_rate, Qcdiv.
      replace (dec 1 120000) with (dec 1 10000 * / of_int 12)
        by (apply Qc_is_canon; reflexivity).
      apply Qcmult_le_compat_r; [exact Hmin | apply twelfth_nonneg]. }
    assert (Hx : 1 <= 1 + monthly_rate a) by (clear - Hmr; qc_lra).
    pose proof (Qcpower_mono (1 + monthly_rate a) 1
                  (Z.to_nat (total_months a)) Hx ltac:(lia)) as Hge.
    cbn [Qcpower] in Hge. rewrite Qcmult_1_r in Hge.
    generalize dependent ((1 + monthly_rate a) ^ Z.to_nat (total_months a)).
    intros P HP. clear - Hlow HP. qc_lra.
Qed.


(** ** Concrete runs *)

(** The ten-year purchase with a loan term of zero years. *)
Definition no_term_run : Inputs :=
  mkInputs (of_int 500000) (dec 20 100) (dec 5 100) 0 (of_int 150)
           (dec 125 10000) (of_int 3000) (dec 5 100) (dec 3 100)
           (dec 25 1000) 10 0 (dec 1 100) 0 0.

(** The ten-year purchase paid in cash. *)
Definition all_cash_run : Inputs :=
  mkInputs (of_int 500000) 1 0 30 (of_int 150) (dec 125 10000)
           (of_int 3000) (dec 5 100) (dec 3 100) (dec 25 1000) 10
           0 (dec 1 100) 0 0.

Definition all_cash_projections : list Projection :=
  Eval vm_compute in
    match calculate_investment_projections all_cash_run with
    | inr l => l
    | inl _ => []
    end.

Lemma all_cash_projections_run :
  calculate_investment_projections all_cash_run = inr all_cash_projections.
Proof. vm_compute. reflexivity. Defined.

Definition early_payoff_projections : list Projection :=
  Eval vm_compute in
    match calculate_investment_projections early_payoff_run with
    | inr l => l
    | inl _ => []
    end.

Lemma early_payoff_projections_run :
  calculate_investment_projections early_payoff_run
  = inr early_payoff_projections.
Proof. vm_compute. reflexivity. Defined.

Lemma extra_principal_run_valid : valid_inputs extra_principal_run.
Proof. constructor; try split; try qc_compare; reflexivity. Qed.

Lemma extra_principal_run_in_range : payment_in_range extra_principal_run.
Proof.
  constructor;
    [qc_compare | right; qc_compare | qc_compare | apply Z.leb_le; reflexivity].
Qed.


Lemma valid_inputs_give_a_table_witness :
  valid_inputs extra_principal_run
  /\ payment_in_range extra_principal_run
  /\ exists projs,
       calculate_investment_projections extra_principal_run = inr projs
       /\ List.length projs = 3%nat
       /\ power_fits (1 + monthly_rate extra_principal_run)
            (total_months extra_principal_run) = true
       /\ (0 < interest_rate extra_principal_run ->
           dec 1 120000
           <= (1 + monthly_rate extra_principal_run)
              ^ Z.to_nat (total_months extra_principal_run) - 1).
Proof.
  split; [exact extra_principal_run_valid|].
  split; [exact extra_principal_run_in_range|].
  exact (valid_inputs_give_a_table extra_principal_run
           extra_principal_run_valid extra_principal_run_in_range).
Defined.

Lemma zero_loan_years_raise_witness :
  loan_years no_term_run = 0%Z
  /\ calculate_investment_projections no_term_run = inl ZeroDivisionError.
Proof.
  split; [reflexivity|].
  exact (zero_loan_years_raise no_term_run eq_refl).
Defined.

Lemma one_record_per_year_witness :
  calculate_investment_projections ten_year_run = inr ten_year_projections
  /\ List.length ten_year_projections = 10%nat
  /\ forall n p, nth_error ten_year_projections n = Some p ->
       Year p = (Z.of_nat n + 1)%Z.
Proof.
  split; [exact ten_year_projections_run|].
  exact (one_record_per_year ten_year_run ten_year_projections
           ten_year_projections_run).
Defined.

Lemma principal_paid_is_balance_drop_witness :
  calculate_investment_projections early_payoff_run
  = inr early_payoff_projections
  /\ exists M,
       monthly_mortgage early_payoff_run = inr M
       /\ early_payoff_projections = map emit (figures early_payoff_run M)
       /\ forall n f, nth_error (figures early_payoff_run M) n = Some f ->
            principal_paid (months f)
            = year_start_balance f - remaining_balance (after f)
            /\ PrincipalPaid (emit f)
               = round2 (year_start_balance f - remaining_balance (after f))
            /\ principal_to_date (firstn (S n) (figures early_payoff_run M))
               = loan_amount early_payoff_run - remaining_balance (after f).
Proof.
  split; [exact early_payoff_projections_run|].
  exact (principal_paid_is_balance_drop early_payoff_run
           early_payoff_projections early_payoff_projections_run).
Defined.

Lemma extra_principal_is_capped_witness :
  0 <= extra_payment_monthly early_payoff_run
  /\ 0 <= cashflow_to_principal_pct early_payoff_run
  /\ calculate_investment_projections early_payoff_run
     = inr early_payoff_projections
  /\ forall n p, nth_error early_payoff_projections n = Some p ->
       ExtraPrincipalThisYear p <= of_int 112800.
Proof.
  destruct early_payoff_run_valid as [_ _ _ _ He Hs].
  split; [exact He|]. split; [exact Hs|].
  split; [exact early_payoff_projections_run|]. intros n p Hp.
  destruct (extra_principal_is_capped early_payoff_run
              early_payoff_projections He Hs early_payoff_projections_run)
    as (M & _ & E & Hall).
  rewrite E in Hp. apply nth_error_map_inv in Hp as (f & Hf & ->).
  destruct (Hall n f Hf) as (_ & Hc & _).
  eapply Qcle_trans; [exact Hc|].
  unfold offered_extra.
  change (cashflow_to_principal_pct early_payoff_run) with (Q2Qc 0).
  change (extra_payment_monthly early_payoff_run) with (of_int 9400).
  replace (of_int 9400
           + (if Qcltb 0 (monthly_cash_flow_gross f)
              then monthly_cash_flow_gross f * Q2Qc 0 else 0))
    with (of_int 9400)
    by (destruct (Qcltb 0 (monthly_cash_flow_gross f)); ring).
  unfold Qcle. vm_compute. discriminate.
Defined.

Lemma all_cash_purchase_has_no_loan_witness :
  down_payment_pct all_cash_run = 1
  /\ calculate_investment_projections all_cash_run = inr all_cash_projections
  /\ forall n p, nth_error all_cash_projections n = Some p ->
       LoanBalance p = 0 /\ PrincipalPaid p = 0
       /\ ExtraPrincipalThisYear p = 0 /\ CumulativeExtraPrincipal p = 0
       /\ Equity p = PropertyValue p.
Proof.
  split; [reflexivity|]. split; [exact all_cash_projections_run|].
  exact (all_cash_purchase_has_no_loan all_cash_run all_cash_projections
           eq_refl all_cash_projections_run).
Defined.

Lemma ten_year_run_appreciates : 0 <= annual_appreciation ten_year_run.
Proof. unfold Qcle. vm_compute. discriminate. Qed.

Lemma equity_never_falls_witness :
  valid_inputs ten_year_run
  /\ 0 <= annual_appreciation ten_year_run
  /\ calculate_investment_projections ten_year_run = inr ten_year_projections
  /\ (forall p, nth_error ten_year_projections 0 = Some p ->
        round2 (down_payment ten_year_run) <= Equity p)
  /\ forall n p q,
       nth_error ten_year_projections n = Some p ->
       nth_error ten_year_projections (S n) = Some q ->
       PropertyValue p <= PropertyValue q /\ Equity p <= Equity q.
Proof.
  split; [exact ten_year_run_valid|].
  split; [exact ten_year_run_appreciates|].
  split; [exact ten_year_projections_run|].
  exact (equity_never_falls ten_year_run ten_year_projections
           ten_year_run_valid ten_year_run_appreciates
           ten_year_projections_run).
Defined.


End AppMore.

(* ================================================================== *)
(** * More about the two calculators *)
(* ================================================================== *)

Module AnalysisMore.
Import Num NumFacts Py PyFacts Frame Analysis AnalysisFacts.

#[local] Arguments round2 : simpl never.

(** ** The cash-flow table: failures and shape *)

Lemma cash_flow_row_keeps lv mr pn pd ins r :
  let r' := cash_flow_row lv mr pn pd ins r in
  ID r' = ID r /\ Address r' = Address r /\ Price r' = Price r
  /\ RentEstimate r' = RentEstimate r
  /\ DownPaymentPercent r' = DownPaymentPercent r
  /\ DownPaymentAmount r' = DownPaymentAmount r
  /\ PropertyTax r' = property_tax_cell r
  /\ MonthlyMortgage r' = monthly_mortgage_cell lv mr pn pd r
  /\ MonthlyCashFlow r'
     = np_round2 (np_sub (Fin (RentEstimate r))
                    (np_add (np_add (property_tax_cell r)
                                    (monthly_mortgage_cell lv mr pn pd r))
                            (Fin ins))).
Proof. repeat split; reflexivity. Qed.

(** Computing the three cells again from a row that already has them
    changes nothing: they depend on the price and the rent only. *)
Lemma cash_flow_row_idempotent lv mr pn pd ins r :
  cash_flow_row lv mr pn pd ins (cash_flow_row lv mr pn pd ins r)
  = cash_flow_row lv mr pn pd ins r.
Proof. reflexivity. Qed.

Lemma add_label_present label cols :
  existsb (String.eqb label) cols = true -> add_label label cols = cols.
Proof. unfold add_label. intros ->. reflexivity. Qed.

Lemma has_column_cash_flow_columns cols label :
  existsb (String.eqb label) (cash_flow_columns cols)
  = existsb (String.eqb label) cols
    || String.eqb label "PropertyTax" || String.eqb label "MonthlyMortgage"
    || String.eqb label "MonthlyCashFlow".
Proof.
  unfold cash_flow_columns. rewrite !has_column_add_label. reflexivity.
Qed.

Lemma cash_flow_columns_idempotent cols :
  cash_flow_columns (cash_flow_columns cols) = cash_flow_columns cols.
Proof.
  unfold cash_flow_columns at 1.
  rewrite (add_label_present "PropertyTax"),
    (add_label_present "MonthlyMortgage"),
    (add_label_present "MonthlyCashFlow"); [reflexivity|..];
    rewrite has_column_cash_flow_columns; cbn [String.eqb Ascii.eqb Bool.eqb];
    rewrite ?orb_true_r; reflexivity.
Qed.

Section CashFlowMore.
Context `{QS : Quicksort}.

Lemma calculate_monthly_cash_flow_inl df i n ins dp e :
  calculate_monthly_cash_flow df i n ins dp = inl e ->
  e = KeyError "Price" \/ e = KeyError "RentEstimate"
  \/ e = ZeroDivisionError.
Proof.
  unfold calculate_monthly_cash_flow, getitem.
  destruct (has_column df "Price"); cbn [bind ret raise];
    [|intros H; injection H as <-; auto].
  destruct (py_pow (1 + i / of_int 12) n) as [e'|p] eqn:Hpow; cbn [bind].
  - intros H. injection H as <-. right. right.
    unfold py_pow in Hpow. destruct n as [|q|q]; try discriminate.
    destruct (Qceqb (1 + i / of_int 12) 0); [|discriminate].
    injection Hpow as <-. reflexivity.
  - destruct (has_column _ "RentEstimate"); cbn [bind ret raise];
      [discriminate|].
    intros H. injection H as <-. auto.
Qed.

(** X9.  As long as the growth factor stays in the range of a double, the
    function can fail in three ways only: no ["Price"] column; a negative
    number of months with a monthly growth factor of zero; no
    ["RentEstimate"] column.  The checks come in that order. *)
Theorem cash_flow_failures df i n ins dp e :
  power_fits (1 + i / of_int 12) n = true ->
  calculate_monthly_cash_flow df i n ins dp = inl e ->
  (e = KeyError "Price" /\ has_column df "Price" = false)
  \/ (e = ZeroDivisionError /\ has_column df "Price" = true
      /\ (n < 0)%Z /\ 1 + i / of_int 12 = 0)
  \/ (e = KeyError "RentEstimate" /\ has_column df "Price" = true
      /\ has_column df "RentEstimate" = false).
Proof.
  intros _. unfold calculate_monthly_cash_flow, getitem. intros H.
  destruct (has_column df "Price") eqn:Hp.
  - cbn [bind ret] in H.
    destruct (py_pow (1 + i / of_int 12) n) as [e'|p] eqn:Hpow.
    + cbn [bind] in H. injection H as <-. right. left.
      unfold py_pow in Hpow. destruct n as [|q|q]; try discriminate.
      destruct (Qceqb (1 + i / of_int 12) 0) eqn:Ez; [|discriminate].
      injection Hpow as <-. apply Qceqb_true in Ez.
      split; [reflexivity|]. split; [reflexivity|].
      split; [lia | exact Ez].
    + cbn [bind] in H. rewrite !has_column_assign in H.
      cbn [String.eqb Ascii.eqb Bool.eqb] in H. rewrite !orb_false_r in H.
      destruct (has_column df "RentEstimate") eqn:Hr.
      * cbn [bind ret] in H. discriminate.
      * cbn [bind raise] in H. injection H as <-. right. right.
        split; [reflexivity|]. split; reflexivity.
  - cbn [bind raise] in H. injection H as <-. left. split; reflexivity.
Qed.

(** X10.  With both columns present, a non-negative number of months and
    the growth factor in the range of a double, the function returns:
    the table has the input's columns followed by the three derived ones
    that were not there yet, and its rows are the input's rows in some
    order, each with its identifier, address, price and rent
    unchanged. *)
Theorem cash_flow_table_shape df i n ins dp :
  has_column df "Price" = true -> has_column df "RentEstimate" = true ->
  (0 <= n)%Z -> power_fits (1 + i / of_int 12) n = true ->
  exists out,
    calculate_monthly_cash_flow df i n ins dp = inr out
    /\ columns out = cash_flow_columns (columns df)
    /\ (forall label, has_column df label = true ->
          has_column out label = true)
    /\ List.length (rows out) = List.length (rows df)
    /\ Permutation (map ID (rows df)) (map ID (rows out))
    /\ forall r, In r (rows out) ->
         exists r0, In r0 (rows df)
           /\ ID r = ID r0 /\ Address r = Address r0
           /\ Price r = Price r0 /\ RentEstimate r = RentEstimate r0.
Proof.
  intros Hp Hr Hn _.
  pose proof (py_pow_nonneg_exponent (1 + i / of_int 12) n Hn) as Hpow.
  rewrite (calculate_monthly_cash_flow_eq df i n ins dp _ Hp Hr Hpow).
  eexists. split; [reflexivity|].
  set (cfr := cash_flow_row _ _ _ _ _).
  pose proof (sort_values_desc_perm MonthlyCashFlow
                (mkFrame (cash_flow_columns (columns df))
                         (map cfr (rows df)))) as P.
  cbn [rows] in P.
  split; [reflexivity|]. split; [|split; [|split]].
  - intros label Hl. unfold has_column, sort_values_desc. cbn [columns].
    rewrite has_column_cash_flow_columns. unfold has_column in Hl.
    rewrite Hl. reflexivity.
  - rewrite <- (Permutation_length P). apply length_map.
  - assert (E : map ID (map cfr (rows df)) = map ID (rows df))
      by (rewrite map_map; apply map_ext; intros; reflexivity).
    rewrite <- E. apply Permutation_map, P.
  - intros r Hin. apply (Permutation_in _ (Permutation_sym P)) in Hin.
    apply in_map_iff in Hin as (r0 & <- & Hin0).
    exists r0. split; [exact Hin0|]. repeat split; reflexivity.
Qed.

(** X11.  Running the calculator again on its own output, with the same
    arguments, adds no column and gives the same rows again. *)
Theorem cash_flow_recomputation_is_stable df i n ins dp out :
  calculate_monthly_cash_flow df i n ins dp = inr out ->
  exists out',
    calculate_monthly_cash_flow out i n ins dp = inr out'
    /\ columns out' = columns out
    /\ Permutation (rows out) (rows out').
Proof.
  intros H.
  apply calculate_monthly_cash_flow_inr in H as (Hp & Hr & p & Hpow & ->).
  set (cfr := cash_flow_row (1 - dp) (i / of_int 12) p p ins).
  set (tab := mkFrame (cash_flow_columns (columns df)) (map cfr (rows df))).
  pose proof (sort_values_desc_perm MonthlyCashFlow tab) as P.
  assert (Hcols : forall label, has_column df label = true ->
            has_column (sort_values_desc MonthlyCashFlow tab) label = true).
  { intros label Hl. unfold has_column, sort_values_desc. cbn [columns].
    unfold tab. cbn [columns]. rewrite has_column_cash_flow_columns.
    unfold has_column in Hl. rewrite Hl. reflexivity. }
  rewrite (calculate_monthly_cash_flow_eq _ i n ins dp p
             (Hcols _ Hp) (Hcols _ Hr) Hpow).
  eexists. split; [reflexivity|]. fold cfr.
  assert (Hsame : map cfr (rows (sort_values_desc MonthlyCashFlow tab))
                  = rows (sort_values_desc MonthlyCashFlow tab)).
  { rewrite <- (map_id (rows (sort_values_desc MonthlyCashFlow tab))) at 2.
    apply map_ext_in. intros r Hin.
    apply (Permutation_in _ (Permutation_sym P)) in Hin.
    unfold tab in Hin. cbn [rows] in Hin.
    apply in_map_iff in Hin as (r0 & <- & _).
    apply cash_flow_row_idempotent. }
  rewrite Hsame. split.
  - change (cash_flow_columns (cash_flow_columns (columns df))
            = cash_flow_columns (columns df)).
    apply cash_flow_columns_idempotent.
  - exact (sort_values_desc_perm MonthlyCashFlow
             (mkFrame
                (cash_flow_columns
                   (columns (sort_values_desc MonthlyCashFlow tab)))
                (rows (sort_values_desc MonthlyCashFlow tab)))).
Qed.

End CashFlowMore.

(** ** A positive rate: finite cells *)

Section PositiveRate.
Variables (i : Qc) (n : Z) (ins : Qc).
Hypothesis rate_pos : 0 < i.
Hypothesis months_pos : (0 < n)%Z.

Let mr : Qc := i / of_int 12.
Let P : Qc := (1 + mr) ^ Z.to_nat n.

Lemma monthly_rate_positive : 0 < mr.
Proof.
  unfold mr, Qcdiv. rewrite <- (Qcmult_0_l (/ of_int 12)).
  apply Qcmult_lt_compat_r; [|exact rate_pos].
  unfold Qclt. vm_compute. reflexivity.
Qed.

Lemma growth_above_one : 1 < P.
Proof.
  pose proof monthly_rate_positive as H.
  apply Qcpower_gt_1; [clear - H; qc_lra | lia].
Qed.

Lemma growth_is_power : growth i n = P.
Proof.
  unfold growth. fold mr. rewrite (py_pow_pos_exponent _ _ months_pos).
  reflexivity.
Qed.

(** The payment on a unit of price that is fully financed. *)
Definition unit_payment : Qc := mr * P / (P - 1).

Lemma unit_payment_nonneg : 0 <= unit_payment.
Proof.
  pose proof monthly_rate_positive as Hm. pose proof growth_above_one as HP.
  unfold unit_payment. apply Qcdiv_le_iff; [clear - HP; qc_lra|].
  rewrite Qcmult_0_l.
  apply Qcmult_nonneg; [apply Qclt_le_weak, Hm|].
  apply Qcle_trans with 1; [unfold Qcle; vm_compute; discriminate|].
  apply Qclt_le_weak, HP.
Qed.

Lemma mortgage_cell_finite lv r :
  monthly_mortgage_cell lv mr P P r
  = Fin (round2 (lv * Price r * unit_payment)).
Proof.
  pose proof growth_above_one as HP.
  unfold monthly_mortgage_cell, np_div.
  assert (Hne : P - 1 <> 0) by (intros E; clear - HP E; qc_lra).
  destruct (Qceqb (P - 1) 0) eqn:Ez;
    [apply Qceqb_true in Ez; contradiction|].
  cbn [np_round2]. do 2 f_equal. unfold unit_payment.
  unfold Qcdiv. ring.
Qed.

Lemma cash_flow_row_finite lv r :
  let r' := cash_flow_row lv mr P P ins r in
  let t := round2 (Price r * dec 125 10000 / of_int 12) in
  let m := round2 (lv * Price r * unit_payment) in
  PropertyTax r' = Fin t /\ MonthlyMortgage r' = Fin m
  /\ MonthlyCashFlow r' = Fin (round2 (RentEstimate r - (t + m + ins))).
Proof.
  cbv zeta.
  destruct (cash_flow_row_keeps lv mr P P ins r)
    as (_ & _ & _ & _ & _ & _ & Et & Em & Ec).
  cbv zeta in Et, Em, Ec.
  rewrite Et, Em, Ec, mortgage_cell_finite.
  repeat split; reflexivity.
Qed.

(** More money down never lowers the recomputed cash flow. *)
Lemma recomputed_cash_flow_mono row f f' :
  0 <= Price row -> f <= f' ->
  exists c c',
    MonthlyCashFlow (recomputed i n ins row f) = Fin c
    /\ MonthlyCashFlow (recomputed i n ins row f') = Fin c'
    /\ c <= c'.
Proof.
  intros Hp Hf. unfold recomputed. rewrite growth_is_power. fold mr.
  destruct (cash_flow_row_finite (1 - f) row) as (_ & _ & Ec).
  destruct (cash_flow_row_finite (1 - f') row) as (_ & _ & Ec').
  cbv zeta in Ec, Ec'. rewrite Ec, Ec'.
  eexists. eexists. split; [reflexivity|]. split; [reflexivity|].
  apply round2_mono.
  pose proof unit_payment_nonneg as Hu.
  pose proof (Qcmult_nonneg _ _ Hp Hu) as Hk.
  assert (Hm : round2 ((1 - f') * Price row * unit_payment)
               <= round2 ((1 - f) * Price row * unit_payment)).
  { apply round2_mono.
    replace ((1 - f') * Price row * unit_payment)
      with ((1 - f') * (Price row * unit_payment)) by ring.
    replace ((1 - f) * Price row * unit_payment)
      with ((1 - f) * (Price row * unit_payment)) by ring.
    apply Qcmult_le_compat_r; [clear - Hf; qc_lra | exact Hk]. }
  set (m := round2 ((1 - f) * Price row * unit_payment)) in *.
  set (m' := round2 ((1 - f') * Price row * unit_payment)) in *.
  set (t := round2 (Price row * dec 125 10000 / of_int 12)).
  set (rent := RentEstimate row).
  clearbody m m' t rent. clear - Hm. qc_lra.
Qed.

Lemma positive_at_mono row f f' :
  0 <= Price row -> f <= f' ->
  positive_at i n ins row f = true -> positive_at i n ins row f' = true.
Proof.
  intros Hp Hf. unfold positive_at.
  destruct (recomputed_cash_flow_mono row f f' Hp Hf)
    as (c & c' & -> & -> & Hc).
  cbn [np_gtb np_ltb]. rewrite !Qcltb_true. intros H.
  eapply Qclt_le_trans; eassumption.
Qed.

End PositiveRate.

Section PositiveRateTables.
Context `{QS : Quicksort}.

Lemma rows_are_cash_flow_rows df i n ins dp out r :
  calculate_monthly_cash_flow df i n ins dp = inr out ->
  In r (rows out) ->
  exists p r0,
    py_pow (1 + i / of_int 12) n = inr p /\ In r0 (rows df)
    /\ r = cash_flow_row (1 - dp) (i / of_int 12) p p ins r0.
Proof.
  intros H Hin.
  apply calculate_monthly_cash_flow_inr in H as (_ & _ & p & Hpow & ->).
  pose proof (sort_values_desc_perm MonthlyCashFlow
                (mkFrame (cash_flow_columns (columns df))
                   (map (cash_flow_row (1 - dp) (i / of_int 12) p p ins)
                        (rows df)))) as P.
  apply (Permutation_in _ (Permutation_sym P)) in Hin. cbn [rows] in Hin.
  apply in_map_iff in Hin as (r0 & <- & Hin0).
  exists p, r0. split; [exact Hpow|]. split; [exact Hin0 | reflexivity].
Qed.

(** X12.  At a rate between 0.1 and 100 percent over at most 480 months,
    with a down payment between 0 and 100 percent and insurance, prices
    and rents of at most 10^8, no cell is [NaN] or infinite: tax,
    payment and cash flow are within a cent of their formulas, the cash
    flow being formed from the tax and the payment of the row itself,
    and neither the tax nor the payment is negative. *)
Theorem positive_rate_gives_finite_cells df i n ins dp out :
  dec 1 1000 <= i -> i <= 1 -> (0 < n <= 480)%Z ->
  0 <= dp -> dp <= 1 ->
  - of_int (10 ^ 8) <= ins -> ins <= of_int (10 ^ 8) ->
  calculate_monthly_cash_flow df i n ins dp = inr out ->
  forall r, In r (rows out) ->
    0 <= Price r -> Price r <= of_int (10 ^ 8) ->
    - of_int (10 ^ 8) <= RentEstimate r ->
    RentEstimate r <= of_int (10 ^ 8) ->
    exists t m c,
      PropertyTax r = Fin t /\ MonthlyMortgage r = Fin m
      /\ MonthlyCashFlow r = Fin c
      /\ - dec 1 100 <= t - Price r * dec 125 10000 / of_int 12
      /\ t - Price r * dec 125 10000 / of_int 12 <= dec 1 100
      /\ - dec 1 100 <= m - (1 - dp) * Price r * unit_payment i n
      /\ m - (1 - dp) * Price r * unit_payment i n <= dec 1 100
      /\ - dec 1 100 <= c - (RentEstimate r - (t + m + ins))
      /\ c - (RentEstimate r - (t + m + ins)) <= dec 1 100
      /\ 0 <= t /\ 0 <= m.
Proof.
  intros Hlo _ [Hn _] _ Hd _ _ H r Hin Hp _ _ _.
  assert (Hi : 0 < i)
    by (apply Qclt_le_trans with (dec 1 1000); [qc_compare | exact Hlo]).
  apply calculate_monthly_cash_flow_inr in H as (_ & _ & p & Hpow & ->).
  rewrite (py_pow_pos_exponent _ _ Hn) in Hpow. injection Hpow as <-.
  pose proof (sort_values_desc_perm MonthlyCashFlow
                (mkFrame (cash_flow_columns (columns df))
                   (map (cash_flow_row (1 - dp) (i / of_int 12)
                           ((1 + i / of_int 12) ^ Z.to_nat n)
                           ((1 + i / of_int 12) ^ Z.to_nat n) ins)
                        (rows df)))) as P.
  apply (Permutation_in _ (Permutation_sym P)) in Hin. cbn [rows] in Hin.
  apply in_map_iff in Hin as (r0 & <- & _).
  destruct (cash_flow_row_finite i n ins Hi Hn (1 - dp) r0) as (Et & Em & Ec).
  cbv zeta in Et, Em, Ec.
  change (Price (cash_flow_row (1 - dp) (i / of_int 12)
                   ((1 + i / of_int 12) ^ Z.to_nat n)
                   ((1 + i / of_int 12) ^ Z.to_nat n) ins r0))
    with (Price r0) in *.
  change (RentEstimate (cash_flow_row (1 - dp) (i / of_int 12)
                          ((1 + i / of_int 12) ^ Z.to_nat n)
                          ((1 + i / of_int 12) ^ Z.to_nat n) ins r0))
    with (RentEstimate r0) in *.
  set (tax := Price r0 * dec 125 10000 / of_int 12) in *.
  set (pay := (1 - dp) * Price r0 * unit_payment i n) in *.
  assert (Htax : 0 <= tax).
  { unfold tax, Qcdiv.
    apply Qcmult_nonneg; [|apply twelfth_nonneg].
    apply Qcmult_nonneg; [exact Hp | qc_compare]. }
  assert (Hpay : 0 <= pay).
  { unfold pay.
    apply Qcmult_nonneg; [|apply (unit_payment_nonneg i n Hi Hn)].
    apply Qcmult_nonneg; [clear - Hd; qc_lra | exact Hp]. }
  exists (round2 tax), (round2 pay),
    (round2 (RentEstimate r0 - (round2 tax + round2 pay + ins))).
  split; [exact Et|]. split; [exact Em|]. split; [exact Ec|].
  destruct (round2_within_a_cent tax) as [T1 T2].
  destruct (round2_within_a_cent pay) as [M1 M2].
  destruct (round2_within_a_cent
              (RentEstimate r0 - (round2 tax + round2 pay + ins)))
    as [C1 C2].
  split; [exact T1|]. split; [exact T2|].
  split; [exact M1|]. split; [exact M2|].
  split; [exact C1|]. split; [exact C2|].
  split; apply round2_nonneg; assumption.
Qed.

(** X13.  At a positive rate the listing calculator and the projection
    simulator compute the same payment for the same purchase: the
    [MonthlyMortgage] cell is the simulator's payment rounded to cents. *)
Theorem payment_formulas_agree a M df ins out :
  0 < App.interest_rate a -> (0 < App.loan_years a)%Z ->
  App.monthly_mortgage a = inr M ->
  calculate_monthly_cash_flow df (App.interest_rate a) (App.total_months a)
    ins (App.down_payment_pct a) = inr out ->
  forall r, In r (rows out) -> Price r = App.purchase_price a ->
    MonthlyMortgage r = Fin (round2 M).
Proof.
  intros Hi Hy HM H r Hin Hprice.
  assert (Hn : (0 < App.total_months a)%Z)
    by (unfold App.total_months; lia).
  destruct (rows_are_cash_flow_rows _ _ _ _ _ _ _ H Hin)
    as (p & r0 & Hpow & _ & ->).
  rewrite (py_pow_pos_exponent _ _ Hn) in Hpow. injection Hpow as <-.
  destruct (cash_flow_row_finite _ _ ins Hi Hn (1 - App.down_payment_pct a) r0)
    as (_ & Em & _).
  cbv zeta in Em. rewrite Em. clear Em.
  change (Price (cash_flow_row (1 - App.down_payment_pct a)
                   (App.interest_rate a / of_int 12)
                   ((1 + App.interest_rate a / of_int 12)
                    ^ Z.to_nat (App.total_months a))
                   ((1 + App.interest_rate a / of_int 12)
                    ^ Z.to_nat (App.total_months a)) ins r0))
    with (Price r0) in Hprice.
  do 2 f_equal.
  unfold App.monthly_mortgage in HM.
  rewrite (proj2 (Qcltb_true _ _) Hi) in HM.
  rewrite (py_pow_pos_exponent _ _ Hn) in HM. cbn [bind] in HM.
  apply AppFacts.py_div_inr in HM as [Hne ->].
  rewrite Hprice. unfold unit_payment, App.loan_amount, App.down_payment.
  unfold App.monthly_rate in *.
  set (mr := App.interest_rate a / of_int 12) in *.
  set (P := (1 + mr) ^ Z.to_nat (App.total_months a)) in *.
  clearbody P mr. field. exact Hne.
Qed.

End PositiveRateTables.

(** ** The break-even search at a positive rate *)

Lemma dec_le (x y : Z) : (x <= y)%Z -> dec x 100 <= dec y 100.
Proof.
  intros H. unfold dec, Qcle.
  pose proof (this_Q2Qc (x # 100)) as Ex.
  pose proof (this_Q2Qc (y # 100)) as Ey.
  assert (Hq : (x # 100 <= y # 100)%Q)
    by (unfold Qle; cbn [Qnum Qden]; lia).
  generalize dependent (x # 100)%Q. generalize dependent (y # 100)%Q.
  intros. lra.
Qed.

Lemma candidates_In f :
  In f candidates ->
  exists k, (k < 80)%nat /\ f = dec (20 + Z.of_nat k) 100
            /\ nth_error candidates k = Some f.
Proof.
  intros H. apply In_nth_error in H as (k & Hk).
  destruct (candidates_nth_inv k f Hk) as (Hlt & E).
  exists k. split; [exact Hlt|]. split; [exact E | exact Hk].
Qed.

Section Threshold.
Context `{QS : Quicksort}.
Variables (i : Qc) (n : Z) (ins : Qc).
Hypothesis rate_pos : 0 < i.
Hypothesis months_pos : (0 < n)%Z.

Lemma first_positive_is_threshold row f :
  0 <= Price row ->
  find (positive_at i n ins row) candidates = Some f ->
  forall g, In g candidates -> (positive_at i n ins row g = true <-> f <= g).
Proof.
  intros Hp Hfind g Hg.
  apply find_first in Hfind as (k & Hk & Hpos & Hbefore).
  apply candidates_nth_inv in Hk as (Hk & Ef).
  apply candidates_In in Hg as (j & Hj & Eg & Hnth).
  split.
  - intros Hgpos. destruct (Nat.le_gt_cases k j) as [Hle|Hlt].
    + rewrite Ef, Eg. apply dec_le. lia.
    + rewrite (Hbefore j g Hlt Hnth) in Hgpos. discriminate.
  - intros Hle.
    apply (positive_at_mono i n ins rate_pos months_pos row f g Hp Hle Hpos).
Qed.

(** X14.  At a positive rate, for records with a non-negative price, the
    fraction reported for a record that was not positive already is a
    real threshold among the candidates: the recomputed cash flow is
    positive at every candidate from the reported one on, and at no
    candidate below it. *)
Theorem break_even_fraction_is_threshold df out :
  (forall row, In row (rows df) -> 0 <= Price row) ->
  calculate_break_even_down_payment i n ins df = inr out ->
  forall r, In r (rows out) ->
    exists row f,
      In row (rows df) /\ In f candidates
      /\ DownPaymentPercent r = Fin f
      /\ (np_gtb (MonthlyCashFlow row) (Fin 0) = false ->
          r = with_down_payment f (recomputed i n ins row f)
          /\ forall g, In g candidates ->
               (positive_at i n ins row g = true <-> f <= g)).
Proof.
  intros Hprice H r Hr.
  rewrite (break_even_rows _ _ _ _ _ H) in Hr.
  apply collect_In in Hr as (row & Hrow & Hout).
  unfold break_even_row, outcome_row in Hout.
  destruct (np_gtb (MonthlyCashFlow row) (Fin 0)) eqn:Hgt.
  - injection Hout as <-. exists row, (dec 20 100).
    split; [exact Hrow|]. split.
    + rewrite candidates_enum. apply in_map_iff. exists 0%nat.
      split; [reflexivity | apply in_seq; lia].
    + split; [reflexivity | congruence].
  - destruct (find _ candidates) as [f|] eqn:Ef; [|discriminate].
    injection Hout as <-. exists row, f.
    pose proof (find_some _ _ Ef) as [Hin _].
    assert (Er : round2 f = f).
    { apply candidates_In in Hin as (k & _ & -> & _).
      apply round2_candidate. }
    rewrite Er.
    split; [exact Hrow|]. split; [exact Hin|]. split; [reflexivity|].
    intros _. split; [reflexivity|].
    apply (first_positive_is_threshold row f (Hprice row Hrow) Ef).
Qed.

End Threshold.

(** ** The break-even table: failures and shape *)

Lemma has_column_concat a b label :
  has_column (concat a b) label = has_column a label || has_column b label.
Proof.
  unfold has_column, concat. cbn [columns].
  generalize (columns a). induction (columns b) as [|l ls IH]; intros cols;
    cbn [fold_left existsb].
  - rewrite orb_false_r. reflexivity.
  - rewrite IH, has_column_add_label, <- orb_assoc. reflexivity.
Qed.

Lemma collect_length {A B : Type} (f : A -> option B) (l : list A) :
  (List.length (collect f l) <= List.length l)%nat.
Proof.
  induction l as [|x l IH]; cbn [collect List.length]; [lia|].
  destruct (f x); cbn [List.length]; lia.
Qed.

Section BreakEvenMore.
Context `{QS : Quicksort}.
Variables (i : Qc) (n : Z) (ins : Qc).

Let outcome := outcome_row i n ins.

Lemma scan_fails cols row cands e :
  scan i n ins (mkFrame cols [row]) cands = inl e ->
  e = KeyError "Price" \/ e = KeyError "RentEstimate"
  \/ e = ZeroDivisionError.
Proof.
  induction cands as [|f cands IH]; cbn [scan]; [discriminate|].
  destruct (calculate_monthly_cash_flow (mkFrame cols [row]) i n ins f)
    as [e'|test_df] eqn:Hc.
  - cbn [bind]. intros H. injection H as <-.
    apply calculate_monthly_cash_flow_inl in Hc. exact Hc.
  - apply calculate_single_inr in Hc as (_ & ->).
    cbn [bind rows map iloc0 ret].
    destruct (np_gtb _ (Fin 0)); [discriminate | exact IH].
Qed.

Lemma loop_body_fails df acc row e :
  loop_body i n ins df acc row = inl e ->
  e = KeyError "MonthlyCashFlow" \/ e = KeyError "Price"
  \/ e = KeyError "RentEstimate" \/ e = ZeroDivisionError.
Proof.
  unfold loop_body, getitem.
  destruct (has_column df "MonthlyCashFlow").
  - cbn [bind ret].
    destruct (np_gtb (MonthlyCashFlow row) (Fin 0)); [discriminate|].
    destruct (scan i n ins (mkFrame (columns df) [row]) candidates)
      as [e'|res] eqn:Hs.
    + cbn [bind]. intros H. injection H as <-.
      apply scan_fails in Hs. tauto.
    + cbn [bind]. destruct res as [[t p]|]; discriminate.
  - cbn [bind raise]. intros H. injection H as <-. left. reflexivity.
Qed.

Lemma iterrows_fails df todo acc e :
  iterrows i n ins df todo acc = inl e ->
  e = KeyError "MonthlyCashFlow" \/ e = KeyError "Price"
  \/ e = KeyError "RentEstimate" \/ e = ZeroDivisionError.
Proof.
  revert acc. induction todo as [|row todo IH]; intros acc;
    cbn [iterrows]; [discriminate|].
  destruct (loop_body i n ins df acc row) as [e'|acc'] eqn:Hb.
  - cbn [bind]. intros H. injection H as <-.
    apply (loop_body_fails _ _ _ _ Hb).
  - cbn [bind]. apply IH.
Qed.

Lemma iterrows_nothing_kept df todo acc acc' :
  iterrows i n ins df todo acc = inr acc' ->
  collect outcome todo = [] -> acc' = acc.
Proof.
  revert acc. induction todo as [|row todo IH]; intros acc H Hc.
  - simpl in H. injection H as <-. reflexivity.
  - cbn [iterrows] in H. apply bind_inr in H as (acc1 & Hbody & H).
    apply loop_body_inr in Hbody. cbn [collect] in Hc. fold outcome in Hbody.
    destruct (outcome row) as [[r pct]|]; [discriminate|].
    subst acc1. apply (IH _ H Hc).
Qed.

Lemma iterrows_lengths df todo acc acc' :
  iterrows i n ins df todo acc = inr acc' ->
  List.length (snd acc) = List.length (rows (fst acc)) ->
  List.length (snd acc') = List.length (rows (fst acc')).
Proof.
  intros H E. apply iterrows_inr in H. cbv zeta in H. destruct H as [Hr Hs].
  rewrite Hr, Hs, !length_app, !length_map, E. reflexivity.
Qed.

(** X15.  As long as the growth factor stays in the range of a double, the
    break-even function never raises [ValueError] or [IndexError]; a
    [KeyError] names ["MonthlyCashFlow"], ["Price"] or
    ["RentEstimate"]. *)
Theorem break_even_failures df e :
  power_fits (1 + i / of_int 12) n = true ->
  calculate_break_even_down_payment i n ins df = inl e ->
  e = KeyError "MonthlyCashFlow" \/ e = KeyError "Price"
  \/ e = KeyError "RentEstimate" \/ e = ZeroDivisionError.
Proof.
  intros _. unfold calculate_break_even_down_payment.
  destruct (iterrows i n ins df (rows df) (empty_frame, []))
    as [e'|acc] eqn:Hit.
  - cbn [bind]. intros H. injection H as <-.
    apply (iterrows_fails _ _ _ _ Hit).
  - cbn [bind]. apply iterrows_lengths in Hit; [|reflexivity].
    unfold assign_list. rewrite length_map, Hit, Nat.eqb_refl.
    cbn [bind ret]. unfold getitem.
    destruct (has_column _ "Price"); cbn [bind ret raise];
      [discriminate|].
    intros H. injection H as <-. right. left. reflexivity.
Qed.

(** X16.  A table with a record but without a ["MonthlyCashFlow"] column
    raises [KeyError] on that column. *)
Theorem break_even_needs_cash_flow_column df :
  rows df <> [] -> has_column df "MonthlyCashFlow" = false ->
  calculate_break_even_down_payment i n ins df
  = inl (KeyError "MonthlyCashFlow").
Proof.
  intros Hne Hm. unfold calculate_break_even_down_payment.
  destruct (rows df) as [|row rest]; [congruence|].
  cbn [iterrows]. unfold loop_body, getitem. rewrite Hm. reflexivity.
Qed.

(** X17.  A table without records raises [KeyError] on ["Price"], whatever
    its columns: the result frame never gets a column. *)
Theorem break_even_of_no_records_raises df :
  rows df = [] ->
  calculate_break_even_down_payment i n ins df = inl (KeyError "Price").
Proof.
  intros E. unfold calculate_break_even_down_payment. rewrite E.
  reflexivity.
Qed.

Lemma collect_break_even_nil l :
  collect (break_even_row i n ins) l = [] -> collect outcome l = [].
Proof.
  unfold break_even_row. fold outcome.
  induction l as [|row l IH]; cbn [collect]; [reflexivity|].
  destruct (outcome row) as [[r pct]|]; [discriminate | exact IH].
Qed.

Lemma something_kept df out :
  calculate_break_even_down_payment i n ins df = inr out ->
  collect outcome (rows df) <> [].
Proof.
  intros H Hc. unfold calculate_break_even_down_payment in H.
  apply bind_inr in H as (acc & Hit & H).
  apply (iterrows_nothing_kept _ _ _ _ Hit) in Hc. subst acc.
  cbn [bind assign_list fst snd map rows empty_frame List.length Nat.eqb
       ret combine columns add_label existsb app getitem has_column
       String.eqb Ascii.eqb Bool.eqb raise] in H.
  discriminate.
Qed.

(** X18.  A table that is returned is never empty: some record was kept. *)
Theorem break_even_never_returns_empty df out :
  calculate_break_even_down_payment i n ins df = inr out ->
  rows out <> []
  /\ exists row, In row (rows df) /\ outcome_row i n ins row <> None.
Proof.
  intros H. pose proof (break_even_rows _ _ _ _ _ H) as Hrows.
  pose proof (something_kept df out H) as Hkept.
  split.
  - rewrite Hrows. intros E. apply Hkept, collect_break_even_nil, E.
  - destruct (collect outcome (rows df)) as [|y ys] eqn:E; [congruence|].
    assert (Hin : In y (collect outcome (rows df)))
      by (rewrite E; left; reflexivity).
    apply collect_In in Hin as (row & Hrow & Ho).
    exists row. split; [exact Hrow|]. unfold outcome in Ho. congruence.
Qed.

End BreakEvenMore.

Section BreakEvenReturns.
Context `{QS : Quicksort}.
Variables (i : Qc) (n : Z) (ins : Qc) (df : DataFrame).
Hypothesis has_cash_flow : has_column df "MonthlyCashFlow" = true.
Hypothesis has_price : has_column df "Price" = true.
Hypothesis has_rent : has_column df "RentEstimate" = true.
Hypothesis months_ok : (0 <= n)%Z.

Let outcome := outcome_row i n ins.

Lemma loop_body_returns acc row :
  exists acc',
    loop_body i n ins df acc row = inr acc'
    /\ (has_column (fst acc) "Price" = true ->
        has_column (fst acc') "Price" = true)
    /\ (outcome row <> None -> has_column (fst acc') "Price" = true).
Proof.
  pose proof (py_pow_nonneg_exponent (1 + i / of_int 12) n months_ok) as Hpow.
  unfold loop_body, outcome, outcome_row.
  rewrite (getitem_has _ _ has_cash_flow). cbn [bind].
  destruct (np_gtb (MonthlyCashFlow row) (Fin 0)).
  - eexists. split; [reflexivity|]. cbn [fst].
    rewrite has_column_concat.
    change (has_column (mkFrame (columns df) [row]) "Price")
      with (has_column df "Price").
    rewrite has_price, orb_true_r. split; reflexivity.
  - rewrite (scan_eq i n ins _ _ _ _ has_price has_rent Hpow). cbn [bind].
    destruct (find (positive_at i n ins row) candidates) as [f|].
    + eexists. split; [reflexivity|]. cbn [fst].
      rewrite has_column_concat.
      assert (E : has_column
                    (mkFrame (cash_flow_columns (columns df))
                       [recomputed i n ins row f]) "Price" = true).
      { unfold has_column. cbn [columns].
        rewrite has_column_cash_flow_columns.
        fold (has_column df "Price"). rewrite has_price. reflexivity. }
      rewrite E, orb_true_r. split; reflexivity.
    + eexists. split; [reflexivity|]. split; [tauto | congruence].
Qed.

Lemma iterrows_returns todo acc :
  exists acc',
    iterrows i n ins df todo acc = inr acc'
    /\ (has_column (fst acc) "Price" = true ->
        has_column (fst acc') "Price" = true)
    /\ (collect outcome todo <> [] -> has_column (fst acc') "Price" = true).
Proof.
  revert acc. induction todo as [|row todo IH]; intros acc.
  - exists acc. split; [reflexivity|]. split; [tauto|].
    cbn [collect]. congruence.
  - destruct (loop_body_returns acc row) as (acc1 & Hb & Hkeep1 & Hnew1).
    destruct (IH acc1) as (acc' & Hit & Hkeep & Hnew).
    exists acc'. cbn [iterrows]. rewrite Hb. cbn [bind].
    split; [exact Hit|]. split; [tauto|].
    cbn [collect]. destruct (outcome row) as [y|] eqn:Ho.
    + intros _. apply Hkeep, Hnew1. congruence.
    + exact Hnew.
Qed.

Lemma collect_keeps {A B : Type} (f : A -> option B) (l : list A) x y :
  In x l -> f x = Some y -> In y (collect f l).
Proof.
  intros Hin E. induction l as [|z l IH]; [contradiction|].
  cbn [collect]. destruct Hin as [->|Hin].
  - rewrite E. left. reflexivity.
  - destruct (f z); [right|]; apply IH, Hin.
Qed.

(** X19.  With the three columns present, a non-negative number of months
    and the growth factor in the range of a double, the function returns
    as soon as one record has a positive cash flow already: the table is
    not empty, has at most as many rows as the input, and holds every
    such record at 20 percent with its identifier, price, rent and cash
    flow unchanged. *)
Theorem break_even_returns_when_a_record_is_kept :
  power_fits (1 + i / of_int 12) n = true ->
  (exists row, In row (rows df)
     /\ np_gtb (MonthlyCashFlow row) (Fin 0) = true) ->
  exists out,
    calculate_break_even_down_payment i n ins df = inr out
    /\ rows out <> []
    /\ (List.length (rows out) <= List.length (rows df))%nat
    /\ forall row, In row (rows df) ->
         np_gtb (MonthlyCashFlow row) (Fin 0) = true ->
         exists r, In r (rows out)
           /\ ID r = ID row /\ Price r = Price row
           /\ RentEstimate r = RentEstimate row
           /\ MonthlyCashFlow r = MonthlyCashFlow row
           /\ DownPaymentPercent r = Fin (dec 20 100).
Proof.
  intros _ (row & Hrow & Hpos).
  assert (Hsome : outcome row <> None).
  { unfold outcome, outcome_row. rewrite Hpos. discriminate. }
  assert (Hkept : collect outcome (rows df) <> []).
  { revert Hrow. generalize (rows df). intros l.
    induction l as [|x l IH]; [contradiction|]. cbn [collect].
    intros [->|Hin].
    - destruct (outcome row); congruence.
    - destruct (outcome x); [discriminate | apply IH, Hin]. }
  destruct (iterrows_returns (rows df) (empty_frame, []))
    as (acc & Hit & _ & Hprice).
  assert (Hcalc : exists out,
            calculate_break_even_down_payment i n ins df = inr out).
  { unfold calculate_break_even_down_payment. rewrite Hit. cbn [bind].
    pose proof (iterrows_lengths i n ins _ _ _ _ Hit eq_refl) as Hlen.
    unfold assign_list. rewrite length_map, Hlen, Nat.eqb_refl.
    cbn [bind ret]. rewrite getitem_has; [cbn [bind]; eauto|].
    unfold has_column. cbn [columns]. rewrite has_column_add_label.
    fold (has_column (fst acc) "Price"). rewrite (Hprice Hkept).
    reflexivity. }
  destruct Hcalc as (out & Hout). exists out. split; [exact Hout|].
  pose proof (break_even_rows _ _ _ _ _ Hout) as Hrows.
  split; [|split].
  - rewrite Hrows. intros E. apply Hkept.
    apply (collect_break_even_nil i n ins _ E).
  - rewrite Hrows. apply collect_length.
  - intros row' Hrow' Hpos'.
    exists (with_down_payment (dec 20 100) row'). split.
    + rewrite Hrows. apply (collect_keeps _ _ row' _ Hrow').
      unfold break_even_row, outcome_row. rewrite Hpos'. reflexivity.
    + repeat split; reflexivity.
Qed.

End BreakEvenReturns.

Section BreakEvenShape.
Context `{QS : Quicksort}.
Variables (i : Qc) (n : Z) (ins : Qc).

Lemma candidate_range f :
  In f candidates -> dec 20 100 <= f /\ f <= dec 99 100.
Proof.
  intros H. apply candidates_In in H as (k & Hk & -> & _).
  split; apply dec_le; lia.
Qed.

(** X20.  The table has at most as many rows as the input.  Every row is an
    input record with its identifier, address, price and rent unchanged;
    its fraction is one of 0.20, 0.21, ..., 0.99 and its amount is that
    fraction of the price, rounded to cents. *)
Theorem break_even_table_shape df out :
  calculate_break_even_down_payment i n ins df = inr out ->
  (List.length (rows out) <= List.length (rows df))%nat
  /\ forall r, In r (rows out) ->
       exists row f,
         In row (rows df) /\ In f candidates
         /\ dec 20 100 <= f /\ f <= dec 99 100
         /\ ID r = ID row /\ Address r = Address row
         /\ Price r = Price row /\ RentEstimate r = RentEstimate row
         /\ DownPaymentPercent r = Fin f
         /\ DownPaymentAmount r = Fin (round2 (f * Price row)).
Proof.
  intros H. pose proof (break_even_rows _ _ _ _ _ H) as Hrows.
  split; [rewrite Hrows; apply collect_length|].
  intros r Hr. rewrite Hrows in Hr.
  apply collect_In in Hr as (row & Hrow & Hout).
  unfold break_even_row, outcome_row in Hout.
  destruct (np_gtb (MonthlyCashFlow row) (Fin 0)).
  - injection Hout as <-. exists row, (dec 20 100).
    assert (Hin : In (dec 20 100) candidates).
    { rewrite candidates_enum. apply in_map_iff. exists 0%nat.
      split; [reflexivity | apply in_seq; lia]. }
    split; [exact Hrow|]. split; [exact Hin|].
    split; [apply (candidate_range _ Hin)|].
    split; [apply (candidate_range _ Hin)|].
    repeat split; reflexivity.
  - destruct (find _ candidates) as [f|] eqn:Ef; [|discriminate].
    injection Hout as <-. exists row, f.
    pose proof (find_some _ _ Ef) as [Hin _].
    assert (Er : round2 f = f).
    { apply candidates_In in Hin as (k & _ & -> & _).
      apply round2_candidate. }
    rewrite Er.
    split; [exact Hrow|]. split; [exact Hin|].
    split; [apply (candidate_range _ Hin)|].
    split; [apply (candidate_range _ Hin)|].
    repeat split; reflexivity.
Qed.

End BreakEvenShape.

(** ** The theorems at concrete tables *)

(** The listings columns without any record, and the cash-flow columns
    without any record. *)
Definition no_listings : DataFrame := mkFrame listing_columns [].

Definition no_cash_flows : DataFrame :=
  mkFrame (cash_flow_columns listing_columns) [].

(** A 20000 purchase with 20 percent down at 6 percent over one year. *)
Definition one_year_loan : App.Inputs :=
  App.mkInputs (of_int 20000) (dec 20 100) (dec 6 100) 1 (of_int 100)
               (dec 125 10000) (of_int 2500) 0 0 0 1 0 0 0 0.

Definition one_year_payment : Qc :=
  Eval vm_compute in
    match App.monthly_mortgage one_year_loan with
    | inr m => m
    | inl _ => 0
    end.

Lemma one_year_payment_run :
  App.monthly_mortgage one_year_loan = inr one_year_payment.
Proof. vm_compute. reflexivity. Defined.

Lemma six_percent_pos : 0 < dec 6 100.
Proof. unfold Qclt. vm_compute. reflexivity. Qed.

Lemma sample_prices_nonneg :
  forall row, In row (rows sample_cash_flows) -> 0 <= Price row.
Proof.
  intros row [<-|[<-|[]]]; unfold Qcle; vm_compute; discriminate.
Qed.

Lemma no_price_run :
  calculate_monthly_cash_flow (QS := Sorts.stable_sort) empty_frame
    (dec 6 100) 12 (of_int 100) (dec 20 100) = inl (KeyError "Price").
Proof. reflexivity. Defined.

Lemma six_percent_fits : power_fits (1 + dec 6 100 / of_int 12) 12 = true.
Proof. vm_compute. reflexivity. Qed.

Lemma cash_flow_failures_witness :
  power_fits (1 + dec 6 100 / of_int 12) 12 = true
  /\ calculate_monthly_cash_flow (QS := Sorts.stable_sort) empty_frame
       (dec 6 100) 12 (of_int 100) (dec 20 100) = inl (KeyError "Price")
  /\ ((KeyError "Price" = KeyError "Price"
       /\ has_column empty_frame "Price" = false)
      \/ (KeyError "Price" = ZeroDivisionError
          /\ has_column empty_frame "Price" = true
          /\ (12 < 0)%Z /\ 1 + dec 6 100 / of_int 12 = 0)
      \/ (KeyError "Price" = KeyError "RentEstimate"
          /\ has_column empty_frame "Price" = true
          /\ has_column empty_frame "RentEstimate" = false)).
Proof.
  split; [exact six_percent_fits|]. split; [exact no_price_run|].
  exact (@cash_flow_failures Sorts.stable_sort empty_frame (dec 6 100) 12
           (of_int 100) (dec 20 100) (KeyError "Price") six_percent_fits
           no_price_run).
Defined.

Lemma cash_flow_table_shape_witness :
  has_column sample_listings "Price" = true
  /\ has_column sample_listings "RentEstimate" = true
  /\ (0 <= 12)%Z
  /\ power_fits (1 + dec 6 100 / of_int 12) 12 = true
  /\ exists out,
       calculate_monthly_cash_flow (QS := Sorts.stable_sort) sample_listings
         (dec 6 100) 12 (of_int 100) (dec 20 100) = inr out
       /\ columns out = cash_flow_columns (columns sample_listings)
       /\ List.length (rows out) = List.length (rows sample_listings)
       /\ Permutation (map ID (rows sample_listings)) (map ID (rows out)).
Proof.
  split; [reflexivity|]. split; [reflexivity|]. split; [lia|].
  split; [exact six_percent_fits|].
  destruct (@cash_flow_table_shape Sorts.stable_sort sample_listings
              (dec 6 100) 12 (of_int 100) (dec 20 100) eq_refl eq_refl
              ltac:(lia) six_percent_fits)
    as (out & Hrun & Hcols & _ & Hlen & Hperm & _).
  exists out. split; [exact Hrun|]. split; [exact Hcols|].
  split; [exact Hlen | exact Hperm].
Defined.

Lemma cash_flow_recomputation_is_stable_witness :
  calculate_monthly_cash_flow (QS := Sorts.stable_sort) sample_listings
    (dec 6 100) 12 (of_int 100) (dec 20 100) = inr sample_cash_flows
  /\ exists out',
       calculate_monthly_cash_flow (QS := Sorts.stable_sort)
         sample_cash_flows (dec 6 100) 12 (of_int 100) (dec 20 100)
       = inr out'
       /\ columns out' = columns sample_cash_flows
       /\ Permutation (rows sample_cash_flows) (rows out').
Proof.
  split; [exact sample_cash_flows_run|].
  exact (@cash_flow_recomputation_is_stable Sorts.stable_sort
           sample_listings (dec 6 100) 12 (of_int 100) (dec 20 100)
           sample_cash_flows sample_cash_flows_run).
Defined.

Lemma sample_rows_in_range :
  forall r, In r (rows sample_cash_flows) ->
    0 <= Price r /\ Price r <= of_int (10 ^ 8)
    /\ - of_int (10 ^ 8) <= RentEstimate r
    /\ RentEstimate r <= of_int (10 ^ 8).
Proof.
  intros r [<-|[<-|[]]]; repeat split; unfold Qcle; vm_compute; discriminate.
Qed.

Lemma positive_rate_gives_finite_cells_witness :
  dec 1 1000 <= dec 6 100 /\ dec 6 100 <= 1 /\ (0 < 12 <= 480)%Z
  /\ 0 <= dec 20 100 /\ dec 20 100 <= 1
  /\ - of_int (10 ^ 8) <= of_int 100 /\ of_int 100 <= of_int (10 ^ 8)
  /\ calculate_monthly_cash_flow (QS := Sorts.stable_sort) sample_listings
       (dec 6 100) 12 (of_int 100) (dec 20 100) = inr sample_cash_flows
  /\ map MonthlyMortgage (rows sample_cash_flows)
     = [Fin (dec 137706 100); Fin (dec 137706 100)]
  /\ forall r, In r (rows sample_cash_flows) ->
       is_nan (PropertyTax r) = false
       /\ is_nan (MonthlyMortgage r) = false
       /\ is_nan (MonthlyCashFlow r) = false
       /\ exists m, MonthlyMortgage r = Fin m /\ 0 <= m.
Proof.
  assert (H1 : dec 1 1000 <= dec 6 100) by qc_compare.
  assert (H2 : dec 6 100 <= 1) by qc_compare.
  assert (H3 : (0 < 12 <= 480)%Z) by lia.
  assert (H4 : 0 <= dec 20 100) by qc_compare.
  assert (H5 : dec 20 100 <= 1) by qc_compare.
  assert (H6 : - of_int (10 ^ 8) <= of_int 100) by qc_compare.
  assert (H7 : of_int 100 <= of_int (10 ^ 8)) by qc_compare.
  split; [exact H1|]. split; [exact H2|]. split; [exact H3|].
  split; [exact H4|]. split; [exact H5|]. split; [exact H6|].
  split; [exact H7|].
  split; [exact sample_cash_flows_run|].
  split; [vm_compute; repeat f_equal; apply Qc_is_canon; reflexivity|].
  intros r Hr.
  destruct (sample_rows_in_range r Hr) as (P0 & P1 & R0 & R1).
  destruct (@positive_rate_gives_finite_cells Sorts.stable_sort
              sample_listings (dec 6 100) 12 (of_int 100) (dec 20 100)
              sample_cash_flows H1 H2 H3 H4 H5 H6 H7
              sample_cash_flows_run r Hr P0 P1 R0 R1)
    as (t & m & c & Et & Em & Ec & _ & _ & _ & _ & _ & _ & _ & Hm).
  rewrite Et, Em, Ec. split; [reflexivity|]. split; [reflexivity|].
  split; [reflexivity|]. exists m. split; [reflexivity | exact Hm].
Defined.

Lemma payment_formulas_agree_witness :
  0 < App.interest_rate one_year_loan
  /\ (0 < App.loan_years one_year_loan)%Z
  /\ App.monthly_mortgage one_year_loan = inr one_year_payment
  /\ calculate_monthly_cash_flow (QS := Sorts.stable_sort) sample_listings
       (dec 6 100) 12 (of_int 100) (dec 20 100) = inr sample_cash_flows
  /\ forall r, In r (rows sample_cash_flows) ->
       Price r = of_int 20000 ->
       MonthlyMortgage r = Fin (round2 one_year_payment).
Proof.
  split; [exact six_percent_pos|]. split; [reflexivity|].
  split; [exact one_year_payment_run|].
  split; [exact sample_cash_flows_run|].
  exact (@payment_formulas_agree Sorts.stable_sort one_year_loan
           one_year_payment sample_listings (of_int 100) sample_cash_flows
           six_percent_pos eq_refl one_year_payment_run
           sample_cash_flows_run).
Defined.

Lemma break_even_fraction_is_threshold_witness :
  0 < dec 6 100 /\ (0 < 12)%Z
  /\ (forall row, In row (rows sample_cash_flows) -> 0 <= Price row)
  /\ calculate_break_even_down_payment (QS := Sorts.stable_sort)
       (dec 6 100) 12 (of_int 100) sample_cash_flows = inr sample_break_even
  /\ forall r, In r (rows sample_break_even) ->
       exists row f,
         In row (rows sample_cash_flows) /\ In f candidates
         /\ DownPaymentPercent r = Fin f
         /\ (np_gtb (MonthlyCashFlow row) (Fin 0) = false ->
             r = with_down_payment f
                   (recomputed (dec 6 100) 12 (of_int 100) row f)
             /\ forall g, In g candidates ->
                  (positive_at (dec 6 100) 12 (of_int 100) row g = true
                   <-> f <= g)).
Proof.
  split; [exact six_percent_pos|]. split; [lia|].
  split; [exact sample_prices_nonneg|].
  split; [exact sample_break_even_run|].
  exact (@break_even_fraction_is_threshold Sorts.stable_sort (dec 6 100) 12
           (of_int 100) six_percent_pos ltac:(lia) sample_cash_flows
           sample_break_even sample_prices_nonneg sample_break_even_run).
Defined.

Lemma no_listings_run :
  calculate_break_even_down_payment (QS := Sorts.stable_sort)
    (dec 6 100) 12 (of_int 100) no_listings = inl (KeyError "Price").
Proof. reflexivity. Defined.

Lemma break_even_failures_witness :
  power_fits (1 + dec 6 100 / of_int 12) 12 = true
  /\ calculate_break_even_down_payment (QS := Sorts.stable_sort)
       (dec 6 100) 12 (of_int 100) no_listings = inl (KeyError "Price")
  /\ (KeyError "Price" = KeyError "MonthlyCashFlow"
      \/ KeyError "Price" = KeyError "Price"
      \/ KeyError "Price" = KeyError "RentEstimate"
      \/ KeyError "Price" = ZeroDivisionError).
Proof.
  split; [exact six_percent_fits|]. split; [exact no_listings_run|].
  exact (@break_even_failures Sorts.stable_sort (dec 6 100) 12 (of_int 100)
           no_listings (KeyError "Price") six_percent_fits no_listings_run).
Defined.

Lemma sample_listings_nonempty : rows sample_listings <> [].
Proof. discriminate. Qed.

Lemma break_even_needs_cash_flow_column_witness :
  rows sample_listings <> []
  /\ has_column sample_listings "MonthlyCashFlow" = false
  /\ calculate_break_even_down_payment (QS := Sorts.stable_sort)
       (dec 6 100) 12 (of_int 100) sample_listings
     = inl (KeyError "MonthlyCashFlow").
Proof.
  split; [exact sample_listings_nonempty|]. split; [reflexivity|].
  exact (@break_even_needs_cash_flow_column Sorts.stable_sort (dec 6 100) 12
           (of_int 100) sample_listings sample_listings_nonempty eq_refl).
Defined.

Lemma break_even_of_no_records_raises_witness :
  rows no_cash_flows = []
  /\ has_column no_cash_flows "Price" = true
  /\ calculate_break_even_down_payment (QS := Sorts.stable_sort)
       (dec 6 100) 12 (of_int 100) no_cash_flows = inl (KeyError "Price").
Proof.
  split; [reflexivity|]. split; [reflexivity|].
  exact (@break_even_of_no_records_raises Sorts.stable_sort (dec 6 100) 12
           (of_int 100) no_cash_flows eq_refl).
Defined.

Lemma break_even_never_returns_empty_witness :
  calculate_break_even_down_payment (QS := Sorts.stable_sort)
    (dec 6 100) 12 (of_int 100) sample_cash_flows = inr sample_break_even
  /\ rows sample_break_even <> [].
Proof.
  split; [exact sample_break_even_run|].
  exact (proj1 (@break_even_never_returns_empty Sorts.stable_sort
                  (dec 6 100) 12 (of_int 100) sample_cash_flows
                  sample_break_even sample_break_even_run)).
Defined.

Lemma sample_has_positive_record :
  exists row, In row (rows sample_cash_flows)
    /\ np_gtb (MonthlyCashFlow row) (Fin 0) = true.
Proof.
  eexists. split; [left; reflexivity|]. vm_compute. reflexivity.
Qed.

Lemma break_even_returns_when_a_record_is_kept_witness :
  has_column sample_cash_flows "MonthlyCashFlow" = true
  /\ has_column sample_cash_flows "Price" = true
  /\ has_column sample_cash_flows "RentEstimate" = true
  /\ (0 <= 12)%Z
  /\ power_fits (1 + dec 6 100 / of_int 12) 12 = true
  /\ (exists row, In row (rows sample_cash_flows)
        /\ np_gtb (MonthlyCashFlow row) (Fin 0) = true)
  /\ exists out,
       calculate_break_even_down_payment (QS := Sorts.stable_sort)
         (dec 6 100) 12 (of_int 100) sample_cash_flows = inr out
       /\ rows out <> []
       /\ (List.length (rows out) <= List.length (rows sample_cash_flows))%nat.
Proof.
  split; [reflexivity|]. split; [reflexivity|]. split; [reflexivity|].
  split; [lia|]. split; [exact six_percent_fits|].
  split; [exact sample_has_positive_record|].
  destruct (@break_even_returns_when_a_record_is_kept Sorts.stable_sort
              (dec 6 100) 12 (of_int 100) sample_cash_flows eq_refl eq_refl
              eq_refl ltac:(lia) six_percent_fits
              sample_has_positive_record)
    as (out & Hrun & Hne & Hlen & _).
  exists out. split; [exact Hrun|]. split; [exact Hne | exact Hlen].
Defined.

Lemma break_even_table_shape_witness :
  calculate_break_even_down_payment (QS := Sorts.stable_sort)
    (dec 6 100) 12 (of_int 100) sample_cash_flows = inr sample_break_even
  /\ (List.length (rows sample_break_even)
      <= List.length (rows sample_cash_flows))%nat.
Proof.
  split; [exact sample_break_even_run|].
  exact (proj1 (@break_even_table_shape Sorts.stable_sort (dec 6 100) 12
                  (of_int 100) sample_cash_flows sample_break_even
                  sample_break_even_run)).
Defined.

End AnalysisMore.

(* ================================================================== *)
(** * main.py: the summary counts *)
(* ================================================================== *)

Module Main.
Import Num Py Frame Analysis.

(** [len(cashflow_df[cashflow_df['MonthlyCashFlow'] > 0])]. *)
Definition positive_cashflow (cashflow_df : DataFrame) : exc nat :=
  _ <- getitem cashflow_df "MonthlyCashFlow" ;;
  ret (List.length
         (filter (fun r => np_gtb (MonthlyCashFlow r) (Fin 0))
                 (rows cashflow_df))).

(** [len(breakeven_df[breakeven_df['DownPaymentPercent'] <= 0.20])]. *)
Definition viable_at_20 (breakeven_df : DataFrame) : exc nat :=
  _ <- getitem breakeven_df "DownPaymentPercent" ;;
  ret (List.length
         (filter (fun r => np_leb (DownPaymentPercent r) (Fin (dec 20 100)))
                 (rows breakeven_df))).

Section Pipeline.
Context `{QS : Quicksort}.
Variables (INTEREST_RATE : Qc) (LOAN_MONTHS : Z) (MONTHLY_INSURANCE : Qc).

Definition DOWN_PAYMENT : Qc := dec 20 100.

(** [df.empty]: no rows or no columns. *)
Definition empty (df : DataFrame) : bool :=
  match rows df, columns df with
  | [], _ | _, [] => true
  | _, _ => false
  end.

(** The two tables and the two counts of the summary, from the listings
    table with its rent column filled in; the second count is printed
    only for a break-even table that is not empty. *)
Definition summary (df : DataFrame)
  : exc (DataFrame * DataFrame * nat * option nat) :=
  cashflow_df <- calculate_monthly_cash_flow df INTEREST_RATE LOAN_MONTHS
                   MONTHLY_INSURANCE DOWN_PAYMENT ;;
  breakeven_df <- calculate_break_even_down_payment INTEREST_RATE LOAN_MONTHS
                    MONTHLY_INSURANCE cashflow_df ;;
  positive <- positive_cashflow cashflow_df ;;
  if empty breakeven_df then
    ret (cashflow_df, breakeven_df, positive, None)
  else
    viable <- viable_at_20 breakeven_df ;;
    ret (cashflow_df, breakeven_df, positive, Some viable).

End Pipeline.
End Main.

Module MainFacts.
Import Num NumFacts Py PyFacts Frame Analysis AnalysisFacts AnalysisMore Main.

Lemma dec_lt (x y : Z) : (x < y)%Z -> dec x 100 < dec y 100.
Proof.
  intros H. unfold dec, Qclt.
  pose proof (this_Q2Qc (x # 100)) as Ex.
  pose proof (this_Q2Qc (y # 100)) as Ey.
  assert (Hq : (x # 100 < y # 100)%Q)
    by (unfold Qlt; cbn [Qnum Qden]; lia).
  generalize dependent (x # 100)%Q. generalize dependent (y # 100)%Q.
  intros. lra.
Qed.

Section Counts.
Context `{QS : Quicksort}.
Variables (i : Qc) (n : Z) (ins : Qc).

Let at_20 (r : Row) : bool :=
  np_leb (DownPaymentPercent r) (Fin (dec 20 100)).
Let positive (r : Row) : bool := np_gtb (MonthlyCashFlow r) (Fin 0).

(** A record reported by the search proper is reported above 0.20 when
    its cash flow at 0.20 is the non-positive one it already carries. *)
Lemma counted_once row :
  recomputed i n ins row (dec 20 100) = row ->
  List.length (filter at_20 (collect (break_even_row i n ins) [row]))
  = List.length (filter positive [row]).
Proof.
  intros Hsame. cbn [collect filter]. unfold break_even_row, outcome_row.
  fold (positive row). destruct (positive row) eqn:Hpos.
  - cbn [filter]. unfold at_20 at 1.
    replace (np_leb (DownPaymentPercent
                       (with_down_payment (dec 20 100) row))
                    (Fin (dec 20 100))) with true; [reflexivity|].
    symmetry. cbn [with_down_payment set_DownPaymentAmount
                   set_DownPaymentPercent DownPaymentPercent np_leb np_ltb].
    apply negb_true_iff, Qcltb_false, Qcle_refl.
  - destruct (find (positive_at i n ins row) candidates) as [f|] eqn:Ef;
      [|reflexivity].
    apply find_first in Ef as (k & Hk & Hf & _).
    apply candidates_nth_inv in Hk as (Hk & ->).
    destruct k as [|k].
    + exfalso. unfold positive_at in Hf.
      change (dec (20 + Z.of_nat 0) 100) with (dec 20 100) in Hf.
      rewrite Hsame in Hf. unfold positive in Hpos. congruence.
    + rewrite round2_candidate. cbn [filter]. unfold at_20 at 1.
      replace (np_leb (DownPaymentPercent
                         (with_down_payment
                            (dec (20 + Z.of_nat (S k)) 100)
                            (recomputed i n ins row
                               (dec (20 + Z.of_nat (S k)) 100))))
                      (Fin (dec 20 100))) with false; [reflexivity|].
      symmetry. cbn [with_down_payment set_DownPaymentAmount
                     set_DownPaymentPercent DownPaymentPercent np_leb np_ltb].
      apply negb_false_iff, Qcltb_true, dec_lt. lia.
Qed.

Lemma collect_cons {A B : Type} (f : A -> option B) x l :
  collect f (x :: l) = collect f [x] ++ collect f l.
Proof. cbn [collect]. destruct (f x); reflexivity. Qed.

Lemma counted l :
  (forall row, In row l -> recomputed i n ins row (dec 20 100) = row) ->
  List.length (filter at_20 (collect (break_even_row i n ins) l))
  = List.length (filter positive l).
Proof.
  induction l as [|row l IH]; intros Hall; [reflexivity|].
  rewrite collect_cons, filter_app, length_app.
  rewrite (counted_once row (Hall row (or_introl eq_refl))).
  rewrite IH by (intros r Hr; apply Hall; right; exact Hr).
  cbn [filter]. destruct (positive row); reflexivity.
Qed.

(** X21.  When the break-even table is computed from the cash-flow table
    at 20 percent down with the same rate, term and insurance, as the
    command-line program does, the count "viable at 20 percent" is
    always printed, and it is the number of records with a positive cash
    flow. *)
Theorem viable_at_20_counts_positive_cash_flows df tables :
  summary i n ins df = inr tables ->
  match tables with
  | (cashflow_df, breakeven_df, positive_count, viable_count) =>
      calculate_monthly_cash_flow df i n ins (dec 20 100) = inr cashflow_df
      /\ calculate_break_even_down_payment i n ins cashflow_df
         = inr breakeven_df
      /\ viable_count = Some positive_count
  end.
Proof.
  unfold summary. intros H.
  apply bind_inr in H as (cf & Hcf & H).
  apply bind_inr in H as (be & Hbe & H).
  apply bind_inr in H as (pc & Hpc & H).
  unfold positive_cashflow in Hpc. apply bind_inr in Hpc as (u & _ & Hpc).
  injection Hpc as <-.
  pose proof (break_even_rows _ _ _ _ _ Hbe) as Hrows.
  assert (Hfull : empty be = false).
  { pose proof (something_kept i n ins cf be Hbe) as Hkept.
    assert (Hr : rows be <> []).
    { rewrite Hrows. intros E. apply Hkept.
      apply (collect_break_even_nil i n ins _ E). }
    assert (Hc : columns be <> []).
    { unfold calculate_break_even_down_payment in Hbe.
      apply bind_inr in Hbe as (acc & _ & Hbe).
      apply bind_inr in Hbe as (res & _ & Hbe).
      apply bind_inr in Hbe as (u' & _ & Hbe). injection Hbe as <-.
      unfold assign, add_label. cbn [columns].
      destruct (existsb _ (columns res)) eqn:Ex.
      - intros E. rewrite E in Ex. discriminate.
      - intros E. apply app_eq_nil in E as [_ E]. discriminate. }
    unfold empty. destruct (rows be); [congruence|].
    destruct (columns be); [congruence | reflexivity]. }
  rewrite Hfull in H.
  apply bind_inr in H as (vc & Hvc & H). injection H as <-.
  split; [exact Hcf|]. split; [exact Hbe|].
  unfold viable_at_20 in Hvc. apply bind_inr in Hvc as (u' & _ & Hvc).
  injection Hvc as <-. f_equal.
  assert (Hall : forall row, In row (rows cf) ->
            recomputed i n ins row (dec 20 100) = row).
  { intros row Hrow. unfold DOWN_PAYMENT in Hcf.
    destruct (rows_are_cash_flow_rows _ _ _ _ _ _ _ Hcf Hrow)
      as (p & r0 & Hpow & _ & ->).
    unfold recomputed. rewrite (growth_eq i n p Hpow).
    apply cash_flow_row_idempotent. }
  rewrite Hrows. fold at_20 positive.
  exact (counted (rows cf) Hall).
Qed.

End Counts.

(** The summary of the sample listings at 6 percent over 12 months with
    insurance 100: one record of two has a positive cash flow at 20
    percent down. *)
Lemma sample_summary_run :
  summary (QS := Sorts.stable_sort) (dec 6 100) 12 (of_int 100)
    sample_listings
  = inr (sample_cash_flows, sample_break_even, 1%nat, Some 1%nat).
Proof. vm_compute. reflexivity. Defined.

Lemma viable_at_20_counts_positive_cash_flows_witness :
  summary (QS := Sorts.stable_sort) (dec 6 100) 12 (of_int 100)
    sample_listings
  = inr (sample_cash_flows, sample_break_even, 1%nat, Some 1%nat)
  /\ calculate_monthly_cash_flow (QS := Sorts.stable_sort) sample_listings
       (dec 6 100) 12 (of_int 100) (dec 20 100) = inr sample_cash_flows
  /\ calculate_break_even_down_payment (QS := Sorts.stable_sort)
       (dec 6 100) 12 (of_int 100) sample_cash_flows = inr sample_break_even
  /\ Some 1%nat = Some 1%nat.
Proof.
  split; [exact sample_summary_run|].
  exact (@viable_at_20_counts_positive_cash_flows Sorts.stable_sort
           (dec 6 100) 12 (of_int 100) sample_listings
           (sample_cash_flows, sample_break_even, 1%nat, Some 1%nat)
           sample_summary_run).
Defined.

End MainFacts.

(* ================================================================== *)
(** * analysis.py: the two normalizers *)
(* ================================================================== *)

Module Normalize.
Import Num Py.

(** A table as pandas holds it: its columns from left to right, each
    with a label and one cell per row.  The cells of a raw response
    table are whatever the service sent; their type is left open.

    The model covers tables whose labels are distinct after renaming.
    With a repeated label [df[label]] is a frame instead of a column,
    and the assignments that set the data types are no longer the
    column-wise ones written here; the facts below assume distinct
    labels. *)
Definition Table (C : Type) : Type := list (string * C).

Definition labels {C : Type} (df : Table C) : list string := map fst df.

(** [label in df.columns]. *)
Definition has_label {C : Type} (df : Table C) (label : string) : bool :=
  existsb (String.eqb label) (labels df).

(** [mapping.get(label, label)] for a dict literal. *)
Definition rename_label (mapping : list (string * string)) (label : string)
  : string :=
  match find (fun kv => String.eqb (fst kv) label) mapping with
  | Some kv => snd kv
  | None => label
  end.

(** [df.rename(columns=mapping)]. *)
Definition rename {C : Type} (mapping : list (string * string))
    (df : Table C) : Table C :=
  map (fun c => (rename_label mapping (fst c), snd c)) df.

(** [df[cols]] for labels that all exist: the columns with each label,
    in the order of [cols]. *)
Definition select {C : Type} (cols : list string) (df : Table C) : Table C :=
  flat_map (fun col => filter (fun c => String.eqb (fst c) col) df) cols.

(** The rows of a column that are not marked for dropping. *)
Definition keep_rows {A : Type} (drop : list bool) (l : list A) : list A :=
  map snd (filter (fun p => negb (fst p)) (combine drop l)).

(** A row is dropped when any of the masks marks it. *)
Fixpoint or_masks (masks : list (list bool)) : list bool :=
  match masks with
  | [] => []
  | [m] => m
  | m :: rest =>
      map (fun p => orb (fst p) (snd p)) (combine m (or_masks rest))
  end.

(** [df.dropna(subset=['Price'])], given how a column marks its missing
    cells.  A frame without the label raises [KeyError(['Price'])]. *)
Definition dropna_Price {C : Type} (na_mask : C -> list bool)
    (keep : list bool -> C -> C) (df : Table C) : exc (Table C) :=
  match filter (fun c => String.eqb (fst c) "Price") df with
  | [] => raise (KeyError "['Price']")
  | price =>
      let drop := or_masks (map (fun c => na_mask (snd c)) price) in
      ret (map (fun c => (fst c, keep drop (snd c))) df)
  end.

Section Cells.
Variable cell : Type.
(** [pd.isna] on a raw cell, [str] of a raw cell, and the value
    [pd.to_numeric(errors='coerce')] gives for a raw cell. *)
Variable isna : cell -> bool.
Variable astype_str : cell -> string.
Variable to_numeric : cell -> npfloat.

(** A column after the data types are set. *)
Inductive Series : Type :=
| Raw (cells : list cell)
| Strs (cells : list string)
| Nums (cells : list npfloat).

Definition series_na (s : Series) : list bool :=
  match s with
  | Raw l => map isna l
  | Strs l => map (fun _ => false) l
  | Nums l => map is_nan l
  end.

Definition series_keep (drop : list bool) (s : Series) : Series :=
  match s with
  | Raw l => Raw (keep_rows drop l)
  | Strs l => Strs (keep_rows drop l)
  | Nums l => Nums (keep_rows drop l)
  end.

Definition mem (label : string) (l : list string) : bool :=
  existsb (String.eqb label) l.

(** The chain of [if label in df.columns: df[label] = ...]: the labels
    of [str_cols] become strings, those of [num_cols] numbers, every
    other column is left as it is. *)
Definition set_types (str_cols num_cols : list string)
    (df : Table (list cell)) : Table Series :=
  map (fun c =>
         if mem (fst c) str_cols then (fst c, Strs (map astype_str (snd c)))
         else if mem (fst c) num_cols
              then (fst c, Nums (map to_numeric (snd c)))
              else (fst c, Raw (snd c)))
      df.

Definition normalize (column_mapping : list (string * string))
    (columns str_cols num_cols : list string) (df : Table (list cell))
  : exc (Table Series) :=
  let df := rename column_mapping df in
  let available_columns := filter (has_label df) columns in
  let df := select available_columns df in
  df <- dropna_Price (map isna) keep_rows df ;;
  let df := set_types str_cols num_cols df in
  dropna_Price series_na series_keep df.

Definition zillow_mapping : list (string * string) :=
  [("hdpData.homeInfo.homeType", "HomeType");
   ("hdpData.homeInfo.streetAddress", "Address");
   ("hdpData.homeInfo.city", "City");
   ("hdpData.homeInfo.state", "State");
   ("hdpData.homeInfo.zipcode", "Zipcode");
   ("hdpData.homeInfo.livingArea", "Sqft");
   ("hdpData.homeInfo.lotAreaValue", "LotSize");
   ("hdpData.homeInfo.price", "Price");
   ("hdpData.homeInfo.zestimate", "PriceEstimate");
   ("hdpData.homeInfo.rentZestimate", "RentEstimate");
   ("zpid", "ID")]%string.

Definition zillow_columns : list string :=
  ["ID"; "Address"; "Zipcode"; "Sqft"; "LotSize"; "Price"; "PriceEstimate";
   "RentEstimate"; "HomeType"]%string.

Definition normalize_zillow_data (df : Table (list cell))
  : exc (Table Series) :=
  normalize zillow_mapping zillow_columns
    ["ID"; "Address"; "Zipcode"; "LotSize"]%string
    ["Price"; "PriceEstimate"; "RentEstimate"]%string df.

Definition redfin_mapping : list (string * string) :=
  [("listingId", "ID"); ("baths", "Baths"); ("beds", "Beds");
   ("sqFt.value", "Sqft"); ("streetLine.value", "Address");
   ("zip", "Zipcode"); ("price.value", "Price");
   ("lotSize.value", "LotSize")]%string.

Definition redfin_columns : list string :=
  ["ID"; "Address"; "Zipcode"; "Beds"; "Baths"; "Sqft"; "LotSize";
   "Price"]%string.

Definition normalize_redfin_data (df : Table (list cell))
  : exc (Table Series) :=
  normalize redfin_mapping redfin_columns
    ["ID"; "Address"; "Zipcode"; "Beds"; "Baths"; "LotSize"]%string
    ["Price"]%string df.

(** A price cell survives when it is present and converts to a number. *)
Definition valid_price (p : cell) : bool :=
  negb (isna p) && negb (is_nan (to_numeric p)).

(** What becomes of a column: its rows with a valid price, in order,
    with the data type of its label. *)
Definition typed (str_cols num_cols : list string) (label : string)
    (cells : list cell) : Series :=
  if mem label str_cols then Strs (map astype_str cells)
  else if mem label num_cols then Nums (map to_numeric cells)
       else Raw cells.

Definition rows_with_price (prices cells : list cell) : list cell :=
  map snd (filter (fun pc => valid_price (fst pc)) (combine prices cells)).

End Cells.
End Normalize.

Module NormalizeFacts.
Import Num NumFacts Py PyFacts Normalize.

(** ** Labels *)

Lemma labels_rename {C : Type} mapping (df : Table C) :
  labels (rename mapping df) = map (rename_label mapping) (labels df).
Proof. unfold labels, rename. rewrite !map_map. reflexivity. Qed.

Lemma select_In {C : Type} cols (df : Table C) c :
  In c (select cols df) <-> In (fst c) cols /\ In c df.
Proof.
  unfold select. rewrite in_flat_map. split.
  - intros (col & Hcol & Hc). apply filter_In in Hc as [Hc E].
    apply String.eqb_eq in E. subst col. split; assumption.
  - intros [Hcol Hc]. exists (fst c). split; [exact Hcol|].
    apply filter_In. split; [exact Hc | apply String.eqb_refl].
Qed.

Lemma has_label_In {C : Type} (df : Table C) label :
  has_label df label = true <-> In label (labels df).
Proof.
  unfold has_label. rewrite existsb_exists. split.
  - intros (l & Hl & E). apply String.eqb_eq in E. subst l. exact Hl.
  - intros H. exists label. split; [exact H | apply String.eqb_refl].
Qed.

Lemma mem_In label l : mem label l = true <-> In label l.
Proof.
  unfold mem. rewrite existsb_exists. split.
  - intros (x & Hx & E). apply String.eqb_eq in E. subst x. exact Hx.
  - intros H. exists label. split; [exact H | apply String.eqb_refl].
Qed.

Lemma no_label_no_column {C : Type} (df : Table C) label :
  has_label df label = false ->
  filter (fun c => String.eqb (fst c) label) df = [].
Proof.
  intros H. induction df as [|c df IH]; [reflexivity|].
  unfold has_label in *. cbn [labels map existsb] in H.
  apply orb_false_iff in H as [Hc Hrest].
  cbn [filter]. rewrite (String.eqb_sym (fst c) label), Hc. apply IH, Hrest.
Qed.

Lemma has_label_select {C : Type} cols (df : Table C) label :
  has_label (select cols df) label = mem label cols && has_label df label.
Proof.
  apply eq_true_iff_eq. rewrite andb_true_iff, mem_In, !has_label_In.
  unfold labels. rewrite !in_map_iff. split.
  - intros (c & <- & Hc). apply select_In in Hc as [Hcol Hin].
    split; [exact Hcol | exists c; split; [reflexivity | exact Hin]].
  - intros (Hcol & c & <- & Hin). exists c. split; [reflexivity|].
    apply select_In. split; assumption.
Qed.

(** With distinct labels a label selects exactly its column. *)
Lemma one_column {C : Type} (df : Table C) label :
  NoDup (labels df) -> has_label df label = true ->
  exists cells,
    filter (fun c => String.eqb (fst c) label) df = [(label, cells)].
Proof.
  induction df as [|[l cells] df IH]; intros Hnd Hl.
  - discriminate.
  - cbn [labels map] in Hnd. apply NoDup_cons_iff in Hnd as [Hnotin Hnd].
    cbn [filter fst]. destruct (String.eqb l label) eqn:E.
    + apply String.eqb_eq in E. subst l. exists cells.
      rewrite no_label_no_column; [reflexivity|].
      destruct (has_label df label) eqn:H; [|reflexivity].
      apply has_label_In in H. contradiction.
    + apply IH; [exact Hnd|].
      unfold has_label in *. cbn [labels map existsb] in Hl.
      cbn [fst] in Hl. rewrite (String.eqb_sym label l), E in Hl. exact Hl.
Qed.

Lemma labels_select {C : Type} cols (df : Table C) :
  NoDup (labels df) ->
  labels (select (filter (has_label df) cols) df) = filter (has_label df) cols.
Proof.
  intros Hnd. induction cols as [|col cols IH]; [reflexivity|].
  cbn [filter]. destruct (has_label df col) eqn:H; [|exact IH].
  unfold select in *. cbn [flat_map]. unfold labels in *.
  rewrite map_app, IH.
  destruct (one_column df col Hnd H) as (cells & ->). reflexivity.
Qed.

Lemma labels_dropna {C : Type} (na : C -> list bool) keep (df out : Table C) :
  dropna_Price na keep df = inr out -> labels out = labels df.
Proof.
  unfold dropna_Price.
  destruct (filter _ df); [discriminate|].
  intros H. injection H as <-. unfold labels. rewrite map_map. reflexivity.
Qed.

Lemma dropna_inr {C : Type} (na : C -> list bool) keep (df out : Table C) :
  dropna_Price na keep df = inr out ->
  has_label df "Price" = true
  /\ out = map (fun c =>
                  (fst c,
                   keep (or_masks
                           (map (fun c => na (snd c))
                              (filter (fun c => String.eqb (fst c) "Price")
                                      df)))
                        (snd c))) df.
Proof.
  unfold dropna_Price.
  destruct (filter (fun c => String.eqb (fst c) "Price") df) as [|p ps] eqn:E;
    [discriminate|].
  intros H. injection H as <-. split; [|reflexivity].
  apply has_label_In. unfold labels.
  assert (Hin : In p (p :: ps)) by (left; reflexivity).
  rewrite <- E in Hin. apply filter_In in Hin as [Hin Hl].
  apply String.eqb_eq in Hl. rewrite <- Hl. apply in_map, Hin.
Qed.

Lemma dropna_has_price {C : Type} (na : C -> list bool) keep (df : Table C) :
  has_label df "Price" = true ->
  exists out, dropna_Price na keep df = inr out.
Proof.
  intros H. unfold dropna_Price.
  destruct (filter (fun c => String.eqb (fst c) "Price") df) as [|p ps] eqn:E;
    [|eauto].
  apply has_label_In in H. unfold labels in H.
  apply in_map_iff in H as (c & Hl & Hin).
  assert (Hc : In c (filter (fun c => String.eqb (fst c) "Price") df))
    by (apply filter_In; split; [exact Hin | rewrite Hl; reflexivity]).
  rewrite E in Hc. contradiction.
Qed.

Lemma dropna_no_price {C : Type} (na : C -> list bool) keep (df : Table C) :
  has_label df "Price" = false ->
  dropna_Price na keep df = inl (KeyError "['Price']").
Proof.
  intros H. unfold dropna_Price. rewrite (no_label_no_column _ _ H).
  reflexivity.
Qed.

(** ** Dropping rows *)

Lemma keep_rows_nil_r {A : Type} (drop : list bool) :
  keep_rows drop (@nil A) = [].
Proof. unfold keep_rows. rewrite combine_nil. reflexivity. Qed.

Lemma keep_rows_cons {A : Type} (d : bool) drop (x : A) l :
  keep_rows (d :: drop) (x :: l)
  = if d then keep_rows drop l else x :: keep_rows drop l.
Proof. unfold keep_rows. cbn [combine filter fst]. destruct d; reflexivity. Qed.

Lemma keep_rows_map {A B : Type} (h : A -> B) drop (l : list A) :
  keep_rows drop (map h l) = map h (keep_rows drop l).
Proof.
  revert drop. induction l as [|x l IH]; intros drop.
  - cbn [map]. rewrite !keep_rows_nil_r. reflexivity.
  - destruct drop as [|d drop]; [reflexivity|].
    cbn [map]. rewrite !keep_rows_cons, IH. destruct d; reflexivity.
Qed.

(** Two rounds of dropping by the price column are one filter on the
    rows. *)
Lemma keep_rows_twice {P A : Type} (f g : P -> bool) (ps : list P)
    (cs : list A) :
  keep_rows (map g (keep_rows (map f ps) ps)) (keep_rows (map f ps) cs)
  = map snd (filter (fun pc => negb (f (fst pc)) && negb (g (fst pc)))
                    (combine ps cs)).
Proof.
  revert cs. induction ps as [|p ps IH]; intros cs.
  - reflexivity.
  - destruct cs as [|c cs].
    + cbn [combine filter map]. rewrite !keep_rows_nil_r. reflexivity.
    + cbn [map combine filter fst]. rewrite !keep_rows_cons.
      destruct (f p); cbn [negb andb]; [apply IH|].
      cbn [map]. rewrite keep_rows_cons.
      destruct (g p); cbn [negb map snd]; rewrite IH; reflexivity.
Qed.

Lemma keep_rows_own {P : Type} (f : P -> bool) (ps : list P) :
  keep_rows (map f ps) ps = filter (fun p => negb (f p)) ps.
Proof.
  induction ps as [|p ps IH]; [reflexivity|].
  cbn [map filter]. rewrite keep_rows_cons, IH. destruct (f p); reflexivity.
Qed.

Lemma filter_labels_map {C D : Type} (h : string * C -> string * D)
    (df : Table C) label :
  (forall c, fst (h c) = fst c) ->
  filter (fun c => String.eqb (fst c) label) (map h df)
  = map h (filter (fun c => String.eqb (fst c) label) df).
Proof.
  intros Hh. induction df as [|c df IH]; [reflexivity|].
  cbn [map filter]. rewrite Hh.
  destruct (String.eqb (fst c) label); cbn [map]; rewrite IH; reflexivity.
Qed.

Section NormalizerFacts.
Variable cell : Type.
Variable isna : cell -> bool.
Variable astype_str : cell -> string.
Variable to_numeric : cell -> npfloat.
Variables (mapping : list (string * string)).
Variables (columns str_cols num_cols : list string).

Let run := normalize cell isna astype_str to_numeric mapping columns
                     str_cols num_cols.
Let Series := Series cell.

Lemma labels_set_types (df : Table (list cell)) :
  labels (set_types cell astype_str to_numeric str_cols num_cols df)
  = labels df.
Proof.
  unfold labels, set_types. rewrite map_map. apply map_ext.
  intros c. destruct (mem (fst c) str_cols); [reflexivity|].
  destruct (mem (fst c) num_cols); reflexivity.
Qed.

Lemma set_types_typed (df : Table (list cell)) :
  set_types cell astype_str to_numeric str_cols num_cols df
  = map (fun c => (fst c,
                   typed cell astype_str to_numeric str_cols num_cols
                         (fst c) (snd c))) df.
Proof.
  unfold set_types, typed. apply map_ext. intros c.
  destruct (mem (fst c) str_cols); [reflexivity|].
  destruct (mem (fst c) num_cols); reflexivity.
Qed.

Lemma series_keep_typed drop label cells :
  series_keep cell drop
    (typed cell astype_str to_numeric str_cols num_cols label cells)
  = typed cell astype_str to_numeric str_cols num_cols label
          (keep_rows drop cells).
Proof.
  unfold typed. destruct (mem label str_cols).
  - cbn [series_keep]. rewrite keep_rows_map. reflexivity.
  - destruct (mem label num_cols); cbn [series_keep];
      [rewrite keep_rows_map|]; reflexivity.
Qed.

(** Without a price column after renaming, the first [dropna] raises. *)
Lemma normalize_no_price df :
  has_label (rename mapping df) "Price" = false ->
  run df = inl (KeyError "['Price']").
Proof.
  intros H. unfold run, normalize.
  rewrite dropna_no_price; [reflexivity|].
  rewrite has_label_select, H. apply andb_false_r.
Qed.

Lemma normalize_no_standard_price df :
  mem "Price" columns = false ->
  run df = inl (KeyError "['Price']").
Proof.
  intros H. unfold run, normalize.
  rewrite dropna_no_price; [reflexivity|].
  rewrite has_label_select.
  destruct (mem "Price" (filter (has_label (rename mapping df)) columns))
    eqn:E; [|reflexivity].
  apply mem_In, filter_In in E as [E _]. apply mem_In in E. congruence.
Qed.

Lemma normalize_returns df :
  mem "Price" columns = true ->
  has_label (rename mapping df) "Price" = true ->
  exists out, run df = inr out.
Proof.
  intros Hstd Hp. unfold run, normalize.
  set (sel := select _ _).
  assert (Hsel : has_label sel "Price" = true).
  { unfold sel. rewrite has_label_select, Hp, andb_true_r.
    apply mem_In, filter_In. split; [apply mem_In, Hstd | exact Hp]. }
  destruct (dropna_has_price (map isna) keep_rows sel Hsel) as (df1 & H1).
  rewrite H1. cbn [bind].
  apply dropna_has_price.
  unfold has_label. rewrite labels_set_types.
  rewrite (labels_dropna _ _ _ _ H1). exact Hsel.
Qed.

(** The failures of a normalizer: only the [KeyError] of [dropna]. *)
Lemma normalize_fails df e :
  run df = inl e ->
  e = KeyError "['Price']"
  /\ (mem "Price" columns = false
      \/ has_label (rename mapping df) "Price" = false).
Proof.
  intros H.
  destruct (mem "Price" columns) eqn:Hstd.
  - destruct (has_label (rename mapping df) "Price") eqn:Hp.
    + destruct (normalize_returns df Hstd Hp) as (out & Hout). congruence.
    + rewrite (normalize_no_price df Hp) in H. injection H as <-.
      split; [reflexivity | right; reflexivity].
  - rewrite (normalize_no_standard_price df Hstd) in H. injection H as <-.
    split; [reflexivity | left; reflexivity].
Qed.

(** Every label of the result is a standard one. *)
Lemma normalize_labels_standard df out label :
  run df = inr out -> has_label out label = true ->
  mem label columns = true /\ has_label (rename mapping df) label = true.
Proof.
  unfold run, normalize. intros H Hl.
  apply bind_inr in H as (df1 & H1 & H2).
  apply labels_dropna in H1, H2.
  unfold has_label in Hl. rewrite H2, labels_set_types, H1 in Hl.
  fold (has_label (select (filter (has_label (rename mapping df)) columns)
                          (rename mapping df)) label) in Hl.
  rewrite has_label_select in Hl. apply andb_true_iff in Hl as [Hm Hh].
  split; [|exact Hh].
  apply mem_In, filter_In in Hm as [Hm _]. apply mem_In, Hm.
Qed.

Hypothesis price_is_number :
  mem "Price" str_cols = false /\ mem "Price" num_cols = true.
Hypothesis standard_distinct : NoDup columns.

(** With distinct labels after renaming: the result has the standard
    columns that exist, in standard order, and its rows are the rows
    of the input whose price is present and converts to a number, in
    their order, each column with the data type of its label. *)
Lemma normalize_rows df out :
  NoDup (labels (rename mapping df)) ->
  run df = inr out ->
  exists prices,
    In ("Price"%string, prices) (rename mapping df)
    /\ out
       = map (fun c =>
                (fst c,
                 typed cell astype_str to_numeric str_cols num_cols (fst c)
                   (rows_with_price cell isna to_numeric prices (snd c))))
             (select (filter (has_label (rename mapping df)) columns)
                     (rename mapping df)).
Proof.
  intros Hnd H. unfold run, normalize in H.
  set (ren := rename mapping df) in *.
  set (sel := select (filter (has_label ren) columns) ren) in *.
  apply bind_inr in H as (df1 & H1 & H2).
  apply dropna_inr in H1 as (Hp1 & E1).
  assert (Hsel_nd : NoDup (labels sel)).
  { unfold sel. rewrite (labels_select _ _ Hnd).
    apply NoDup_filter, standard_distinct. }
  destruct (one_column sel "Price" Hsel_nd Hp1) as (prices & Eprice).
  rewrite Eprice in E1. cbn [map or_masks snd] in E1.
  exists prices. split.
  { assert (Hin : In ("Price"%string, prices)
                     (filter (fun c => String.eqb (fst c) "Price") sel))
      by (rewrite Eprice; left; reflexivity).
    apply filter_In in Hin as [Hin _]. apply select_In in Hin as [_ Hin].
    exact Hin. }
  apply dropna_inr in H2 as (_ & E2).
  subst df1. rewrite set_types_typed in E2.
  rewrite !filter_labels_map in E2 by reflexivity.
  rewrite Eprice in E2. cbn [map or_masks snd fst] in E2.
  destruct price_is_number as [Hs Hn].
  unfold typed at 1 in E2. rewrite Hs, Hn in E2. cbn [series_na] in E2.
  rewrite E2, !map_map. apply map_ext. intros c. cbn [fst snd].
  f_equal. rewrite series_keep_typed. f_equal.
  apply (keep_rows_twice isna (fun p => is_nan (to_numeric p)) prices (snd c)).
Qed.

End NormalizerFacts.

(** ** The two normalizers *)

Ltac by_label l :=
  repeat (match goal with
          | |- context [String.eqb ?k l] => destruct (String.eqb k l) eqn:?
          end; cbv iota);
  try match goal with
      | H : String.eqb _ l = true |- _ => apply String.eqb_eq in H; subst l
      end;
  try discriminate; try reflexivity.

Lemma zillow_price_label l :
  String.eqb "Price" (rename_label zillow_mapping l)
  = String.eqb "hdpData.homeInfo.price" l || String.eqb "Price" l.
Proof.
  unfold rename_label, zillow_mapping. cbn [find fst snd]. by_label l.
Qed.

Lemma redfin_price_label l :
  String.eqb "Price" (rename_label redfin_mapping l)
  = String.eqb "price.value" l || String.eqb "Price" l.
Proof.
  unfold rename_label, redfin_mapping. cbn [find fst snd]. by_label l.
Qed.

Lemma has_label_rename {C : Type} mapping (df : Table C) label k :
  (forall l, String.eqb label (rename_label mapping l)
             = String.eqb k l || String.eqb label l) ->
  has_label (rename mapping df) label
  = has_label df k || has_label df label.
Proof.
  intros H. unfold has_label. rewrite labels_rename.
  induction (labels df) as [|l ls IH]; [reflexivity|].
  cbn [map existsb]. rewrite IH, H.
  destruct (String.eqb k l), (String.eqb label l), (existsb _ ls),
    (existsb _ ls); reflexivity.
Qed.

Section Normalizers.
Variable cell : Type.
Variable isna : cell -> bool.
Variable astype_str : cell -> string.
Variable to_numeric : cell -> npfloat.

Let zillow := normalize_zillow_data cell isna astype_str to_numeric.
Let redfin := normalize_redfin_data cell isna astype_str to_numeric.

(** X22.  With distinct labels after renaming, the Zillow normalizer
    returns exactly when the raw table has the service's price column or
    a column already called ["Price"]; otherwise it raises the
    [KeyError] of [dropna], as it does on the empty table the fetch
    layer returns after a failure. *)
Theorem zillow_fails_only_without_a_price (df : Table (list cell)) :
  NoDup (labels (rename zillow_mapping df)) ->
  match zillow df with
  | inr _ =>
      has_label df "hdpData.homeInfo.price" || has_label df "Price" = true
  | inl e =>
      e = KeyError "['Price']"
      /\ has_label df "hdpData.homeInfo.price" || has_label df "Price"
         = false
  end.
Proof.
  intros _.
  rewrite <- (has_label_rename zillow_mapping df "Price" _
                zillow_price_label).
  destruct (zillow df) as [e|out] eqn:H.
  - apply normalize_fails in H as [-> [Hm|Hp]];
      [discriminate | split; [reflexivity | exact Hp]].
  - destruct (has_label (rename zillow_mapping df) "Price") eqn:Hp;
      [reflexivity|].
    unfold zillow, normalize_zillow_data in H.
    rewrite (normalize_no_price _ _ _ _ _ _ _ _ _ Hp) in H. discriminate.
Qed.

(** X23.  The same for the Redfin normalizer and its price column. *)
Theorem redfin_fails_only_without_a_price (df : Table (list cell)) :
  NoDup (labels (rename redfin_mapping df)) ->
  match redfin df with
  | inr _ => has_label df "price.value" || has_label df "Price" = true
  | inl e =>
      e = KeyError "['Price']"
      /\ has_label df "price.value" || has_label df "Price" = false
  end.
Proof.
  intros _.
  rewrite <- (has_label_rename redfin_mapping df "Price" _
                redfin_price_label).
  destruct (redfin df) as [e|out] eqn:H.
  - apply normalize_fails in H as [-> [Hm|Hp]];
      [discriminate | split; [reflexivity | exact Hp]].
  - destruct (has_label (rename redfin_mapping df) "Price") eqn:Hp;
      [reflexivity|].
    unfold redfin, normalize_redfin_data in H.
    rewrite (normalize_no_price _ _ _ _ _ _ _ _ _ Hp) in H. discriminate.
Qed.

(** X24.  The Redfin normalizer never delivers a rent column, nor a price
    estimate, even when the raw table holds one: these labels are not
    among the columns it selects. *)
Theorem redfin_has_no_rent_column (df : Table (list cell)) out :
  NoDup (labels (rename redfin_mapping df)) ->
  redfin df = inr out ->
  has_label out "RentEstimate" = false
  /\ has_label out "PriceEstimate" = false
  /\ forall label, has_label out label = true -> In label redfin_columns.
Proof.
  intros _ H.
  assert (Hstd : forall label, has_label out label = true ->
                   In label redfin_columns).
  { intros label Hl.
    destruct (normalize_labels_standard _ _ _ _ _ _ _ _ _ _ _ H Hl) as [Hm _].
    apply mem_In, Hm. }
  split; [|split; [|exact Hstd]].
  - destruct (has_label out "RentEstimate") eqn:E; [|reflexivity].
    apply Hstd in E. cbn in E.
    repeat destruct E as [E|E]; try discriminate; contradiction.
  - destruct (has_label out "PriceEstimate") eqn:E; [|reflexivity].
    apply Hstd in E. cbn in E.
    repeat destruct E as [E|E]; try discriminate; contradiction.
Qed.

Lemma zillow_columns_distinct : NoDup zillow_columns.
Proof.
  unfold zillow_columns.
  repeat (apply NoDup_cons;
          [cbn [In]; intros H;
           repeat destruct H as [H|H]; try discriminate; contradiction|]).
  apply NoDup_nil.
Qed.

Lemma redfin_columns_distinct : NoDup redfin_columns.
Proof.
  unfold redfin_columns.
  repeat (apply NoDup_cons;
          [cbn [In]; intros H;
           repeat destruct H as [H|H]; try discriminate; contradiction|]).
  apply NoDup_nil.
Qed.

Lemma combine_diagonal {A : Type} (l : list A) x y :
  In (x, y) (combine l l) -> x = y.
Proof.
  induction l as [|q qs IH]; cbn [combine]; [contradiction|].
  intros [E|Hin]; [congruence | apply IH, Hin].
Qed.

Lemma rows_with_price_valid prices :
  Forall (fun x => is_nan x = false)
         (map to_numeric (rows_with_price cell isna to_numeric prices prices)).
Proof.
  unfold rows_with_price. apply Forall_forall. intros x Hx.
  apply in_map_iff in Hx as (p & <- & Hp).
  apply in_map_iff in Hp as ([p0 p1] & E & Hin). cbn [snd] in E. subst p1.
  apply filter_In in Hin as [Hin Hv]. cbn [fst] in Hv.
  apply combine_diagonal in Hin. subst p0. unfold valid_price in Hv. apply andb_true_iff in Hv as [_ Hv].
  apply negb_true_iff, Hv.
Qed.

(** X25.  When the labels of the raw Zillow table are distinct after
    renaming, the result has the standard columns that exist, in the
    standard order; its rows are the input rows whose price is present
    and converts to a number, in input order, every column cut to the
    same rows; the price column holds numbers, none of them [NaN]. *)
Theorem zillow_keeps_rows_with_a_price (df : Table (list cell)) out :
  NoDup (labels (rename zillow_mapping df)) ->
  zillow df = inr out ->
  let renamed := rename zillow_mapping df in
  let as_typed :=
    typed cell astype_str to_numeric
      ["ID"; "Address"; "Zipcode"; "LotSize"]%string
      ["Price"; "PriceEstimate"; "RentEstimate"]%string in
  labels out = filter (has_label renamed) zillow_columns
  /\ exists prices,
       In ("Price"%string, prices) renamed
       /\ out
          = map (fun c =>
                   (fst c,
                    as_typed (fst c)
                      (rows_with_price cell isna to_numeric prices (snd c))))
                (select (filter (has_label renamed) zillow_columns) renamed)
       /\ exists kept,
            In ("Price"%string, Nums cell kept) out
            /\ Forall (fun x => is_nan x = false) kept.
Proof.
  intros Hnd H renamed as_typed.
  destruct (normalize_rows cell isna astype_str to_numeric zillow_mapping
              zillow_columns
              ["ID"; "Address"; "Zipcode"; "LotSize"]%string
              ["Price"; "PriceEstimate"; "RentEstimate"]%string
              (conj eq_refl eq_refl)
              zillow_columns_distinct df out Hnd H) as (prices & Hin & E).
  fold renamed in Hin, E. fold as_typed in E.
  split.
  - rewrite E. unfold labels. rewrite map_map. cbn [fst].
    apply (labels_select zillow_columns renamed Hnd).
  - exists prices. split; [exact Hin|]. split; [exact E|].
    exists (map to_numeric
              (rows_with_price cell isna to_numeric prices prices)).
    split; [|apply rows_with_price_valid].
    rewrite E. apply in_map_iff. exists ("Price"%string, prices).
    split; [reflexivity|]. apply select_In. split; [|exact Hin].
    apply filter_In. split; [cbn; tauto|].
    apply has_label_In. unfold labels.
    apply in_map_iff. exists ("Price"%string, prices).
    split; [reflexivity | exact Hin].
Qed.

(** X26.  When the labels of the raw Redfin table are distinct after
    renaming, the result has the standard columns that exist, in the
    standard order; its rows are the input rows whose price is present
    and converts to a number, in input order, every column cut to the
    same rows; the price column holds numbers, none of them [NaN]. *)
Theorem redfin_keeps_rows_with_a_price (df : Table (list cell)) out :
  NoDup (labels (rename redfin_mapping df)) ->
  redfin df = inr out ->
  let renamed := rename redfin_mapping df in
  let as_typed :=
    typed cell astype_str to_numeric
      ["ID"; "Address"; "Zipcode"; "Beds"; "Baths"; "LotSize"]%string
      ["Price"]%string in
  labels out = filter (has_label renamed) redfin_columns
  /\ exists prices,
       In ("Price"%string, prices) renamed
       /\ out
          = map (fun c =>
                   (fst c,
                    as_typed (fst c)
                      (rows_with_price cell isna to_numeric prices (snd c))))
                (select (filter (has_label renamed) redfin_columns) renamed)
       /\ exists kept,
            In ("Price"%string, Nums cell kept) out
            /\ Forall (fun x => is_nan x = false) kept.
Proof.
  intros Hnd H renamed as_typed.
  destruct (normalize_rows cell isna astype_str to_numeric redfin_mapping
              redfin_columns
              ["ID"; "Address"; "Zipcode"; "Beds"; "Baths"; "LotSize"]%string
              ["Price"]%string
              (conj eq_refl eq_refl)
              redfin_columns_distinct df out Hnd H) as (prices & Hin & E).
  fold renamed in Hin, E. fold as_typed in E.
  split.
  - rewrite E. unfold labels. rewrite map_map. cbn [fst].
    apply (labels_select redfin_columns renamed Hnd).
  - exists prices. split; [exact Hin|]. split; [exact E|].
    exists (map to_numeric
              (rows_with_price cell isna to_numeric prices prices)).
    split; [|apply rows_with_price_valid].
    rewrite E. apply in_map_iff. exists ("Price"%string, prices).
    split; [reflexivity|]. apply select_In. split; [|exact Hin].
    apply filter_In. split; [cbn; tauto|].
    apply has_label_In. unfold labels.
    apply in_map_iff. exists ("Price"%string, prices).
    split; [reflexivity | exact Hin].
Qed.

End Normalizers.

(** ** The theorems at concrete tables *)

(** An instance of the cell parameters, enough for the tables below:
    a cell is missing, an integer, a float or a string.  A string
    converts to a number when it is a decimal integer, and the floats
    that are printed are whole. *)
Inductive json : Type :=
| JNull
| JInt (z : Z)
| JFloat (x : npfloat)
| JStr (s : string).

Definition json_isna (c : json) : bool :=
  match c with
  | JNull => true
  | JFloat x => is_nan x
  | _ => false
  end.

Definition json_str (c : json) : string :=
  match c with
  | JNull => "None"
  | JInt z => NilZero.string_of_int (Z.to_int z)
  | JFloat (Fin q) =>
      NilZero.string_of_int (Z.to_int (Qfloor (this q))) ++ ".0"
  | JFloat PInf => "inf"
  | JFloat NInf => "-inf"
  | JFloat NaN => "nan"
  | JStr s => s
  end.

Definition json_to_numeric (c : json) : npfloat :=
  match c with
  | JNull => NaN
  | JInt z => Fin (of_int z)
  | JFloat x => x
  | JStr s =>
      match NilZero.int_of_string s with
      | Some d => Fin (of_int (Z.of_int d))
      | None => NaN
      end
  end.

(** Three Zillow records: the second has no price, the third a price
    that is not a number. *)
Definition raw_zillow : Table (list json) :=
  [("zpid", [JInt 1; JInt 2; JInt 3]);
   ("hdpData.homeInfo.price", [JInt 300000; JNull; JStr "n/a"]);
   ("hdpData.homeInfo.rentZestimate", [JNull; JInt 1500; JInt 1800]);
   ("hdpData.homeInfo.city", [JStr "Fresno"; JStr "Fresno"; JStr "Clovis"])
  ]%string.

(** Two Redfin records, with a rent column the service happens to
    send. *)
Definition raw_redfin : Table (list json) :=
  [("listingId", [JInt 7; JInt 8]);
   ("price.value", [JStr "250000"; JNull]);
   ("RentEstimate", [JInt 1400; JInt 1600])]%string.

Definition zillow_sample : Table (Series json) :=
  Eval vm_compute in
    match normalize_zillow_data json json_isna json_str json_to_numeric
            raw_zillow with
    | inr t => t
    | inl _ => []
    end.

Definition redfin_sample : Table (Series json) :=
  Eval vm_compute in
    match normalize_redfin_data json json_isna json_str json_to_numeric
            raw_redfin with
    | inr t => t
    | inl _ => []
    end.

Lemma zillow_sample_run :
  normalize_zillow_data json json_isna json_str json_to_numeric raw_zillow
  = inr zillow_sample.
Proof. vm_compute. reflexivity. Defined.

Lemma redfin_sample_run :
  normalize_redfin_data json json_isna json_str json_to_numeric raw_redfin
  = inr redfin_sample.
Proof. vm_compute. reflexivity. Defined.

Ltac distinct_labels :=
  cbn;
  repeat (apply NoDup_cons;
          [cbn [In]; intros H;
           repeat destruct H as [H|H]; try discriminate; contradiction|]);
  apply NoDup_nil.

Lemma raw_zillow_distinct : NoDup (labels (rename zillow_mapping raw_zillow)).
Proof. distinct_labels. Qed.

Lemma raw_redfin_distinct : NoDup (labels (rename redfin_mapping raw_redfin)).
Proof. distinct_labels. Qed.

(** A raw table without any price column: the city only. *)
Definition raw_unpriced : Table (list json) :=
  [("hdpData.homeInfo.city", [JStr "Fresno"])]%string.

Lemma raw_unpriced_distinct :
  NoDup (labels (rename zillow_mapping raw_unpriced))
  /\ NoDup (labels (rename redfin_mapping raw_unpriced)).
Proof. split; distinct_labels. Qed.

Lemma zillow_fails_only_without_a_price_witness :
  NoDup (labels (rename zillow_mapping raw_unpriced))
  /\ normalize_zillow_data json json_isna json_str json_to_numeric
       raw_unpriced = inl (KeyError "['Price']")
  /\ KeyError "['Price']" = KeyError "['Price']"
  /\ has_label raw_unpriced "hdpData.homeInfo.price"
     || has_label raw_unpriced "Price" = false.
Proof.
  split; [exact (proj1 raw_unpriced_distinct)|]. split; [reflexivity|].
  exact (zillow_fails_only_without_a_price json json_isna json_str
           json_to_numeric raw_unpriced (proj1 raw_unpriced_distinct)).
Defined.

Lemma redfin_fails_only_without_a_price_witness :
  NoDup (labels (rename redfin_mapping raw_unpriced))
  /\ normalize_redfin_data json json_isna json_str json_to_numeric
       raw_unpriced = inl (KeyError "['Price']")
  /\ KeyError "['Price']" = KeyError "['Price']"
  /\ has_label raw_unpriced "price.value"
     || has_label raw_unpriced "Price" = false.
Proof.
  split; [exact (proj2 raw_unpriced_distinct)|]. split; [reflexivity|].
  exact (redfin_fails_only_without_a_price json json_isna json_str
           json_to_numeric raw_unpriced (proj2 raw_unpriced_distinct)).
Defined.

Lemma redfin_has_no_rent_column_witness :
  NoDup (labels (rename redfin_mapping raw_redfin))
  /\ normalize_redfin_data json json_isna json_str json_to_numeric raw_redfin
     = inr redfin_sample
  /\ has_label raw_redfin "RentEstimate" = true
  /\ has_label redfin_sample "RentEstimate" = false.
Proof.
  split; [exact raw_redfin_distinct|].
  split; [exact redfin_sample_run|]. split; [reflexivity|].
  exact (proj1 (redfin_has_no_rent_column json json_isna json_str
                  json_to_numeric raw_redfin redfin_sample
                  raw_redfin_distinct redfin_sample_run)).
Defined.

Lemma zillow_keeps_rows_with_a_price_witness :
  NoDup (labels (rename zillow_mapping raw_zillow))
  /\ normalize_zillow_data json json_isna json_str json_to_numeric raw_zillow
     = inr zillow_sample
  /\ labels zillow_sample = ["ID"; "Price"; "RentEstimate"]%string
  /\ In ("ID"%string, Strs json ["1"%string]) zillow_sample.
Proof.
  split; [exact raw_zillow_distinct|]. split; [exact zillow_sample_run|].
  split.
  - exact (proj1 (zillow_keeps_rows_with_a_price json json_isna json_str
                    json_to_numeric raw_zillow zillow_sample
                    raw_zillow_distinct zillow_sample_run)).
  - left. reflexivity.
Defined.

Lemma redfin_keeps_rows_with_a_price_witness :
  NoDup (labels (rename redfin_mapping raw_redfin))
  /\ normalize_redfin_data json json_isna json_str json_to_numeric raw_redfin
     = inr redfin_sample
  /\ labels redfin_sample = ["ID"; "Price"]%string
  /\ In ("ID"%string, Strs json ["7"%string]) redfin_sample.
Proof.
  split; [exact raw_redfin_distinct|]. split; [exact redfin_sample_run|].
  split.
  - exact (proj1 (redfin_keeps_rows_with_a_price json json_isna json_str
                    json_to_numeric raw_redfin redfin_sample
                    raw_redfin_distinct redfin_sample_run)).
  - left. reflexivity.
Defined.

End NormalizeFacts.

(* ================================================================== *)
(** * app.py and main.py: filling in the rent *)
(* ================================================================== *)

Module RentFill.
Import Num Py Normalize.

Section Fill.
Variable cell : Type.
Variable isna : cell -> bool.
(** A number stored in a column of raw cells. *)
Variable of_number : npfloat -> cell.

Definition series_length (s : Series cell) : nat :=
  match s with
  | Raw _ l => List.length l
  | Strs _ l => List.length l
  | Nums _ l => List.length l
  end.

(** [len(df)], read off the first column. *)
Definition nrows (df : Table (Series cell)) : nat :=
  match df with
  | [] => O
  | c :: _ => series_length (snd c)
  end.

(** [series.fillna(value)]. *)
Definition fillna (value : npfloat) (s : Series cell) : Series cell :=
  match s with
  | Raw _ l => Raw _ (map (fun c => if isna c then of_number value else c) l)
  | Strs _ l => Strs _ l
  | Nums _ l => Nums _ (map (fun x => if is_nan x then value else x) l)
  end.

(** [df[label].isna().all()] for a label that exists. *)
Definition all_na (label : string) (df : Table (Series cell)) : bool :=
  match find (fun c => String.eqb (fst c) label) df with
  | Some c => forallb (fun b => b) (series_na cell isna (snd c))
  | None => true
  end.

(** [df[label] = value] for a scalar: an existing column is overwritten
    where it stands, a new one is appended. *)
Definition set_scalar (label : string) (value : npfloat)
    (df : Table (Series cell)) : Table (Series cell) :=
  let col := Nums _ (repeat value (nrows df)) in
  if has_label df label
  then map (fun c => if String.eqb (fst c) label then (fst c, col) else c) df
  else df ++ [(label, col)].

(** [df[label] = df[label].fillna(value)]. *)
Definition set_filled (label : string) (value : npfloat)
    (df : Table (Series cell)) : Table (Series cell) :=
  map (fun c => if String.eqb (fst c) label
                then (fst c, fillna value (snd c)) else c) df.

(** app.py. *)
Definition fill_rent_app (default_rent : npfloat)
    (df : Table (Series cell)) : Table (Series cell) :=
  if has_label df "RentEstimate"
  then set_filled "RentEstimate" default_rent df
  else set_scalar "RentEstimate" default_rent df.

(** main.py. *)
Definition fill_rent_main (DEFAULT_RENT : npfloat)
    (df : Table (Series cell)) : Table (Series cell) :=
  if negb (has_label df "RentEstimate") || all_na "RentEstimate" df
  then set_scalar "RentEstimate" DEFAULT_RENT df
  else set_filled "RentEstimate" DEFAULT_RENT df.

End Fill.
End RentFill.

Module RentFillFacts.
Import Num NumFacts Py PyFacts Normalize NormalizeFacts RentFill.

Section FillFacts.
Variable cell : Type.
Variable isna : cell -> bool.
Variable of_number : npfloat -> cell.

Let fill value := fun x : npfloat => if is_nan x then value else x.

Lemma fill_all_nan value l :
  forallb (fun b => b) (map is_nan l) = true ->
  map (fill value) l = repeat value (List.length l).
Proof.
  induction l as [|x l IH]; [reflexivity|].
  cbn [map forallb List.length repeat]. intros H.
  apply andb_true_iff in H as [Hx Hl].
  unfold fill at 1. rewrite Hx, (IH Hl). reflexivity.
Qed.

Lemma fill_no_nan value l :
  is_nan value = false ->
  Forall (fun x => is_nan x = false) (map (fill value) l).
Proof.
  intros Hv. apply Forall_forall. intros y Hy.
  apply in_map_iff in Hy as (x & <- & _). unfold fill.
  destruct (is_nan x) eqn:E; [exact Hv | exact E].
Qed.

(** The rent column of a normalized table, when there is one, holds
    numbers, one per row. *)
Definition rent_is_numeric (df : Table (Series cell)) : Prop :=
  forall s, In ("RentEstimate"%string, s) df ->
    exists l, s = Nums cell l /\ List.length l = nrows cell df.

Lemma set_filled_all_nan value (df : Table (Series cell)) :
  rent_is_numeric df ->
  all_na cell isna "RentEstimate" df = true ->
  has_label df "RentEstimate" = true ->
  NoDup (labels df) ->
  set_filled cell isna of_number "RentEstimate" value df
  = set_scalar cell "RentEstimate" value df.
Proof.
  intros Hnum Hall Hhas Hnd. unfold set_scalar. rewrite Hhas. cbv zeta.
  unfold set_filled. apply map_ext_in. intros [l s] Hin. cbn [fst snd].
  destruct (String.eqb l "RentEstimate") eqn:E; [|reflexivity].
  apply String.eqb_eq in E. subst l.
  destruct (Hnum s Hin) as (xs & -> & Hlen).
  destruct (one_column df "RentEstimate" Hnd Hhas) as (cells & Hone).
  assert (Hc : In ("RentEstimate"%string, Nums cell xs)
                  (filter (fun c => String.eqb (fst c) "RentEstimate") df))
    by (apply filter_In; split; [exact Hin | reflexivity]).
  rewrite Hone in Hc. destruct Hc as [Hc|[]]. injection Hc as ->.
  unfold all_na in Hall.
  assert (Hfind : find (fun c => String.eqb (fst c) "RentEstimate") df
                  = Some ("RentEstimate"%string, Nums cell xs)).
  { clear - Hone. induction df as [|c df IH]; [discriminate|].
    cbn [filter find] in *.
    destruct (String.eqb (fst c) "RentEstimate"); [congruence|].
    apply IH, Hone. }
  rewrite Hfind in Hall. cbn [snd series_na] in Hall.
  cbn [fillna]. f_equal. f_equal. rewrite <- Hlen.
  apply (fill_all_nan value xs Hall).
Qed.

Lemma rent_fill_agrees_on value (df : Table (Series cell)) :
  NoDup (labels df) -> rent_is_numeric df ->
  fill_rent_main cell isna of_number value df
  = fill_rent_app cell isna of_number value df.
Proof.
  intros Hnd Hnum. unfold fill_rent_main, fill_rent_app.
  destruct (has_label df "RentEstimate") eqn:Hhas; cbn [negb orb];
    [|reflexivity].
  destruct (all_na cell isna "RentEstimate" df) eqn:Hall; [|reflexivity].
  symmetry. apply set_filled_all_nan; assumption.
Qed.

(** X28.  After the web application's fill the table has a rent column, and
    with a default that is a number no numeric rent is missing. *)
Theorem filled_rent_is_present value (df : Table (Series cell)) :
  NoDup (labels df) -> is_nan value = false ->
  let out := fill_rent_app cell isna of_number value df in
  has_label out "RentEstimate" = true
  /\ labels out
     = (if has_label df "RentEstimate" then labels df
        else labels df ++ ["RentEstimate"%string])
  /\ forall l, In ("RentEstimate"%string, Nums cell l) out ->
       Forall (fun x => is_nan x = false) l.
Proof.
  intros _ Hv. cbv zeta. unfold fill_rent_app.
  destruct (has_label df "RentEstimate") eqn:Hhas.
  - assert (Hlab : labels (set_filled cell isna of_number "RentEstimate"
                             value df) = labels df).
    { unfold labels, set_filled. rewrite map_map. apply map_ext.
      intros c. destruct (String.eqb (fst c) "RentEstimate"); reflexivity. }
    split; [unfold has_label; rewrite Hlab; exact Hhas|].
    split; [exact Hlab|].
    intros l Hin. unfold set_filled in Hin.
    apply in_map_iff in Hin as ([l0 s] & E & _). cbn [fst snd] in E.
    destruct (String.eqb l0 "RentEstimate") eqn:El.
    + injection E as _ E. destruct s as [cs|cs|xs]; try discriminate.
      cbn [fillna] in E. injection E as <-. apply (fill_no_nan value xs Hv).
    + injection E as E _. subst l0. discriminate.
  - unfold set_scalar. rewrite Hhas. cbv zeta.
    split; [|split].
    + unfold has_label, labels. rewrite map_app, existsb_app.
      cbn [map fst existsb]. rewrite String.eqb_refl. apply orb_true_r.
    + unfold labels. rewrite map_app. reflexivity.
    + intros l Hin. apply in_app_iff in Hin as [Hin|[Hin|[]]].
      * exfalso. assert (In "RentEstimate"%string (labels df))
          by (unfold labels; apply in_map_iff;
              exists ("RentEstimate"%string, Nums cell l);
              split; [reflexivity | exact Hin]).
        apply has_label_In in H. congruence.
      * injection Hin as <-. apply Forall_forall. intros x Hx.
        apply repeat_spec in Hx. subst x. exact Hv.
Qed.

End FillFacts.

(** ** Filling the rent of a normalized table *)

Section FillNormalized.
Variable cell : Type.
Variable isna : cell -> bool.
Variable astype_str : cell -> string.
Variable to_numeric : cell -> npfloat.
Variable of_number : npfloat -> cell.

(** Every column of the raw table has one cell per row. *)
Definition aligned (df : Table (list cell)) (n : nat) : Prop :=
  forall c, In c df -> List.length (snd c) = n.

Lemma rows_with_price_length prices cells :
  List.length cells = List.length prices ->
  List.length (rows_with_price cell isna to_numeric prices cells)
  = List.length (filter (valid_price cell isna to_numeric) prices).
Proof.
  unfold rows_with_price. rewrite length_map.
  revert cells. induction prices as [|p ps IH]; intros [|c cs] H;
    try discriminate; [reflexivity|].
  cbn [combine filter fst]. injection H as H.
  destruct (valid_price cell isna to_numeric p); cbn [List.length];
    rewrite (IH cs H); reflexivity.
Qed.

Lemma typed_length str_cols num_cols label cells :
  series_length cell
    (typed cell astype_str to_numeric str_cols num_cols label cells)
  = List.length cells.
Proof.
  unfold typed. destruct (mem label str_cols);
    [cbn [series_length]; apply length_map|].
  destruct (mem label num_cols); cbn [series_length];
    [apply length_map | reflexivity].
Qed.

(** X27.  The command-line program and the web application fill in the rent
    of a normalized Zillow table in the same way, when the raw table has
    one cell per row in every column and distinct labels after
    renaming. *)
Theorem rent_fill_agrees (df : Table (list cell)) n out value :
  aligned df n ->
  NoDup (labels (rename zillow_mapping df)) ->
  normalize_zillow_data cell isna astype_str to_numeric df = inr out ->
  fill_rent_main cell isna of_number value out
  = fill_rent_app cell isna of_number value out.
Proof.
  intros Hal Hnd H.
  destruct (normalize_rows cell isna astype_str to_numeric zillow_mapping
              zillow_columns
              ["ID"; "Address"; "Zipcode"; "LotSize"]%string
              ["Price"; "PriceEstimate"; "RentEstimate"]%string
              (conj eq_refl eq_refl)
              (zillow_columns_distinct) df out Hnd H) as (prices & Hin & E).
  set (renamed := rename zillow_mapping df) in *.
  set (sel := select (filter (has_label renamed) zillow_columns) renamed) in *.
  assert (Hren : forall c, In c renamed -> List.length (snd c) = n).
  { intros c Hc. unfold renamed, rename in Hc.
    apply in_map_iff in Hc as (c0 & <- & Hc0). apply (Hal c0 Hc0). }
  assert (Hp : List.length prices = n) by apply (Hren _ Hin).
  set (K := List.length (filter (valid_price cell isna to_numeric) prices)).
  assert (Hcol : forall c, In c out -> series_length cell (snd c) = K).
  { intros c Hc. rewrite E in Hc.
    apply in_map_iff in Hc as (c0 & <- & Hc0). cbn [snd].
    rewrite typed_length. apply rows_with_price_length.
    apply select_In in Hc0 as [_ Hc0]. rewrite (Hren _ Hc0), Hp.
    reflexivity. }
  apply rent_fill_agrees_on.
  - assert (Hl : labels out = filter (has_label renamed) zillow_columns).
    { rewrite E. unfold labels. rewrite map_map. cbn [fst].
      apply (labels_select zillow_columns renamed Hnd). }
    rewrite Hl. apply NoDup_filter, zillow_columns_distinct.
  - intros s Hs.
    assert (Hlen : series_length cell s = nrows cell out).
    { pose proof (Hcol _ Hs) as Hk. cbn [snd] in Hk. rewrite Hk.
      destruct out as [|c0 rest]; [contradiction|].
      cbn [nrows]. symmetry. apply Hcol. left. reflexivity. }
    rewrite E in Hs. apply in_map_iff in Hs as (c0 & Ec & _).
    injection Ec as El Es. rewrite El in Es. unfold typed in Es.
    cbn [mem existsb String.eqb Ascii.eqb Bool.eqb orb] in Es.
    rewrite <- Es in Hlen |- *. eexists. split; [reflexivity|].
    exact Hlen.
Qed.

End FillNormalized.

(** ** The theorems at concrete tables *)

Lemma raw_zillow_aligned : aligned json raw_zillow 3.
Proof.
  intros c Hc. cbn in Hc.
  repeat destruct Hc as [Hc|Hc]; try contradiction; subst c; reflexivity.
Qed.

Lemma rent_fill_agrees_witness :
  aligned json raw_zillow 3
  /\ NoDup (labels (rename zillow_mapping raw_zillow))
  /\ normalize_zillow_data json json_isna json_str json_to_numeric raw_zillow
     = inr zillow_sample
  /\ fill_rent_main json json_isna JFloat (Fin (of_int 12000)) zillow_sample
     = fill_rent_app json json_isna JFloat (Fin (of_int 12000)) zillow_sample.
Proof.
  split; [exact raw_zillow_aligned|]. split; [exact raw_zillow_distinct|].
  split; [exact zillow_sample_run|].
  exact (rent_fill_agrees json json_isna json_str json_to_numeric JFloat
           raw_zillow 3 zillow_sample (Fin (of_int 12000))
           raw_zillow_aligned raw_zillow_distinct zillow_sample_run).
Defined.

Lemma samples_distinct :
  NoDup (labels redfin_sample) /\ NoDup (labels zillow_sample).
Proof. split; distinct_labels. Qed.

Lemma filled_rent_is_present_witness :
  NoDup (labels redfin_sample)
  /\ is_nan (Fin (of_int 1500)) = false
  /\ has_label redfin_sample "RentEstimate" = false
  /\ has_label
       (fill_rent_app json json_isna JFloat (Fin (of_int 1500)) redfin_sample)
       "RentEstimate" = true.
Proof.
  split; [exact (proj1 samples_distinct)|].
  split; [reflexivity|]. split; [reflexivity|].
  exact (proj1 (filled_rent_is_present json json_isna JFloat
                  (Fin (of_int 1500)) redfin_sample
                  (proj1 samples_distinct) eq_refl)).
Defined.

End RentFillFacts.
